(** * Irradiance field solvers of the radiation-exposure repository

    A shallow embedding of the four solver variants

    - [main2.py]            ([Main2.calculate_irradiance_vectorized]),
    - [interactive_app.py]  ([InteractiveApp.calculate_irradiance_vectorized]),
    - [incupsulation.py]    ([Incupsulation.calculate_irradiance_optimized],
                             [Incupsulation.calculate_irradiance_extended_model]),
    - [main.py]             ([MainPy.ps_from_point], [MainPy.ps_for_target],
                             [MainPy.ps_for_all], [MainPy.main]),

    of the statistics and display ranges computed from the field
    ([two_slope_bounds], [np_min], [np_max], [max_position],
    [contour_levels]) and of the application object of [incupsulation.py]
    ([App.create_sliders], [App.on_slider_change], [App.update],
    [App.on_reset]), followed by the properties of the design document that
    can be decided on them and by further properties read off the sources.

    Numeric convention.  The Python sources compute with binary64 floats
    (NumPy) and, in [main.py], with 28-digit [Decimal] loop counters.  In
    the solvers every float is read as the real number it denotes and
    [+ - * /] and [sqrt] are exact: the fields are the real fields that
    the floats approximate.  [np.pi] is [PI]; the literals [0.1] and
    [0.005] are the rationals 1/10 and 1/200.  Python integers are [Z]
    where the sign or the floor division matters and [nat] where they
    count samples.

    Where the arithmetic decides what the program does, it is modelled.
    [py_float_sq] raises [OverflowError] as Python's [**] does, in
    [Main2.run].  [Main2Float] is [main2.py] on binary64 floats, with
    their underflow, overflow, [inf] and [nan].  [Decimal.round] is the
    rounding to 28 digits of the [Decimal] context: the source loops of
    [main.py] are bounded by the comparison of their [Decimal] counter
    alone, and make one more pass when the quotient [l / Decimal(match)]
    is rounded down (a third of 1, say).  Its receiver loops are bounded
    by their integer counters as well; their counters are read as exact,
    like the floats. *)

From Stdlib Require Import PrimFloat.
From Stdlib Require Import Reals Lra Lia List ZArith Permutation.
From Stdlib Require String.
Import String.StringSyntax.
Import ListNotations.

Open Scope R_scope.
Delimit Scope string_scope with string.

(** ** NumPy arrays *)

(** A two-dimensional array is a list of rows; [cell A r c] is [A[r][c]]. *)
Definition matrix := list (list R).

Definition cell (A : matrix) (r c : nat) : R := nth c (nth r A []) 0.

(** [shape n m A]: [A] has [n] rows of [m] entries ([A.shape == (n, m)]). *)
Definition shape (n m : nat) (A : matrix) : Prop :=
  length A = n /\ Forall (fun row => length row = m) A.

(** [np.zeros((n, m))]. *)
Definition zeros (n m : nat) : matrix := repeat (repeat 0 m) n.

(** Element-wise binary operation on two arrays of one shape. *)
Definition map2 (f : R -> R -> R) (u v : list R) : list R :=
  map (fun p => f (fst p) (snd p)) (combine u v).

Definition mmap2 (f : R -> R -> R) (A B : matrix) : matrix :=
  map (fun p => map2 f (fst p) (snd p)) (combine A B).

(** Element-wise unary operation ([A / 0.005], [A *= k]). *)
Definition mmap (f : R -> R) (A : matrix) : matrix := map (map f) A.

(** [A += B]. *)
Definition madd (A B : matrix) : matrix := mmap2 Rplus A B.

(** [np.linspace(start, stop, num)] with the default [endpoint=True]:
    [arange(num) * step + start] with [step = (stop - start) / (num - 1)],
    the last entry then overwritten by [stop]; a single sample is [start]
    and no sample is the empty array. *)
Definition linspace (start stop : R) (num : nat) : list R :=
  match num with
  | O => []
  | S O => [start]
  | S (S _ as div) =>
      map (fun i => INR i * ((stop - start) / INR div) + start) (seq 0 div)
        ++ [stop]
  end.

(** [np.meshgrid(x, y)] (indexing ['xy']): both results have one row per
    entry of [y] and one column per entry of [x]. *)
Definition meshgrid_X (x y : list R) : matrix := map (fun _ => x) y.
Definition meshgrid_Y (x y : list R) : matrix :=
  map (fun yv => map (fun _ => yv) x) y.

(** Sum of a list of reals; Python's [sum] and built-in [max]. *)
Definition Rsum (l : list R) : R := fold_right Rplus 0 l.

Definition py_sum (l : list R) : R := fold_left Rplus l 0.

(** Double sum of [f] over two lists of sample coordinates, the value a
    receiver cell accumulates over the source grid. *)
Definition sum2 (f : R -> R -> R) (us vs : list R) : R :=
  Rsum (map (fun u => Rsum (map (fun v => f u v) vs)) us).

Definition py_max (a b : R) : R := if Rlt_dec a b then b else a.

(** ** Outcome of a Python expression: a value or a raised exception *)

Inductive exn : Type :=
| ValueError
| ZeroDivisionError
| OverflowError.

Inductive outcome (A : Type) : Type :=
| Returned (value : A)
| Raised (e : exn).

Arguments Returned {A} value.
Arguments Raised {A} e.

Definition is_failure {A : Type} (o : outcome A) : bool :=
  match o with
  | Returned _ => false
  | Raised _ => true
  end.

(** Sequencing: an exception raised by a statement ends the call. *)
Definition bind {A B : Type} (o : outcome A) (k : A -> outcome B) : outcome B :=
  match o with
  | Returned a => k a
  | Raised e => Raised e
  end.

Notation "x <- o ;; k" := (bind o (fun x => k))
  (at level 61, o at next level, right associativity).

(** [np.linspace(start, stop, num)] for any integer [num]: NumPy raises
    [ValueError] ("Number of samples, -1, must be non-negative") on a
    negative count. *)
Definition np_linspace (start stop : R) (num : Z) : outcome (list R) :=
  if (num <? 0)%Z then Raised ValueError
  else Returned (linspace start stop (Z.to_nat num)).

(** [a / b] on Python numbers: a zero divisor raises. *)
Definition py_truediv (a b : R) : outcome R :=
  if Req_dec_T b 0 then Raised ZeroDivisionError else Returned (a / b).

(** The least magnitude that rounds to infinity in binary64: half an ulp
    above the largest finite float [2^1024 - 2^971]. *)
Definition float_overflow : R := IZR (2 ^ 1024 - 2 ^ 970).

(** [v ** 2] on a Python float: a result out of the range of floats raises
    [OverflowError]; an underflow is the float zero and raises nothing. *)
Definition py_float_sq (v : R) : outcome R :=
  if Rle_dec float_overflow (v ^ 2) then Raised OverflowError
  else Returned (v ^ 2).

(** ** main2.py *)

Module Main2.

(** Body of the double loop for one receiver point and one source point:
    lines 32-36, read element-wise. *)
Definition contribution (I_i L_sr x_r y_r x_s y_s : R) : R :=
  let dx := x_r - x_s in
  let dy := y_r - y_s in
  let L_vect := sqrt (dx ^ 2 + dy ^ 2 + L_sr ^ 2) in
  let cos_a := L_sr / L_vect in
  I_i * cos_a ^ 2 / L_sr ^ 2.

(** The accumulation loops of lines 30-36 over source indices [i], [j]. *)
Definition accumulate (I_i L_sr : R) (X_r Y_r : matrix) (x_s y_s : list R)
  (match_ : nat) (result : matrix) : matrix :=
  fold_left (fun result i =>
    fold_left (fun result j =>
      madd result
        (mmap2 (fun xr yr =>
                  contribution I_i L_sr xr yr (nth i x_s 0) (nth j y_s 0))
           X_r Y_r))
      (seq 0 match_) result)
    (seq 0 match_) result.

Definition calculate_irradiance_vectorized
  (p l_r h_r x y R_ l_s h_s : R) (accuracy : nat) : matrix :=
  let L_sr := R_ in
  let match_ := accuracy in
  let x_r := linspace 0 l_r match_ in
  let y_r := linspace 0 h_r match_ in
  let X_r := meshgrid_X x_r y_r in
  let Y_r := meshgrid_Y x_r y_r in
  let x_s := map (fun v => v + x) (linspace 0 l_s match_) in
  let y_s := map (fun v => v + y) (linspace 0 h_s match_) in
  let P_source := p in
  let I_i := P_source / (PI * INR match_ ^ 2) in
  let result := zeros match_ match_ in
  let result := accumulate I_i L_sr X_r Y_r x_s y_s match_ result in
  mmap (fun v => v / 0.005) result.

(** The statements of lines 32-36 for the source point [(i, j)], as Python
    runs them.  [L_sr] is a Python float and [L_sr**2], evaluated at lines
    34 and 36, is the one operation of the body that can raise; the
    operations on arrays raise nothing (where NumPy divides by zero it
    warns and stores [inf] or [nan]). *)
Definition loop_body (I_i L_sr : R) (X_r Y_r : matrix) (x_s y_s : list R)
  (i j : nat) (result : matrix) : outcome matrix :=
  let dx := mmap (fun xr => xr - nth i x_s 0) X_r in
  let dy := mmap (fun yr => yr - nth j y_s 0) Y_r in
  L_sr2 <- py_float_sq L_sr ;;
  let L_vect := mmap2 (fun dx dy => sqrt (dx ^ 2 + dy ^ 2 + L_sr2)) dx dy in
  let cos_a := mmap (fun L_vect => L_sr / L_vect) L_vect in
  L_sr2' <- py_float_sq L_sr ;;
  Returned (madd result (mmap (fun cos_a => I_i * cos_a ^ 2 / L_sr2') cos_a)).

(** The loops of lines 30-36, an exception leaving both. *)
Definition run_loops (I_i L_sr : R) (X_r Y_r : matrix) (x_s y_s : list R)
  (match_ : nat) (result : matrix) : outcome matrix :=
  fold_left (fun acc i =>
    fold_left (fun acc j =>
      result <- acc ;; loop_body I_i L_sr X_r Y_r x_s y_s i j result)
      (seq 0 match_) acc)
    (seq 0 match_) (Returned result).

(** The call as Python runs it, statement by statement, [accuracy] being
    any integer.  Nothing in the function compares an argument with a
    bound: the exceptions are those of the operations themselves. *)
Definition run (p l_r h_r x y R_ l_s h_s : R) (accuracy : Z)
  : outcome matrix :=
  let L_sr := R_ in
  let match_ := accuracy in
  x_r <- np_linspace 0 l_r match_ ;;
  y_r <- np_linspace 0 h_r match_ ;;
  let X_r := meshgrid_X x_r y_r in
  let Y_r := meshgrid_Y x_r y_r in
  x_s0 <- np_linspace 0 l_s match_ ;;
  let x_s := map (fun v => v + x) x_s0 in
  y_s0 <- np_linspace 0 h_s match_ ;;
  let y_s := map (fun v => v + y) y_s0 in
  let P_source := p in
  I_i <- py_truediv P_source (PI * IZR match_ ^ 2) ;;
  let result := zeros (Z.to_nat match_) (Z.to_nat match_) in
  result <- run_loops I_i L_sr X_r Y_r x_s y_s (Z.to_nat match_) result ;;
  Returned (mmap (fun v => v / 0.005) result).

End Main2.

(** ** main2.py in binary64 arithmetic *)

(** The same function on the floats NumPy computes with: [+ - * /] and
    [sqrt] are the IEEE 754 operations, a square is a product, and an
    operation on arrays that overflows or divides by zero stores [inf] or
    [nan] instead of raising. *)
Module Main2Float.

Local Open Scope float_scope.

Definition fmatrix := list (list float).

Definition fcell (A : fmatrix) (r c : nat) : float := nth c (nth r A []) 0.

(** The float of a sample count or index. *)
Fixpoint of_nat (n : nat) : float :=
  match n with
  | O => 0
  | S k => of_nat k + 1
  end.

(** [np.pi] and the literal [0.005]. *)
Definition np_pi : float := 0x1.921fb54442d18p+1.
Definition calibration : float := 0x1.47ae147ae147bp-8.

Definition sq (v : float) : float := v * v.

(** [np.linspace]: [arange(num) * step + start], or
    [arange(num) / div * delta + start] when the step is zero, the last
    entry overwritten by [stop]. *)
Definition linspace (start stop : float) (num : nat) : list float :=
  match num with
  | O => []
  | S O => [start]
  | S (S _ as div) =>
      let delta := stop - start in
      let step := delta / of_nat div in
      map (fun i =>
             (if step =? 0 then of_nat i / of_nat div * delta
              else of_nat i * step) + start) (seq 0 div)
        ++ [stop]
  end.

Definition fmap2 (f : float -> float -> float) (u v : list float)
  : list float :=
  map (fun p => f (fst p) (snd p)) (combine u v).

Definition fmmap2 (f : float -> float -> float) (A B : fmatrix) : fmatrix :=
  map (fun p => fmap2 f (fst p) (snd p)) (combine A B).

Definition contribution (I_i L_sr x_r y_r x_s y_s : float) : float :=
  let dx := x_r - x_s in
  let dy := y_r - y_s in
  let L_vect := PrimFloat.sqrt (sq dx + sq dy + sq L_sr) in
  let cos_a := L_sr / L_vect in
  I_i * sq cos_a / sq L_sr.

Definition calculate_irradiance_vectorized
  (p l_r h_r x y R_ l_s h_s : float) (accuracy : nat) : fmatrix :=
  let L_sr := R_ in
  let match_ := accuracy in
  let x_r := linspace 0 l_r match_ in
  let y_r := linspace 0 h_r match_ in
  let X_r := map (fun _ => x_r) y_r in
  let Y_r := map (fun yv => map (fun _ => yv) x_r) y_r in
  let x_s := map (fun v => v + x) (linspace 0 l_s match_) in
  let y_s := map (fun v => v + y) (linspace 0 h_s match_) in
  let P_source := p in
  let I_i := P_source / (np_pi * sq (of_nat match_)) in
  let result := repeat (repeat 0 match_) match_ in
  let result :=
    fold_left (fun result i =>
      fold_left (fun result j =>
        fmmap2 PrimFloat.add result
          (fmmap2 (fun xr yr =>
                     contribution I_i L_sr xr yr (nth i x_s 0) (nth j y_s 0))
             X_r Y_r))
        (seq 0 match_) result)
      (seq 0 match_) result in
  map (map (fun v => v / calibration)) result.

(** A float that is neither [nan] nor an infinity. *)
Definition is_finite (v : float) : bool :=
  negb (is_nan v) && negb (is_infinity v).

(** The inputs of the examples: [1e-200], [1e308] and [1e-3]. *)
Definition tiny_standoff : float := 0x1.87e92154ef7acp-665.
Definition huge_power : float := 0x1.1ccf385ebc8ap+1023.
Definition millimetre : float := 0x1.0624dd2f1a9fcp-10.

End Main2Float.

(** ** interactive_app.py *)

Module InteractiveApp.

Definition contribution (I_i L_sr x_r y_r x_s y_s : R) : R :=
  let dx := x_r - x_s in
  let dy := y_r - y_s in
  let L_vect := sqrt (dx ^ 2 + dy ^ 2 + L_sr ^ 2) in
  let cos_a := L_sr / L_vect in
  I_i * cos_a ^ 2 / L_sr ^ 2.

(** Lines 70-76: here [i] indexes [y_s] and [j] indexes [x_s]. *)
Definition accumulate (I_i L_sr : R) (X_r Y_r : matrix) (x_s y_s : list R)
  (match_ : nat) (result : matrix) : matrix :=
  fold_left (fun result i =>
    fold_left (fun result j =>
      madd result
        (mmap2 (fun xr yr =>
                  contribution I_i L_sr xr yr (nth j x_s 0) (nth i y_s 0))
           X_r Y_r))
      (seq 0 match_) result)
    (seq 0 match_) result.

(** The method reads its parameters from the fields of the application
    object; they are arguments here. *)
Definition calculate_irradiance_vectorized
  (p l_r h_r x y R_ l_s h_s : R) (accuracy : nat) : matrix :=
  let L_sr := R_ in
  let match_ := accuracy in
  let x_r := linspace 0 l_r match_ in
  let y_r := linspace 0 h_r match_ in
  let X_r := meshgrid_X x_r y_r in
  let Y_r := meshgrid_Y x_r y_r in
  let x_s := map (fun v => v + x) (linspace 0 l_s match_) in
  let y_s := map (fun v => v + y) (linspace 0 h_s match_) in
  let P_source := p in
  let I_i := P_source / (PI * INR match_ ^ 2) in
  let result := zeros match_ match_ in
  let result := accumulate I_i L_sr X_r Y_r x_s y_s match_ result in
  mmap (fun v => v / 0.005) result.

End InteractiveApp.

(** ** incupsulation.py *)

Module Incupsulation.

(** Lines 64-84 for one receiver point and one source point. *)
Definition distance_sq (L_sr x_r y_r x_s y_s : R) : R :=
  let dx := x_r - x_s in
  let dy := y_r - y_s in
  dx ^ 2 + dy ^ 2 + L_sr ^ 2.

Definition cos_alpha (L_sr x_r y_r x_s y_s : R) : R :=
  L_sr / sqrt (distance_sq L_sr x_r y_r x_s y_s).

Definition irradiance (I_i L_sr x_r y_r x_s y_s : R) : R :=
  I_i * (cos_alpha L_sr x_r y_r x_s y_s ^ 2)
  / distance_sq L_sr x_r y_r x_s y_s.

(** The kernel: [prange] over [i] is a reduction on [result], read here as
    the sequential loop it is equivalent to in exact arithmetic. *)
Definition calculate_irradiance_optimized
  (X_r Y_r : matrix) (x_s_points y_s_points : list R) (L_sr I_i : R)
  : matrix :=
  let match_ := length X_r in
  let result := zeros match_ match_ in
  let num_x_s := length x_s_points in
  let num_y_s := length y_s_points in
  fold_left (fun result i =>
    fold_left (fun result j =>
      let x_s := nth i x_s_points 0 in
      let y_s := nth j y_s_points 0 in
      madd result (mmap2 (fun xr yr => irradiance I_i L_sr xr yr x_s y_s)
                     X_r Y_r))
      (seq 0 num_y_s) result)
    (seq 0 num_x_s) result.

(** Line 195: [max(2, min(10, match // 10))]. *)
Definition source_points_factor (match_ : Z) : Z :=
  Z.max 2 (Z.min 10 (match_ / 10)).

Definition x_s_points (l_s x : R) (match_ : nat) : list R :=
  map (fun v => v + x)
    (linspace (- l_s / 2) (l_s / 2)
       (Z.to_nat (source_points_factor (Z.of_nat match_)))).

Definition y_s_points (h_s y : R) (match_ : nat) : list R :=
  map (fun v => v + y)
    (linspace (- h_s / 2) (h_s / 2)
       (Z.to_nat (source_points_factor (Z.of_nat match_)))).

(** Line 200. *)
Definition num_source_points (l_s h_s x y : R) (match_ : nat) : nat :=
  (length (x_s_points l_s x match_) * length (y_s_points h_s y match_))%nat.

(** Line 201. *)

Definition power_per_point (p l_s h_s x y : R) (match_ : nat) : R :=
  p / INR (num_source_points l_s h_s x y match_).

(** Line 204. *)
Definition I_i (p l_s h_s x y : R) (match_ : nat) : R :=
  power_per_point p l_s h_s x y match_ / PI.

(** Lines 186-207: the field before the small-distance correction. *)
Definition accumulated_field
  (p l_r h_r x y R_ l_s h_s : R) (accuracy : nat) : matrix :=
  let L_sr := R_ in
  let match_ := accuracy in
  let x_r := linspace 0 l_r match_ in
  let y_r := linspace 0 h_r match_ in
  let X_r := meshgrid_X x_r y_r in
  let Y_r := meshgrid_Y x_r y_r in
  calculate_irradiance_optimized X_r Y_r
    (x_s_points l_s x match_) (y_s_points h_s y match_)
    L_sr (I_i p l_s h_s x y match_).

(** Line 212. *)
Definition size_correction (R_ l_s h_s : R) : R :=
  1.0 + 0.1 * (py_max l_s h_s / R_).

(** The method, its parameters read from the application object. *)
Definition calculate_irradiance_extended_model
  (p l_r h_r x y R_ l_s h_s : R) (accuracy : nat) : matrix :=
  let L_sr := R_ in
  let result := accumulated_field p l_r h_r x y R_ l_s h_s accuracy in
  if Rlt_dec L_sr (py_max l_s h_s * 10)
  then mmap (fun v => v * size_correction R_ l_s h_s) result
  else result.

End Incupsulation.

(** ** Decimal arithmetic of [main.py] *)

(** [getcontext().prec = 28]: the result of a [Decimal] operation is the
    exact result rounded to 28 significant digits, ties to the even
    coefficient.  A [Decimal] is read as the real number it denotes. *)
Module Decimal.

(** The integer nearest to [v], the even one of the two at a tie. *)
Definition round_half_even (v : R) : Z :=
  let n := Int_part v in
  let r := v - IZR n in
  if Rlt_dec r (1 / 2) then n
  else if Rlt_dec (1 / 2) r then (n + 1)%Z
  else if Z.even n then n else (n + 1)%Z.

(** The exponent of the leading digit: [10^a <= |v| < 10^(a+1)]. *)
Definition adjusted (v : R) : Z := Int_part (ln (Rabs v) / ln 10).

(** Rounding to 28 significant digits. *)
Definition round (v : R) : R :=
  if Req_dec_T v 0 then 0
  else
    let e := (adjusted v - 27)%Z in
    IZR (round_half_even (v / powerRZ 10 e)) * powerRZ 10 e.

(** [a + b] and [a / b] on [Decimal]s. *)
Definition add (a b : R) : R := round (a + b).
Definition div (a b : R) : R := round (a / b).

End Decimal.

(** ** main.py *)

Module MainPy.

Definition ps_from_point (x y xs ys x_pos y_pos L_sr I_i : R) : R :=
  let xs_actual := xs + x_pos in
  let ys_actual := ys + y_pos in
  let dx := xs_actual - x in
  let dy := ys_actual - y in
  let L_vect := sqrt (dx ^ 2 + dy ^ 2 + L_sr ^ 2) in
  let cos_a := L_sr / L_vect in
  I_i * cos_a ^ 2 / L_sr ^ 2.

(** The inner loop of [ps_for_target], [while ys < h_s], appending one
    task per pass; [None] when the fuel does not reach the loop's exit.
    The counter is a [Decimal] and [ys += ystep_s] rounds; only the
    comparison with [h_s] ends the loop. *)
Fixpoint ys_loop (fuel : nat) (task : R -> R) (h_s ystep_s ys : R)
  (tasks_list : list R) : option (list R) :=
  if Rlt_dec ys h_s then
    match fuel with
    | O => None
    | S fuel' =>
        ys_loop fuel' task h_s ystep_s (Decimal.add ys ystep_s)
          (tasks_list ++ [task ys])
    end
  else Some tasks_list.

(** The outer loop, [while xs < l_s]; every run of the inner loop gets the
    fuel [yfuel]. *)
Fixpoint xs_loop (fuel yfuel : nat) (task : R -> R -> R)
  (l_s h_s xstep_s ystep_s xs : R) (tasks_list : list R)
  : option (list R) :=
  if Rlt_dec xs l_s then
    match fuel with
    | O => None
    | S fuel' =>
        match ys_loop yfuel (task xs) h_s ystep_s 0 tasks_list with
        | None => None
        | Some tasks_list' =>
            xs_loop fuel' yfuel task l_s h_s xstep_s ystep_s
              (Decimal.add xs xstep_s) tasks_list'
        end
    end
  else Some tasks_list.

(** [ps_for_target]: the awaited tasks are summed by [sum]. *)
Definition ps_for_target (fuel : nat)
  (x y l_s h_s xstep_s ystep_s x_pos y_pos L_sr I_i : R) : option R :=
  match xs_loop fuel fuel
          (fun xs ys => ps_from_point x y xs ys x_pos y_pos L_sr I_i)
          l_s h_s xstep_s ystep_s 0 [] with
  | None => None
  | Some results => Some (py_sum results)
  end.

(** A pending [ps_for_target(x, y, ...)] call of [ps_for_all], stored with
    the indices of the cell it fills. *)
Record target_task : Type := mk_task { t_x : R; t_y : R; t_xi : nat; t_yi : nat }.

(** [while y < h_r and yi < match]: at most [match] passes, which is the
    fuel. *)
Fixpoint y_loop (fuel : nat) (match_ : nat) (h_r y_step_r : R)
  (x : R) (xi : nat) (y : R) (yi : nat) (tasks_list : list target_task)
  : list target_task :=
  match fuel with
  | O => tasks_list
  | S fuel' =>
      if Rlt_dec y h_r then
        if (yi <? match_)%nat then
          y_loop fuel' match_ h_r y_step_r x xi (y + y_step_r) (yi + 1)
            (tasks_list ++ [mk_task x y xi yi])
        else tasks_list
      else tasks_list
  end.

(** [while x < l_r and xi < match]. *)
Fixpoint x_loop (fuel : nat) (match_ : nat) (l_r h_r x_step_r y_step_r : R)
  (x : R) (xi : nat) (tasks_list : list target_task) : list target_task :=
  match fuel with
  | O => tasks_list
  | S fuel' =>
      if Rlt_dec x l_r then
        if (xi <? match_)%nat then
          x_loop fuel' match_ l_r h_r x_step_r y_step_r
            (x + x_step_r) (xi + 1)
            (y_loop match_ match_ h_r y_step_r x xi 0 0 tasks_list)
        else tasks_list
      else tasks_list
  end.

(** Lines 38-56 of [ps_for_all]: the receiver steps and the task list. *)
Definition ps_for_all_tasks (match_ : nat) (l_r h_r : R) : list target_task :=
  let x_step_r := l_r / INR match_ in
  let y_step_r := h_r / INR match_ in
  x_loop match_ match_ l_r h_r x_step_r y_step_r 0 0 [].

(** [result[xi][yi] = v]. *)
Fixpoint set_nth (l : list R) (i : nat) (v : R) : list R :=
  match l, i with
  | [], _ => []
  | _ :: t, O => v :: t
  | h :: t, S i' => h :: set_nth t i' v
  end.

Fixpoint mset (A : matrix) (r c : nat) (v : R) : matrix :=
  match A, r with
  | [], _ => []
  | row :: t, O => set_nth row c v :: t
  | row :: t, S r' => row :: mset t r' c v
  end.

(** [ps_for_all]: every task is awaited and stored at its indices.  The
    source steps are the rounded quotients [l_s / Decimal(match)] and
    [h_s / Decimal(match)]: they and the comparisons [xs < l_s],
    [ys < h_s] alone decide how many source points a task sums over.  The
    receiver loops are bounded by their integer counters as well and are
    those of [ps_for_all_tasks]. *)
Definition ps_for_all (fuel : nat) (match_ : nat)
  (l_r h_r l_s h_s x_pos y_pos L_sr I_i : R) : option matrix :=
  let result := repeat (repeat 0 match_) match_ in
  let xstep_s := Decimal.div l_s (INR match_) in
  let ystep_s := Decimal.div h_s (INR match_) in
  fold_left (fun acc t =>
    match acc with
    | None => None
    | Some result =>
        match ps_for_target fuel (t_x t) (t_y t) l_s h_s xstep_s ystep_s
                x_pos y_pos L_sr I_i with
        | None => None
        | Some v => Some (mset result (t_xi t) (t_yi t) v)
        end
    end) (ps_for_all_tasks match_ l_r h_r) (Some result).

(** Lines 70-85 of [main]: the parameters, the intensity per source point
    and the array handed to the plotting code. *)
Definition main (fuel : nat) (p l_r h_r x y R_ l_s h_s : R) (accuracy : nat)
  : option matrix :=
  let L_sr := R_ in
  let match_ := accuracy in
  let a := l_s in
  let b := h_s in
  let x_pos := x in
  let y_pos := y in
  let c := l_r in
  let d := h_r in
  let P_source := p in
  let I_i := P_source / (PI * INR match_ ^ 2) in
  match ps_for_all fuel match_ c d a b x_pos y_pos L_sr I_i with
  | None => None
  | Some result_array => Some (mmap (fun v => v / 0.005) result_array)
  end.

End MainPy.

(** ** The receiver grids *)

(** The receiver grid of the NumPy variants ([main2.py] lines 14-16,
    [interactive_app.py] lines 54-56, [incupsulation.py] lines 190-192):
    the pair [(X_r, Y_r)]. *)
Definition receiver_grid (l_r h_r : R) (match_ : nat) : matrix * matrix :=
  let x_r := linspace 0 l_r match_ in
  let y_r := linspace 0 h_r match_ in
  (meshgrid_X x_r y_r, meshgrid_Y x_r y_r).

(** The receiver points [main.py] visits, in loop order: [match] steps of
    [l_r / match] along x, each with [match] steps of [h_r / match]. *)
Definition stepped_grid (l_r h_r : R) (match_ : nat) : list MainPy.target_task :=
  flat_map (fun xi =>
    map (fun yi =>
           MainPy.mk_task (INR xi * (l_r / INR match_))
             (INR yi * (h_r / INR match_)) xi yi)
      (seq 0 match_))
    (seq 0 match_).

(** The source coordinates along one axis that [ps_for_target] visits when
    its step is [l_s / match]: [match] steps from 0, [l_s] left out. *)
Definition stepped_source (l_s : R) (match_ : nat) : list R :=
  map (fun i => INR i * (l_s / INR match_)) (seq 0 match_).

(** The values a [Decimal] counter takes in
    [while xs < l: ...; xs += step], started at [xs]: the source
    coordinates [ps_for_target] visits along one axis.  [None] when the
    fuel does not reach the exit of the loop. *)
Fixpoint counter_values (fuel : nat) (l step xs : R) : option (list R) :=
  if Rlt_dec xs l then
    match fuel with
    | O => None
    | S fuel' =>
        option_map (cons xs)
          (counter_values fuel' l step (Decimal.add xs step))
    end
  else Some [].

(** A third of 1 in 28 digits. *)
Definition third : R := IZR 3333333333333333333333333333 * powerRZ 10 (-28).

(** ** The radiometric model of the design document *)

(** The per-pair contribution as the design document states it
    (section 4.1, step 4): [r² = dx² + dy² + L²], [cos α = L / sqrt(r²)],
    [E = I_i * cos²α / r²]. *)
Definition spec_contribution (I_i L x_r y_r x_s y_s : R) : R :=
  let dx := x_r - x_s in
  let dy := y_r - y_s in
  let r2 := dx ^ 2 + dy ^ 2 + L ^ 2 in
  let cos_a := L / sqrt r2 in
  I_i * cos_a ^ 2 / r2.

(** ** Statistics and display ranges *)

Definition Rleb (a b : R) : bool := if Rle_dec a b then true else false.

Definition Rltb (a b : R) : bool := if Rlt_dec a b then true else false.

(** [np.min(A)] and [np.max(A)] over all entries of an array; on an array
    without entries NumPy raises [ValueError], which is [None] here. *)
Definition np_min (A : matrix) : option R :=
  match concat A with
  | [] => None
  | a :: t => Some (fold_left Rmin t a)
  end.

Definition np_max (A : matrix) : option R :=
  match concat A with
  | [] => None
  | a :: t => Some (fold_left Rmax t a)
  end.

(** [np.argmax(A)]: the position, in row-major order, of the first entry
    that no other entry exceeds. *)
Fixpoint argmax_from (l : list R) (i best_i : nat) (best : R) : nat :=
  match l with
  | [] => best_i
  | a :: t =>
      if Rlt_dec best a then argmax_from t (S i) i a
      else argmax_from t (S i) best_i best
  end.

Definition np_argmax (A : matrix) : option nat :=
  match concat A with
  | [] => None
  | a :: t => Some (argmax_from t 1 0 a)
  end.

(** [np.unravel_index(idx, (rows, cols))] for a position inside the
    array: [(row, column)]. *)
Definition unravel_index (idx : nat) (dims : nat * nat) : nat * nat :=
  ((idx / snd dims)%nat, (idx mod snd dims)%nat).

(** [A.shape] of a two-dimensional array. *)
Definition array_shape (A : matrix) : nat * nat :=
  (length A, length (hd [] A)).

(** The arguments [(vmin, vcenter, vmax)] handed to [TwoSlopeNorm]
    ([main.py] lines 95-117, [main2.py] lines 55-67,
    [interactive_app.py] lines 230-242). *)
Definition two_slope_bounds (min_irradiance max_irradiance : R) : R * R * R :=
  let vmin := min_irradiance in
  let vmax := max_irradiance in
  if (Rleb vmin 1 && Rleb 1 vmax)%bool then (vmin, 1.0, vmax)
  else if Rltb vmax 1 then
    let vmax_sym := 2 - vmin in (vmin, 1.0, vmax_sym)
  else if Rltb 1 vmin then
    let vmin_sym := 2 - vmax in (vmin_sym, 1.0, vmax)
  else (vmin, 1.0, vmax).

(** [incupsulation.py], [update_display]: the lower bound given to
    [LogNorm] (line 411), the condition under which contours are drawn
    (line 434), the linear contour levels [levels[1:-1]] (lines 438-440)
    and the reported position of the maximum (lines 453-455). *)
Definition log_norm_vmin (min_irradiance : R) : R :=
  py_max 1e-10 min_irradiance.

Definition draws_contours (accuracy : nat) (min_irradiance max_irradiance : R)
  : bool :=
  ((accuracy <=? 50)%nat && Rltb min_irradiance max_irradiance
   && Rltb 0 min_irradiance)%bool.

Definition contour_levels (min_irradiance max_irradiance : R) : list R :=
  let levels := linspace min_irradiance max_irradiance 6 in
  removelast (tl levels).

Definition max_position (result_array : matrix) (l_r h_r : R) (accuracy : nat)
  : option (R * R) :=
  match np_argmax result_array with
  | None => None
  | Some idx =>
      let max_pos := unravel_index idx (array_shape result_array) in
      let max_x :=
        if (1 <? accuracy)%nat
        then INR (snd max_pos) * (l_r / INR (accuracy - 1)) else 0 in
      let max_y :=
        if (1 <? accuracy)%nat
        then INR (fst max_pos) * (h_r / INR (accuracy - 1)) else 0 in
      Some (max_x, max_y)
  end.

(** [incupsulation.py], [update] and [update_layout]: the statistics of the
    computed field and the ratio shown when the minimum is positive
    (lines 327-332 and 391-393). *)
Definition irradiance_ratio (result_array : matrix) : option R :=
  match np_min result_array, np_max result_array with
  | Some min_irradiance, Some max_irradiance =>
      if Rltb 0 min_irradiance then Some (max_irradiance / min_irradiance)
      else None
  | _, _ => None
  end.

(** ** [incupsulation.py]: the application object *)

(** Python exceptions met by the methods below. *)
Inductive py_error : Type :=
| AttributeError (name : String.string)
| KeyError (key : String.string)
| NegativeSamples
| EmptyReduction.

(** [int(v)] of a float: truncation towards zero. *)
Definition py_int (v : R) : Z :=
  if Rle_dec 0 v then Int_part v else (- Int_part (- v))%Z.

Module App.

(** The fields of the application object that the computation reads and
    writes ([__init__], lines 126-144); [None] for [result_array] is
    Python's [None]. *)
Record state : Type := mk_state {
  p : R; l_r : R; h_r : R; x : R; y : R; R_ : R; l_s : R; h_s : R;
  accuracy : Z;
  min_irradiance : R;
  max_irradiance : R;
  result_array : option matrix
}.

Definition init : state :=
  mk_state 500 100 100 50 50 500 1 1 30 0 0 None.

(** A [Slider]: its range, initial value and step, and its current
    value. *)
Record slider : Type := mk_slider {
  valmin : R; valmax : R; valinit : R; valstep : R; val : R
}.

(** [create_sliders] (lines 272-289): the dictionary [self.sliders], in the
    order of [sliders_config], every slider at its initial value. *)
Definition create_sliders (s : state) : list (String.string * slider) :=
  let sliders_config :=
    [("slider_power"%string, 1, 5000, p s, 10);
     ("slider_x"%string, 0, 200, x s, 1);
     ("slider_y"%string, 0, 200, y s, 1);
     ("slider_z"%string, 200, 1000, R_ s, 10);
     ("slider_ls"%string, 0.1, 20, l_s s, 0.1);
     ("slider_hs"%string, 0.1, 20, h_s s, 0.1);
     ("slider_lr"%string, 10, 500, l_r s, 10);
     ("slider_hr"%string, 10, 500, h_r s, 10);
     ("slider_acc"%string, 20, 80, IZR (accuracy s), 5)] in
  map (fun c =>
         match c with
         | (name, vmin, vmax, valinit, valstep) =>
             (name, mk_slider vmin vmax valinit valstep valinit)
         end) sliders_config.

(** [self.sliders[key]]. *)
Fixpoint getitem (sliders : list (String.string * slider)) (key : String.string)
  : py_error + slider :=
  match sliders with
  | [] => inl (KeyError key)
  | (k, sl) :: rest => if String.eqb k key then inr sl else getitem rest key
  end.

(** The user moving sliders: every slider keeps its range and takes the
    given value. *)
Definition set_vals (sliders : list (String.string * slider)) (vals : list R)
  : list (String.string * slider) :=
  map (fun kv =>
         match kv with
         | ((k, sl), v) =>
             (k, mk_slider (valmin sl) (valmax sl) (valinit sl) (valstep sl) v)
         end) (combine sliders vals).

(** [update] (lines 327-332): the field and its statistics; the drawing
    that follows is left out. *)
Definition update (s : state) : py_error + state :=
  if (accuracy s <? 0)%Z then inl NegativeSamples
  else
    let result_array :=
      Incupsulation.calculate_irradiance_extended_model
        (p s) (l_r s) (h_r s) (x s) (y s) (R_ s) (l_s s) (h_s s)
        (Z.to_nat (accuracy s)) in
    match np_min result_array, np_max result_array with
    | Some mn, Some mx =>
        inr (mk_state (p s) (l_r s) (h_r s) (x s) (y s) (R_ s) (l_s s) (h_s s)
               (accuracy s) mn mx (Some result_array))
    | _, _ => inl EmptyReduction
    end.

(** [on_slider_change] (lines 291-311). *)
Definition on_slider_change (sliders : list (String.string * slider))
  (s : state) : py_error + state :=
  match getitem sliders "slider_power"%string with inl e => inl e | inr s_power =>
  match getitem sliders "slider_x"%string with inl e => inl e | inr s_x =>
  match getitem sliders "slider_y"%string with inl e => inl e | inr s_y =>
  match getitem sliders "slider_z"%string with inl e => inl e | inr s_z =>
  match getitem sliders "slider_ls"%string with inl e => inl e | inr s_ls =>
  match getitem sliders "slider_hs"%string with inl e => inl e | inr s_hs =>
  match getitem sliders "slider_lr"%string with inl e => inl e | inr s_lr =>
  match getitem sliders "slider_hr"%string with inl e => inl e | inr s_hr =>
  match getitem sliders "slider_acc"%string with inl e => inl e | inr s_acc =>
    let new_accuracy := py_int (val s_acc) in
    let s' :=
      mk_state (val s_power) (val s_lr) (val s_hr) (val s_x) (val s_y)
        (val s_z) (val s_ls) (val s_hs) (accuracy s)
        (min_irradiance s) (max_irradiance s) (result_array s) in
    let with_accuracy :=
      mk_state (p s') (l_r s') (h_r s') (x s') (y s') (R_ s') (l_s s') (h_s s')
        new_accuracy (min_irradiance s') (max_irradiance s') (result_array s') in
    if (new_accuracy <=? 50)%Z then update with_accuracy
    else update with_accuracy
  end end end end end end end end end.

(** The names bound on the instance once [__init__] has returned: its own
    assignments, then those of [setup_ui], [create_sliders],
    [create_control_buttons] and of the first [update] (which adds
    [cbar]). *)
Definition instance_attributes : list String.string :=
  ["p"; "l_r"; "h_r"; "x"; "y"; "R"; "l_s"; "h_s"; "accuracy";
   "normalization_type"; "power_gamma"; "min_irradiance"; "max_irradiance";
   "result_array"; "calc_time";
   "fig"; "ax_layout"; "ax_field";
   "sliders";
   "radio_norm"; "slider_gamma"; "button_reset"; "button_fast";
   "cbar"]%string.

Definition hasattr (attributes : list String.string) (name : String.string)
  : bool :=
  existsb (String.eqb name) attributes.

(** [on_reset] (lines 248-259): one attribute access per statement, in
    order; the result lists the widgets that were reset before the
    handler returned or raised. *)
Fixpoint reset_each (attributes names done : list String.string)
  : list String.string * option py_error :=
  match names with
  | [] => (done, None)
  | name :: rest =>
      if hasattr attributes name
      then reset_each attributes rest (done ++ [name])
      else (done, Some (AttributeError name))
  end.

Definition on_reset (attributes : list String.string)
  : list String.string * option py_error :=
  reset_each attributes
    ["slider_power"; "slider_x"; "slider_y"; "slider_z"; "slider_ls";
     "slider_hs"; "slider_lr"; "slider_hr"; "slider_acc"; "slider_gamma";
     "radio_norm"]%string [].

End App.

(** A slider holds a value of its range (a [Slider] clips the values it
    takes from the mouse to [[valmin, valmax]]). *)
Definition in_range (sl : App.slider) : Prop :=
  App.valmin sl <= App.val sl <= App.valmax sl.

(** * Properties *)

(** ** Arrays: shapes and cells *)

Lemma nth_map2 (f : R -> R -> R) (u v : list R) (c : nat) :
  length u = length v -> (c < length u)%nat ->
  nth c (map2 f u v) 0 = f (nth c u 0) (nth c v 0).
Proof.
  intros Hlen Hc. unfold map2.
  rewrite (nth_indep _ 0 (f (fst (0, 0)) (snd (0, 0)))).
  - rewrite (map_nth (fun p => f (fst p) (snd p))).
    rewrite combine_nth by exact Hlen. reflexivity.
  - rewrite length_map, length_combine. lia.
Qed.

Lemma length_map2 (f : R -> R -> R) (u v : list R) :
  length u = length v -> length (map2 f u v) = length u.
Proof.
  intros H. unfold map2. rewrite length_map, length_combine. lia.
Qed.

Lemma nth_mmap2 (f : R -> R -> R) (A B : matrix) (r : nat) :
  length A = length B ->
  nth r (mmap2 f A B) [] = map2 f (nth r A []) (nth r B []).
Proof.
  intros Hlen. unfold mmap2.
  change (@nil R) with (map2 f (fst (@nil R, @nil R)) (snd (@nil R, @nil R))) at 1.
  rewrite (map_nth (fun p => map2 f (fst p) (snd p))).
  rewrite combine_nth by exact Hlen. reflexivity.
Qed.

Lemma shape_row (n m : nat) (A : matrix) (r : nat) :
  shape n m A -> (r < n)%nat -> length (nth r A []) = m.
Proof.
  intros [Hn Hrows] Hr. rewrite Forall_forall in Hrows.
  apply Hrows, nth_In. lia.
Qed.

Lemma shape_zeros (n m : nat) : shape n m (zeros n m).
Proof.
  unfold shape, zeros. split.
  - apply repeat_length.
  - apply Forall_forall. intros row Hin.
    apply repeat_spec in Hin. subst row. apply repeat_length.
Qed.

Lemma cell_zeros (n m r c : nat) : cell (zeros n m) r c = 0.
Proof.
  unfold cell, zeros.
  destruct (Nat.lt_ge_cases r n) as [Hr | Hr].
  - rewrite nth_repeat_lt by exact Hr.
    destruct (Nat.lt_ge_cases c m) as [Hc | Hc].
    + apply nth_repeat_lt; exact Hc.
    + apply nth_overflow. rewrite repeat_length. exact Hc.
  - rewrite (nth_overflow (repeat (repeat 0 m) n))
      by (rewrite repeat_length; exact Hr).
    destruct c; reflexivity.
Qed.

Lemma shape_mmap2 (f : R -> R -> R) (n m : nat) (A B : matrix) :
  shape n m A -> shape n m B -> shape n m (mmap2 f A B).
Proof.
  intros HA HB. pose proof HA as [HnA HrA]. pose proof HB as [HnB HrB].
  split.
  - unfold mmap2. rewrite length_map, length_combine. lia.
  - apply Forall_forall. intros row Hin.
    assert (Hlen : length (mmap2 f A B) = n).
    { unfold mmap2. rewrite length_map, length_combine. lia. }
    apply (In_nth _ _ []) in Hin. destruct Hin as (r & Hr & Hrow).
    rewrite nth_mmap2 in Hrow by lia. subst row.
    rewrite length_map2.
    + apply (shape_row n m); [exact HA | lia].
    + rewrite (shape_row n m A), (shape_row n m B); auto; lia.
Qed.

Lemma cell_mmap2 (f : R -> R -> R) (n m : nat) (A B : matrix) (r c : nat) :
  shape n m A -> shape n m B -> (r < n)%nat -> (c < m)%nat ->
  cell (mmap2 f A B) r c = f (cell A r c) (cell B r c).
Proof.
  intros HA HB Hr Hc. unfold cell.
  rewrite nth_mmap2 by (destruct HA, HB; lia).
  apply nth_map2.
  - rewrite (shape_row n m A), (shape_row n m B); auto.
  - rewrite (shape_row n m A); auto.
Qed.

Lemma shape_mmap (f : R -> R) (n m : nat) (A : matrix) :
  shape n m A -> shape n m (mmap f A).
Proof.
  intros [Hn Hrows]. split.
  - unfold mmap. rewrite length_map. exact Hn.
  - unfold mmap. apply Forall_map.
    eapply Forall_impl; [| exact Hrows].
    intros row Hrow. simpl. rewrite length_map. exact Hrow.
Qed.

Lemma cell_mmap (f : R -> R) (n m : nat) (A : matrix) (r c : nat) :
  shape n m A -> (r < n)%nat -> (c < m)%nat ->
  cell (mmap f A) r c = f (cell A r c).
Proof.
  intros HA Hr Hc. unfold cell, mmap.
  change (@nil R) with (map f []) at 1. rewrite map_nth.
  rewrite (nth_indep _ 0 (f 0)).
  - apply map_nth.
  - rewrite length_map, (shape_row n m); auto.
Qed.

Lemma shape_meshgrid_X (x y : list R) :
  shape (length y) (length x) (meshgrid_X x y).
Proof.
  unfold meshgrid_X. split.
  - apply length_map.
  - apply Forall_map, Forall_forall. intros; reflexivity.
Qed.

Lemma shape_meshgrid_Y (x y : list R) :
  shape (length y) (length x) (meshgrid_Y x y).
Proof.
  unfold meshgrid_Y. split.
  - apply length_map.
  - apply Forall_map, Forall_forall. intros; simpl. apply length_map.
Qed.

Lemma cell_meshgrid_X (x y : list R) (r c : nat) :
  (r < length y)%nat -> cell (meshgrid_X x y) r c = nth c x 0.
Proof.
  intros Hr. unfold cell, meshgrid_X.
  rewrite (nth_indep _ [] ((fun _ : R => x) 0)) by (rewrite length_map; exact Hr).
  rewrite (map_nth (fun _ : R => x) y 0). reflexivity.
Qed.

Lemma cell_meshgrid_Y (x y : list R) (r c : nat) :
  (c < length x)%nat -> cell (meshgrid_Y x y) r c = nth r y 0.
Proof.
  intros Hc. unfold cell, meshgrid_Y.
  destruct (Nat.lt_ge_cases r (length y)) as [Hr | Hr].
  - rewrite (nth_indep _ [] ((fun yv => map (fun _ : R => yv) x) 0))
      by (rewrite length_map; exact Hr).
    rewrite (map_nth (fun yv => map (fun _ : R => yv) x)).
    rewrite (nth_indep _ 0 ((fun _ : R => nth r y 0) 0))
      by (rewrite length_map; exact Hc).
    rewrite (map_nth (fun _ : R => nth r y 0) x 0). reflexivity.
  - rewrite (nth_overflow (map _ y)) by (rewrite length_map; exact Hr).
    rewrite (nth_overflow y) by exact Hr. destruct c; reflexivity.
Qed.

(** Two arrays of one shape with equal cells are equal. *)
Lemma matrix_ext (n m : nat) (A B : matrix) :
  shape n m A -> shape n m B ->
  (forall r c, (r < n)%nat -> (c < m)%nat -> cell A r c = cell B r c) ->
  A = B.
Proof.
  intros HA HB Hcells.
  apply (nth_ext _ _ [] []).
  - destruct HA, HB; lia.
  - intros r Hr. assert (Hr' : (r < n)%nat) by (destruct HA; lia).
    apply (nth_ext _ _ 0 0).
    + rewrite (shape_row n m A), (shape_row n m B); auto.
    + intros c Hc. rewrite (shape_row n m A) in Hc by auto.
      apply (Hcells r c); assumption.
Qed.

(** ** [linspace] *)

Lemma linspace_length (start stop : R) (num : nat) :
  length (linspace start stop num) = num.
Proof.
  destruct num as [| [| k]]; simpl; try reflexivity.
  rewrite length_app, length_map, length_seq. simpl. lia.
Qed.

Lemma nth_map_seq (f : nat -> R) (k i : nat) :
  (i < k)%nat -> nth i (map f (seq 0 k)) 0 = f i.
Proof.
  intros Hi.
  rewrite (nth_indep _ 0 (f 0%nat)) by (rewrite length_map, length_seq; exact Hi).
  rewrite map_nth, seq_nth by exact Hi. reflexivity.
Qed.

(** With at least two samples, entry [i] is [start + i * step], the step
    being [(stop - start) / (num - 1)]; the overwritten last entry agrees. *)
Lemma linspace_nth (start stop : R) (num i : nat) :
  (2 <= num)%nat -> (i < num)%nat ->
  nth i (linspace start stop num) 0 =
  INR i * ((stop - start) / INR (num - 1)) + start.
Proof.
  intros Hnum Hi. destruct num as [| [| k]]; try lia.
  replace (S (S k) - 1)%nat with (S k) by lia.
  unfold linspace.
  destruct (Nat.eq_dec i (S k)) as [-> | Hne].
  - rewrite app_nth2 by (rewrite length_map, length_seq; lia).
    rewrite length_map, length_seq, Nat.sub_diag. simpl nth.
    assert (INR (S k) <> 0) by (apply not_0_INR; lia).
    field. assumption.
  - rewrite app_nth1 by (rewrite length_map, length_seq; lia).
    apply (nth_map_seq (fun i => INR i * ((stop - start) / INR (S k)) + start)).
    lia.
Qed.

Lemma linspace_first (start stop : R) (num : nat) :
  (1 <= num)%nat -> nth 0 (linspace start stop num) 0 = start.
Proof.
  intros H. destruct num as [| [| k]]; try lia; simpl; [reflexivity | lra].
Qed.

Lemma linspace_last (start stop : R) (num : nat) :
  (2 <= num)%nat -> nth (num - 1) (linspace start stop num) 0 = stop.
Proof.
  intros H. destruct num as [| [| k]]; try lia.
  unfold linspace.
  rewrite app_nth2 by (rewrite length_map, length_seq; lia).
  rewrite length_map, length_seq.
  replace (S (S k) - 1 - S k)%nat with 0%nat by lia. reflexivity.
Qed.

(** Reading the samples from the far end mirrors them in the interval. *)
Lemma linspace_rev (start stop : R) (num : nat) :
  (2 <= num)%nat ->
  rev (linspace start stop num) =
  map (fun v => start + stop - v) (linspace start stop num).
Proof.
  intros Hnum. apply (nth_ext _ _ 0 0).
  - rewrite length_rev, length_map. reflexivity.
  - intros i Hi. rewrite length_rev, linspace_length in Hi.
    rewrite rev_nth by (rewrite linspace_length; exact Hi).
    rewrite linspace_length.
    rewrite (nth_indep (map _ _) 0 ((fun v => start + stop - v) 0))
      by (rewrite length_map, linspace_length; exact Hi).
    rewrite (map_nth (fun v => start + stop - v)).
    rewrite !linspace_nth by lia.
    replace (num - S i)%nat with (num - 1 - i)%nat by lia.
    rewrite minus_INR by lia.
    assert (INR (num - 1) <> 0) by (apply not_0_INR; lia).
    field. assumption.
Qed.

(** ** Sums *)

Lemma Rsum_app (u v : list R) : Rsum (u ++ v) = Rsum u + Rsum v.
Proof.
  induction u as [| a u IH]; simpl.
  - lra.
  - rewrite IH. lra.
Qed.

Lemma Rsum_perm (u v : list R) : Permutation u v -> Rsum u = Rsum v.
Proof.
  induction 1; simpl; lra.
Qed.

Lemma Rsum_rev (u : list R) : Rsum (rev u) = Rsum u.
Proof.
  apply Rsum_perm, Permutation_sym, Permutation_rev.
Qed.

Lemma Rsum_map_ext {S : Type} (f g : S -> R) (l : list S) :
  (forall s, In s l -> f s = g s) -> Rsum (map f l) = Rsum (map g l).
Proof.
  intros H. f_equal. apply map_ext_in. exact H.
Qed.

Lemma Rsum_map_scal {S : Type} (k : R) (f : S -> R) (l : list S) :
  Rsum (map (fun s => k * f s) l) = k * Rsum (map f l).
Proof.
  induction l as [| a l IH]; simpl.
  - lra.
  - rewrite IH. lra.
Qed.

Lemma Rsum_map_plus {S : Type} (f g : S -> R) (l : list S) :
  Rsum (map (fun s => f s + g s) l) = Rsum (map f l) + Rsum (map g l).
Proof.
  induction l as [| a l IH]; simpl.
  - lra.
  - rewrite IH. lra.
Qed.

Lemma Rsum_map_zero {S : Type} (l : list S) :
  Rsum (map (fun _ => 0) l) = 0.
Proof.
  induction l as [| a l IH]; simpl; lra.
Qed.

(** Exchange of the two summations of a double sum. *)
Lemma Rsum_swap {S T : Type} (a : S -> T -> R) (u : list S) (v : list T) :
  Rsum (map (fun s => Rsum (map (fun t => a s t) v)) u) =
  Rsum (map (fun t => Rsum (map (fun s => a s t) u)) v).
Proof.
  induction u as [| s u IH]; simpl.
  - symmetry. apply Rsum_map_zero.
  - rewrite IH. symmetry.
    apply (Rsum_map_plus (fun t => a s t)
             (fun t => Rsum (map (fun s => a s t) u))).
Qed.

Lemma Rsum_map_nonneg {S : Type} (f : S -> R) (l : list S) :
  (forall s, In s l -> 0 <= f s) -> 0 <= Rsum (map f l).
Proof.
  induction l as [| a l IH]; simpl; intros H.
  - lra.
  - assert (0 <= f a) by (apply H; auto).
    assert (0 <= Rsum (map f l)) by (apply IH; intros; apply H; auto).
    lra.
Qed.

Lemma Rsum_map_pos {S : Type} (f : S -> R) (l : list S) :
  l <> [] -> (forall s, In s l -> 0 < f s) -> 0 < Rsum (map f l).
Proof.
  intros Hne H. destruct l as [| a l]; [contradiction |].
  simpl. assert (0 < f a) by (apply H; simpl; auto).
  assert (0 <= Rsum (map f l)).
  { apply Rsum_map_nonneg. intros s Hs. apply Rlt_le, H. simpl; auto. }
  lra.
Qed.

(** A sum over the indices of a list is the sum over its entries. *)
Lemma map_seq_nth (f : R -> R) (l : list R) :
  map (fun i => f (nth i l 0)) (seq 0 (length l)) = map f l.
Proof.
  apply (nth_ext _ _ 0 0).
  - rewrite !length_map, length_seq. reflexivity.
  - intros i Hi. rewrite length_map, length_seq in Hi.
    rewrite (nth_map_seq (fun i => f (nth i l 0))) by exact Hi.
    rewrite (nth_indep (map f l) 0 (f 0)) by (rewrite length_map; exact Hi).
    rewrite map_nth. reflexivity.
Qed.

(** ** Accumulation loops *)

(** A loop whose body keeps the shape of the array and adds [h s] to cell
    [(r, c)] adds the sum of the [h s] to that cell. *)
Lemma fold_left_accumulates {S : Type}
  (g : matrix -> S -> matrix) (h : S -> R) (n m r c : nat) :
  (forall A s, shape n m A ->
     shape n m (g A s) /\ cell (g A s) r c = cell A r c + h s) ->
  forall (l : list S) (A : matrix), shape n m A ->
    shape n m (fold_left g l A) /\
    cell (fold_left g l A) r c = cell A r c + Rsum (map h l).
Proof.
  intros Hstep. induction l as [| s l IH]; intros A HA; simpl.
  - split; [exact HA | lra].
  - destruct (Hstep A s HA) as [Hsh Hcell].
    destruct (IH (g A s) Hsh) as [Hsh' Hcell'].
    split; [exact Hsh' |]. rewrite Hcell', Hcell. lra.
Qed.

(** The double loop shared by the NumPy variants: every pass adds the
    element-wise image of the receiver grid under [k i j]. *)
Lemma double_loop_cell
  (k : nat -> nat -> R -> R -> R) (X_r Y_r : matrix)
  (li lj : list nat) (n m r c : nat) (A : matrix) :
  shape n m X_r -> shape n m Y_r -> shape n m A ->
  (r < n)%nat -> (c < m)%nat ->
  let loop :=
    fold_left (fun result i =>
      fold_left (fun result j => madd result (mmap2 (k i j) X_r Y_r))
        lj result) li A in
  shape n m loop /\
  cell loop r c =
  cell A r c +
  Rsum (map (fun i =>
          Rsum (map (fun j => k i j (cell X_r r c) (cell Y_r r c)) lj)) li).
Proof.
  intros HX HY HA Hr Hc loop. subst loop.
  apply (fold_left_accumulates
           (fun result i =>
              fold_left (fun result j => madd result (mmap2 (k i j) X_r Y_r))
                lj result)
           (fun i => Rsum (map (fun j => k i j (cell X_r r c) (cell Y_r r c)) lj))
           n m r c); [| exact HA].
  intros B i HB.
  apply (fold_left_accumulates
           (fun result j => madd result (mmap2 (k i j) X_r Y_r))
           (fun j => k i j (cell X_r r c) (cell Y_r r c))
           n m r c); [| exact HB].
  intros C j HC. unfold madd. split.
  - apply shape_mmap2; [exact HC | apply shape_mmap2; assumption].
  - rewrite (cell_mmap2 Rplus n m) by
      (try assumption; apply shape_mmap2; assumption).
    rewrite (cell_mmap2 (k i j) n m) by assumption. reflexivity.
Qed.

(** ** Double sums *)

Lemma sum2_index (f : R -> R -> R) (us vs : list R) (n m : nat) :
  length us = n -> length vs = m ->
  Rsum (map (fun i =>
          Rsum (map (fun j => f (nth i us 0) (nth j vs 0)) (seq 0 m)))
          (seq 0 n)) = sum2 f us vs.
Proof.
  intros <- <-. unfold sum2.
  rewrite <- (map_seq_nth (fun u => Rsum (map (fun v => f u v) vs)) us).
  apply Rsum_map_ext. intros i _.
  rewrite <- (map_seq_nth (fun v => f (nth i us 0) v) vs). reflexivity.
Qed.

Lemma sum2_swap (f : R -> R -> R) (us vs : list R) :
  sum2 f us vs = sum2 (fun v u => f u v) vs us.
Proof.
  unfold sum2. apply (Rsum_swap f).
Qed.

Lemma sum2_ext (f g : R -> R -> R) (us vs : list R) :
  (forall u v, In u us -> In v vs -> f u v = g u v) ->
  sum2 f us vs = sum2 g us vs.
Proof.
  intros H. unfold sum2. apply Rsum_map_ext. intros u Hu.
  apply Rsum_map_ext. intros v Hv. apply H; assumption.
Qed.

Lemma sum2_scal (k : R) (f : R -> R -> R) (us vs : list R) :
  sum2 (fun u v => k * f u v) us vs = k * sum2 f us vs.
Proof.
  unfold sum2.
  rewrite <- (Rsum_map_scal k (fun u => Rsum (map (fun v => f u v) vs))).
  apply Rsum_map_ext. intros u _. apply Rsum_map_scal.
Qed.

Lemma sum2_map_l (f : R -> R -> R) (g : R -> R) (us vs : list R) :
  sum2 f (map g us) vs = sum2 (fun u v => f (g u) v) us vs.
Proof.
  unfold sum2. rewrite map_map. reflexivity.
Qed.

Lemma sum2_rev_l (f : R -> R -> R) (us vs : list R) :
  sum2 f (rev us) vs = sum2 f us vs.
Proof.
  unfold sum2. rewrite map_rev. apply Rsum_rev.
Qed.

Lemma sum2_nonneg (f : R -> R -> R) (us vs : list R) :
  (forall u v, 0 <= f u v) -> 0 <= sum2 f us vs.
Proof.
  intros H. unfold sum2. apply Rsum_map_nonneg. intros u _.
  apply Rsum_map_nonneg. intros v _. apply H.
Qed.

Lemma sum2_pos (f : R -> R -> R) (us vs : list R) :
  us <> [] -> vs <> [] -> (forall u v, 0 < f u v) -> 0 < sum2 f us vs.
Proof.
  intros Hu Hv H. unfold sum2. apply Rsum_map_pos; [exact Hu |].
  intros u _. apply Rsum_map_pos; [exact Hv |]. intros v _. apply H.
Qed.

(** ** The per-pair kernels *)

Lemma sq_sum_pos (dx dy L : R) : 0 < L -> 0 < dx ^ 2 + dy ^ 2 + L ^ 2.
Proof.
  intros HL. assert (0 <= dx ^ 2) by apply pow2_ge_0.
  assert (0 <= dy ^ 2) by apply pow2_ge_0.
  assert (0 < L ^ 2) by (apply pow_lt; exact HL). lra.
Qed.

Lemma sq_sum_ge (dx dy L : R) : L ^ 2 <= dx ^ 2 + dy ^ 2 + L ^ 2.
Proof.
  assert (0 <= dx ^ 2) by apply pow2_ge_0.
  assert (0 <= dy ^ 2) by apply pow2_ge_0. lra.
Qed.

(** Squaring the cosine removes the square root. *)
Lemma cos_sq (L d : R) : 0 < d -> (L / sqrt d) ^ 2 = L ^ 2 / d.
Proof.
  intros Hd. assert (Hs : sqrt d <> 0).
  { apply Rgt_not_eq, sqrt_lt_R0. exact Hd. }
  replace ((L / sqrt d) ^ 2) with (L ^ 2 / (sqrt d * sqrt d))
    by (field; exact Hs).
  rewrite sqrt_sqrt by lra. reflexivity.
Qed.

(** The kernel dividing by [L_sr ** 2] is the inverse square of the
    three-dimensional separation. *)
Lemma contribution_inverse_square (I_i L_sr x_r y_r x_s y_s : R) :
  0 < L_sr ->
  Main2.contribution I_i L_sr x_r y_r x_s y_s =
  I_i / ((x_r - x_s) ^ 2 + (y_r - y_s) ^ 2 + L_sr ^ 2).
Proof.
  intros HL. unfold Main2.contribution.
  pose proof (sq_sum_pos (x_r - x_s) (y_r - y_s) L_sr HL) as Hd.
  rewrite cos_sq by exact Hd. field. split; lra.
Qed.

Lemma ps_from_point_inverse_square (x y xs ys x_pos y_pos L_sr I_i : R) :
  0 < L_sr ->
  MainPy.ps_from_point x y xs ys x_pos y_pos L_sr I_i =
  I_i / ((xs + x_pos - x) ^ 2 + (ys + y_pos - y) ^ 2 + L_sr ^ 2).
Proof.
  intros HL. unfold MainPy.ps_from_point.
  pose proof (sq_sum_pos (xs + x_pos - x) (ys + y_pos - y) L_sr HL).
  rewrite cos_sq by assumption. field. split; lra.
Qed.

(** The kernel of [incupsulation.py] carries the squared cosine. *)
Lemma irradiance_closed_form (I_i L_sr x_r y_r x_s y_s : R) :
  0 < L_sr ->
  Incupsulation.irradiance I_i L_sr x_r y_r x_s y_s =
  I_i * L_sr ^ 2 / ((x_r - x_s) ^ 2 + (y_r - y_s) ^ 2 + L_sr ^ 2) ^ 2.
Proof.
  intros HL.
  unfold Incupsulation.irradiance, Incupsulation.cos_alpha,
    Incupsulation.distance_sq.
  pose proof (sq_sum_pos (x_r - x_s) (y_r - y_s) L_sr HL) as Hd.
  rewrite cos_sq by exact Hd. field. lra.
Qed.

Lemma contribution_scal (k I_i L_sr x_r y_r x_s y_s : R) :
  Main2.contribution (k * I_i) L_sr x_r y_r x_s y_s =
  k * Main2.contribution I_i L_sr x_r y_r x_s y_s.
Proof.
  unfold Main2.contribution, Rdiv. ring.
Qed.

Lemma irradiance_scal (k I_i L_sr x_r y_r x_s y_s : R) :
  Incupsulation.irradiance (k * I_i) L_sr x_r y_r x_s y_s =
  k * Incupsulation.irradiance I_i L_sr x_r y_r x_s y_s.
Proof.
  unfold Incupsulation.irradiance, Rdiv. ring.
Qed.

Lemma contribution_pos (I_i L_sr x_r y_r x_s y_s : R) :
  0 < I_i -> 0 < L_sr -> 0 < Main2.contribution I_i L_sr x_r y_r x_s y_s.
Proof.
  intros HI HL. rewrite contribution_inverse_square by exact HL.
  apply Rdiv_lt_0_compat; [exact HI | apply sq_sum_pos; exact HL].
Qed.

Lemma irradiance_pos (I_i L_sr x_r y_r x_s y_s : R) :
  0 < I_i -> 0 < L_sr ->
  0 < Incupsulation.irradiance I_i L_sr x_r y_r x_s y_s.
Proof.
  intros HI HL. rewrite irradiance_closed_form by exact HL.
  pose proof (sq_sum_pos (x_r - x_s) (y_r - y_s) L_sr HL) as Hd.
  apply Rdiv_lt_0_compat.
  - apply Rmult_lt_0_compat; [exact HI | apply pow_lt; exact HL].
  - apply pow_lt. exact Hd.
Qed.

(** The kernel is even in each offset and symmetric in the two axes. *)
Lemma irradiance_mirror_x (I_i L_sr x_r y_r x_s y_s c : R) :
  Incupsulation.irradiance I_i L_sr (c - x_r) y_r (c - x_s) y_s =
  Incupsulation.irradiance I_i L_sr x_r y_r x_s y_s.
Proof.
  unfold Incupsulation.irradiance, Incupsulation.cos_alpha,
    Incupsulation.distance_sq.
  replace ((c - x_r - (c - x_s)) ^ 2) with ((x_r - x_s) ^ 2) by ring.
  reflexivity.
Qed.

Lemma irradiance_transpose (I_i L_sr x_r y_r x_s y_s : R) :
  Incupsulation.irradiance I_i L_sr x_r y_r x_s y_s =
  Incupsulation.irradiance I_i L_sr y_r x_r y_s x_s.
Proof.
  unfold Incupsulation.irradiance, Incupsulation.cos_alpha,
    Incupsulation.distance_sq.
  replace ((y_r - y_s) ^ 2 + (x_r - x_s) ^ 2)
    with ((x_r - x_s) ^ 2 + (y_r - y_s) ^ 2) by ring.
  reflexivity.
Qed.

(** ** Cells of the computed fields *)

Lemma receiver_grid_shape (l_r h_r : R) (N : nat) :
  shape N N (meshgrid_X (linspace 0 l_r N) (linspace 0 h_r N)) /\
  shape N N (meshgrid_Y (linspace 0 l_r N) (linspace 0 h_r N)).
Proof.
  pose proof (shape_meshgrid_X (linspace 0 l_r N) (linspace 0 h_r N)) as HX.
  pose proof (shape_meshgrid_Y (linspace 0 l_r N) (linspace 0 h_r N)) as HY.
  rewrite !linspace_length in HX, HY. split; assumption.
Qed.


(** [main2.py]: a receiver cell holds the sum over the source grid of the
    per-pair contributions, divided by the calibration constant. *)
Lemma Main2_shape (p l_r h_r x y R_ l_s h_s : R) (N : nat) :
  shape N N (Main2.calculate_irradiance_vectorized p l_r h_r x y R_ l_s h_s N).
Proof.
  unfold Main2.calculate_irradiance_vectorized, Main2.accumulate.
  apply shape_mmap.
  set (X := meshgrid_X _ _). set (Y := meshgrid_Y _ _).
  destruct (receiver_grid_shape l_r h_r N) as [HX HY].
  fold X in HX. fold Y in HY.
  destruct N as [| N'].
  - simpl. apply shape_zeros.
  - apply (double_loop_cell
             (fun i j xr yr => Main2.contribution _ R_ xr yr _ _)
             X Y _ _ (S N') (S N') 0%nat 0%nat);
      auto using shape_zeros; lia.
Qed.

Lemma Main2_cell (p l_r h_r x y R_ l_s h_s : R) (N r c : nat) :
  (r < N)%nat -> (c < N)%nat ->
  cell (Main2.calculate_irradiance_vectorized p l_r h_r x y R_ l_s h_s N) r c =
  sum2 (fun xs ys =>
          Main2.contribution (p / (PI * INR N ^ 2)) R_
            (nth c (linspace 0 l_r N) 0) (nth r (linspace 0 h_r N) 0) xs ys)
    (map (fun v => v + x) (linspace 0 l_s N))
    (map (fun v => v + y) (linspace 0 h_s N)) / 0.005.
Proof.
  intros Hr Hc.
  unfold Main2.calculate_irradiance_vectorized, Main2.accumulate.
  set (X := meshgrid_X _ _). set (Y := meshgrid_Y _ _).
  destruct (receiver_grid_shape l_r h_r N) as [HX HY].
  fold X in HX. fold Y in HY.
  destruct (double_loop_cell
              (fun i j xr yr =>
                 Main2.contribution (p / (PI * INR N ^ 2)) R_ xr yr
                   (nth i (map (fun v => v + x) (linspace 0 l_s N)) 0)
                   (nth j (map (fun v => v + y) (linspace 0 h_s N)) 0))
              X Y (seq 0 N) (seq 0 N) N N r c (zeros N N)
              HX HY (shape_zeros N N) Hr Hc) as [Hsh Hcell].
  rewrite (cell_mmap _ N N) by assumption.
  f_equal. rewrite Hcell, cell_zeros, Rplus_0_l.
  unfold X, Y.
  rewrite cell_meshgrid_X by (rewrite linspace_length; exact Hr).
  rewrite cell_meshgrid_Y by (rewrite linspace_length; exact Hc).
  apply (sum2_index
           (fun xs ys =>
              Main2.contribution (p / (PI * INR N ^ 2)) R_
                (nth c (linspace 0 l_r N) 0) (nth r (linspace 0 h_r N) 0)
                xs ys));
    rewrite length_map; apply linspace_length.
Qed.

Lemma Interactive_shape (p l_r h_r x y R_ l_s h_s : R) (N : nat) :
  shape N N
    (InteractiveApp.calculate_irradiance_vectorized p l_r h_r x y R_ l_s h_s N).
Proof.
  unfold InteractiveApp.calculate_irradiance_vectorized,
    InteractiveApp.accumulate.
  apply shape_mmap.
  set (X := meshgrid_X _ _). set (Y := meshgrid_Y _ _).
  destruct (receiver_grid_shape l_r h_r N) as [HX HY].
  fold X in HX. fold Y in HY.
  destruct N as [| N'].
  - simpl. apply shape_zeros.
  - apply (double_loop_cell
             (fun i j xr yr => InteractiveApp.contribution _ R_ xr yr _ _)
             X Y _ _ (S N') (S N') 0%nat 0%nat);
      auto using shape_zeros; lia.
Qed.

(** [interactive_app.py]: the same terms, summed with the two source axes
    in the other order. *)
Lemma Interactive_cell (p l_r h_r x y R_ l_s h_s : R) (N r c : nat) :
  (r < N)%nat -> (c < N)%nat ->
  cell (InteractiveApp.calculate_irradiance_vectorized
          p l_r h_r x y R_ l_s h_s N) r c =
  sum2 (fun ys xs =>
          InteractiveApp.contribution (p / (PI * INR N ^ 2)) R_
            (nth c (linspace 0 l_r N) 0) (nth r (linspace 0 h_r N) 0) xs ys)
    (map (fun v => v + y) (linspace 0 h_s N))
    (map (fun v => v + x) (linspace 0 l_s N)) / 0.005.
Proof.
  intros Hr Hc.
  unfold InteractiveApp.calculate_irradiance_vectorized,
    InteractiveApp.accumulate.
  set (X := meshgrid_X _ _). set (Y := meshgrid_Y _ _).
  destruct (receiver_grid_shape l_r h_r N) as [HX HY].
  fold X in HX. fold Y in HY.
  destruct (double_loop_cell
              (fun i j xr yr =>
                 InteractiveApp.contribution (p / (PI * INR N ^ 2)) R_ xr yr
                   (nth j (map (fun v => v + x) (linspace 0 l_s N)) 0)
                   (nth i (map (fun v => v + y) (linspace 0 h_s N)) 0))
              X Y (seq 0 N) (seq 0 N) N N r c (zeros N N)
              HX HY (shape_zeros N N) Hr Hc) as [Hsh Hcell].
  rewrite (cell_mmap _ N N) by assumption.
  f_equal. rewrite Hcell, cell_zeros, Rplus_0_l.
  unfold X, Y.
  rewrite cell_meshgrid_X by (rewrite linspace_length; exact Hr).
  rewrite cell_meshgrid_Y by (rewrite linspace_length; exact Hc).
  apply (sum2_index
           (fun ys xs =>
              InteractiveApp.contribution (p / (PI * INR N ^ 2)) R_
                (nth c (linspace 0 l_r N) 0) (nth r (linspace 0 h_r N) 0)
                xs ys));
    rewrite length_map; apply linspace_length.
Qed.

(** [incupsulation.py]: the kernel on a receiver grid of [N] by [N] points
    and any two lists of source coordinates. *)
Lemma optimized_cell (x_r y_r xs ys : list R) (L_sr I_i : R) (N r c : nat) :
  length x_r = N -> length y_r = N -> (r < N)%nat -> (c < N)%nat ->
  let field :=
    Incupsulation.calculate_irradiance_optimized
      (meshgrid_X x_r y_r) (meshgrid_Y x_r y_r) xs ys L_sr I_i in
  shape N N field /\
  cell field r c =
  sum2 (fun u v =>
          Incupsulation.irradiance I_i L_sr (nth c x_r 0) (nth r y_r 0) u v)
    xs ys.
Proof.
  intros Hx Hy Hr Hc field. subst field.
  unfold Incupsulation.calculate_irradiance_optimized.
  assert (HX : shape N N (meshgrid_X x_r y_r)).
  { pose proof (shape_meshgrid_X x_r y_r) as H. rewrite Hx, Hy in H. exact H. }
  assert (HY : shape N N (meshgrid_Y x_r y_r)).
  { pose proof (shape_meshgrid_Y x_r y_r) as H. rewrite Hx, Hy in H. exact H. }
  replace (length (meshgrid_X x_r y_r)) with N by (destruct HX; congruence).
  destruct (double_loop_cell
              (fun i j xr yr =>
                 Incupsulation.irradiance I_i L_sr xr yr
                   (nth i xs 0) (nth j ys 0))
              (meshgrid_X x_r y_r) (meshgrid_Y x_r y_r)
              (seq 0 (length xs)) (seq 0 (length ys)) N N r c (zeros N N)
              HX HY (shape_zeros N N) Hr Hc) as [Hsh Hcell].
  split; [exact Hsh |].
  rewrite Hcell, cell_zeros, Rplus_0_l.
  rewrite cell_meshgrid_X by (rewrite Hy; exact Hr).
  rewrite cell_meshgrid_Y by (rewrite Hx; exact Hc).
  apply (sum2_index
           (fun u v =>
              Incupsulation.irradiance I_i L_sr (nth c x_r 0) (nth r y_r 0)
                u v)); reflexivity.
Qed.

Lemma optimized_shape (x_r y_r xs ys : list R) (L_sr I_i : R) (N : nat) :
  length x_r = N -> length y_r = N ->
  shape N N
    (Incupsulation.calculate_irradiance_optimized
       (meshgrid_X x_r y_r) (meshgrid_Y x_r y_r) xs ys L_sr I_i).
Proof.
  intros Hx Hy. destruct N as [| N'].
  - unfold Incupsulation.calculate_irradiance_optimized.
    apply length_zero_iff_nil in Hy. subst y_r. simpl.
    assert (Hin : forall (l : list nat) (A : matrix), A = [] ->
              fold_left (fun result j =>
                madd result (mmap2 (fun xr yr : R => 0) [] [])) l A = []).
    { induction l as [| a l IH]; intros A ->; simpl; [reflexivity |].
      apply IH. reflexivity. }
    assert (Hout : forall (li lj : list nat) (A : matrix), A = [] ->
              fold_left (fun result i =>
                fold_left (fun result j =>
                  madd result
                    (mmap2 (fun xr yr =>
                       Incupsulation.irradiance I_i L_sr xr yr
                         (nth i xs 0) (nth j ys 0)) [] []))
                  lj result) li A = []).
    { induction li as [| a li IH]; intros lj A ->; simpl; [reflexivity |].
      apply IH. clear. induction lj as [| b lj IH]; simpl; auto. }
    rewrite Hout by reflexivity. split; [reflexivity | constructor].
  - apply (optimized_cell x_r y_r xs ys L_sr I_i (S N') 0 0 Hx Hy); lia.
Qed.

Lemma accumulated_shape (p l_r h_r x y R_ l_s h_s : R) (N : nat) :
  shape N N (Incupsulation.accumulated_field p l_r h_r x y R_ l_s h_s N).
Proof.
  unfold Incupsulation.accumulated_field.
  apply optimized_shape; apply linspace_length.
Qed.

Lemma accumulated_cell (p l_r h_r x y R_ l_s h_s : R) (N r c : nat) :
  (r < N)%nat -> (c < N)%nat ->
  cell (Incupsulation.accumulated_field p l_r h_r x y R_ l_s h_s N) r c =
  sum2 (fun u v =>
          Incupsulation.irradiance (Incupsulation.I_i p l_s h_s x y N) R_
            (nth c (linspace 0 l_r N) 0) (nth r (linspace 0 h_r N) 0) u v)
    (Incupsulation.x_s_points l_s x N) (Incupsulation.y_s_points h_s y N).
Proof.
  intros Hr Hc. unfold Incupsulation.accumulated_field.
  apply (optimized_cell (linspace 0 l_r N) (linspace 0 h_r N) _ _ _ _ N r c);
    auto using linspace_length.
Qed.

Lemma extended_shape (p l_r h_r x y R_ l_s h_s : R) (N : nat) :
  shape N N
    (Incupsulation.calculate_irradiance_extended_model
       p l_r h_r x y R_ l_s h_s N).
Proof.
  unfold Incupsulation.calculate_irradiance_extended_model.
  destruct (Rlt_dec _ _).
  - apply shape_mmap, accumulated_shape.
  - apply accumulated_shape.
Qed.

Lemma extended_cell (p l_r h_r x y R_ l_s h_s : R) (N r c : nat) :
  (r < N)%nat -> (c < N)%nat ->
  cell (Incupsulation.calculate_irradiance_extended_model
          p l_r h_r x y R_ l_s h_s N) r c =
  if Rlt_dec R_ (py_max l_s h_s * 10)
  then cell (Incupsulation.accumulated_field p l_r h_r x y R_ l_s h_s N) r c
       * Incupsulation.size_correction R_ l_s h_s
  else cell (Incupsulation.accumulated_field p l_r h_r x y R_ l_s h_s N) r c.
Proof.
  intros Hr Hc. unfold Incupsulation.calculate_irradiance_extended_model.
  destruct (Rlt_dec R_ (py_max l_s h_s * 10)); [| reflexivity].
  rewrite (cell_mmap _ N N) by (try assumption; apply accumulated_shape).
  reflexivity.
Qed.

(** ** The per-pair contribution (C1, C10) *)

Lemma irradiance_is_spec (I_i L_sr x_r y_r x_s y_s : R) :
  Incupsulation.irradiance I_i L_sr x_r y_r x_s y_s =
  spec_contribution I_i L_sr x_r y_r x_s y_s.
Proof. reflexivity. Qed.

Lemma sqrt_2_sq : (1 / sqrt 2) ^ 2 = 1 / 2.
Proof.
  rewrite cos_sq by lra. lra.
Qed.

(** C1, at a pair the solvers meet: unit intensity, unit standoff, a
    receiver point one metre along x from the source sample.  The kernel of
    [incupsulation.py] adds the documented [I_i * cos²α / r²], which is 1/4
    there; the kernels of [main2.py], [interactive_app.py] and [main.py]
    divide by [L_sr ** 2] instead of the squared separation and add 1/2. *)
Theorem C1_contribution_divergence :
  spec_contribution 1 1 1 0 0 0 = 1 / 4 /\
  Incupsulation.irradiance 1 1 1 0 0 0 = 1 / 4 /\
  Main2.contribution 1 1 1 0 0 0 = 1 / 2 /\
  InteractiveApp.contribution 1 1 1 0 0 0 = 1 / 2 /\
  MainPy.ps_from_point 1 0 0 0 0 0 1 1 = 1 / 2.
Proof.
  assert (Hs : spec_contribution 1 1 1 0 0 0 = 1 / 4).
  { unfold spec_contribution.
    replace ((1 - 0) ^ 2 + (0 - 0) ^ 2 + 1 ^ 2) with 2 by ring.
    rewrite sqrt_2_sq. lra. }
  assert (Hm : Main2.contribution 1 1 1 0 0 0 = 1 / 2).
  { unfold Main2.contribution.
    replace ((1 - 0) ^ 2 + (0 - 0) ^ 2 + 1 ^ 2) with 2 by ring.
    rewrite sqrt_2_sq. lra. }
  repeat split.
  - exact Hs.
  - rewrite irradiance_is_spec. exact Hs.
  - exact Hm.
  - exact Hm.
  - unfold MainPy.ps_from_point.
    replace ((0 + 0 - 1) ^ 2 + (0 + 0 - 0) ^ 2 + 1 ^ 2) with 2 by ring.
    rewrite sqrt_2_sq. lra.
Qed.

(** C10.  In [main.py], [main2.py] and [interactive_app.py], for every
    positive standoff and all offsets, the per-pair contribution
    [I_i * (L_sr / sqrt(dx² + dy² + L_sr²))² / L_sr²] equals
    [I_i / (dx² + dy² + L_sr²)]: the inverse square of the separation, the
    cosine factors cancelled. *)
Theorem C10_inverse_square_kernel
  (I_i L_sr x_r y_r x_s y_s x_pos y_pos : R) :
  0 < L_sr ->
  Main2.contribution I_i L_sr x_r y_r x_s y_s =
    I_i / ((x_r - x_s) ^ 2 + (y_r - y_s) ^ 2 + L_sr ^ 2) /\
  InteractiveApp.contribution I_i L_sr x_r y_r x_s y_s =
    I_i / ((x_r - x_s) ^ 2 + (y_r - y_s) ^ 2 + L_sr ^ 2) /\
  MainPy.ps_from_point x_r y_r x_s y_s x_pos y_pos L_sr I_i =
    I_i / ((x_s + x_pos - x_r) ^ 2 + (y_s + y_pos - y_r) ^ 2 + L_sr ^ 2).
Proof.
  intros HL. repeat split.
  - apply contribution_inverse_square. exact HL.
  - apply contribution_inverse_square. exact HL.
  - apply ps_from_point_inverse_square. exact HL.
Qed.

Lemma C10_inverse_square_kernel_witness :
  0 < 2 /\
  Main2.contribution 3 2 1 0 0 0 = 3 / ((1 - 0) ^ 2 + (0 - 0) ^ 2 + 2 ^ 2).
Proof.
  split; [lra |].
  apply (C10_inverse_square_kernel 3 2 1 0 0 0 0 0). lra.
Defined.

(** ** The source loops of [main.py] *)

(** *** Rounding to 28 digits *)

Lemma round_half_even_IZR (z : Z) : Decimal.round_half_even (IZR z) = z.
Proof.
  unfold Decimal.round_half_even.
  assert (H : Int_part (IZR z) = z).
  { symmetry. apply Int_part_spec. lra. }
  rewrite H. destruct (Rlt_dec (IZR z - IZR z) (1 / 2)); [reflexivity | lra].
Qed.

Lemma round_half_even_near (v : R) (z : Z) :
  IZR z - 1 / 2 < v < IZR z + 1 / 2 -> Decimal.round_half_even v = z.
Proof.
  intros [Hlo Hhi]. unfold Decimal.round_half_even.
  destruct (base_Int_part v) as [H1 H2].
  assert (Hn : (Int_part v = z \/ Int_part v = z - 1)%Z).
  { assert (z - 2 < Int_part v)%Z by (apply lt_IZR; rewrite minus_IZR; lra).
    assert (Int_part v < z + 1)%Z by (apply lt_IZR; rewrite plus_IZR; lra).
    lia. }
  destruct Hn as [Hn | Hn]; rewrite Hn in *.
  - destruct (Rlt_dec (v - IZR z) (1 / 2)); [reflexivity | lra].
  - rewrite minus_IZR in *.
    destruct (Rlt_dec (v - (IZR z - 1)) (1 / 2)); [lra |].
    destruct (Rlt_dec (1 / 2) (v - (IZR z - 1))); [f_equal; lia | lra].
Qed.

Lemma ln_10_pos : 0 < ln 10.
Proof. rewrite <- ln_1. apply ln_increasing; lra. Qed.

Lemma powerRZ_10_exp (a : Z) : powerRZ 10 a = exp (IZR a * ln 10).
Proof.
  rewrite powerRZ_Rpower by lra. reflexivity.
Qed.

Lemma powerRZ_10_pos (a : Z) : 0 < powerRZ 10 a.
Proof. apply powerRZ_lt; lra. Qed.

Lemma powerRZ_10_le (a b : Z) : (a <= b)%Z -> powerRZ 10 a <= powerRZ 10 b.
Proof.
  intros H. rewrite !powerRZ_10_exp.
  pose proof ln_10_pos. apply IZR_le in H.
  destruct (Rle_lt_or_eq_dec _ _ H) as [Hlt | Heq].
  - left. apply exp_increasing. apply Rmult_lt_compat_r; assumption.
  - rewrite Heq. apply Rle_refl.
Qed.

Lemma powerRZ_10_lt_inv (a b : Z) : powerRZ 10 a < powerRZ 10 b -> (a < b)%Z.
Proof.
  intros H. destruct (Z_lt_le_dec a b) as [Hlt | Hge]; [exact Hlt |].
  apply powerRZ_10_le in Hge. lra.
Qed.

Lemma adjusted_spec (v : R) :
  v <> 0 ->
  powerRZ 10 (Decimal.adjusted v) <= Rabs v < powerRZ 10 (Decimal.adjusted v + 1).
Proof.
  intros Hv. unfold Decimal.adjusted.
  assert (Habs : 0 < Rabs v) by (apply Rabs_pos_lt; exact Hv).
  pose proof ln_10_pos as H10.
  destruct (base_Int_part (ln (Rabs v) / ln 10)) as [H1 H2].
  set (a := Int_part (ln (Rabs v) / ln 10)) in *.
  rewrite !powerRZ_10_exp, plus_IZR.
  rewrite <- (exp_ln (Rabs v)) at 1 2 by exact Habs.
  assert (Hq : ln (Rabs v) = ln (Rabs v) / ln 10 * ln 10) by (field; lra).
  split.
  - destruct (Rle_lt_or_eq_dec _ _ H1) as [Hlt | Heq].
    + left. apply exp_increasing. rewrite Hq at 1.
      apply Rmult_lt_compat_r; assumption.
    + right. f_equal. rewrite Heq. lra.
  - apply exp_increasing. rewrite Hq at 1.
    apply Rmult_lt_compat_r; [assumption | lra].
Qed.

Lemma adjusted_unique (v : R) (a : Z) :
  powerRZ 10 a <= Rabs v < powerRZ 10 (a + 1) -> Decimal.adjusted v = a.
Proof.
  intros [Hlo Hhi].
  assert (Hv : v <> 0).
  { intros ->. rewrite Rabs_R0 in Hlo. pose proof (powerRZ_10_pos a). lra. }
  destruct (adjusted_spec v Hv) as [Hlo' Hhi'].
  assert (Decimal.adjusted v < a + 1)%Z by (apply powerRZ_10_lt_inv; lra).
  assert (a < Decimal.adjusted v + 1)%Z by (apply powerRZ_10_lt_inv; lra).
  lia.
Qed.

(** Rounding a value of magnitude [10^a <= |v| < 10^(a+1)] whose scaled
    value is nearer to [z] than to any other integer. *)
Lemma round_near (v : R) (a z : Z) :
  powerRZ 10 a <= Rabs v < powerRZ 10 (a + 1) ->
  IZR z - 1 / 2 < v / powerRZ 10 (a - 27) < IZR z + 1 / 2 ->
  Decimal.round v = IZR z * powerRZ 10 (a - 27).
Proof.
  intros Hmag Hz. unfold Decimal.round.
  destruct (Req_dec_T v 0) as [-> | Hv].
  - rewrite Rabs_R0 in Hmag. pose proof (powerRZ_10_pos a). lra.
  - rewrite (adjusted_unique v a Hmag).
    rewrite (round_half_even_near _ z Hz). reflexivity.
Qed.

(** A decimal of at most 28 digits is not changed by the rounding. *)
Lemma round_representable (c e : Z) :
  (Z.abs c < 10 ^ 28)%Z ->
  Decimal.round (IZR c * powerRZ 10 e) = IZR c * powerRZ 10 e.
Proof.
  intros Hc. unfold Decimal.round.
  pose proof (powerRZ_10_pos e) as He.
  destruct (Req_dec_T (IZR c * powerRZ 10 e) 0) as [H0 | Hv].
  - symmetry. exact H0.
  - set (v := IZR c * powerRZ 10 e) in *.
    destruct (adjusted_spec v Hv) as [Hlo Hhi].
    set (a := Decimal.adjusted v) in *.
    assert (Hc0 : c <> 0%Z).
    { intros ->. apply Hv. unfold v. ring. }
    assert (Habs : Rabs v = IZR (Z.abs c) * powerRZ 10 e).
    { unfold v. rewrite Rabs_mult, (Rabs_pos_eq (powerRZ 10 e)) by lra.
      rewrite abs_IZR. reflexivity. }
    assert (Hae : (a - 27 <= e)%Z).
    { assert (a < e + 28)%Z; [| lia].
      apply powerRZ_10_lt_inv.
      apply Rle_lt_trans with (Rabs v); [exact Hlo |].
      rewrite Habs.
      replace (e + 28)%Z with (28 + e)%Z by lia.
      rewrite powerRZ_add by lra.
      apply Rmult_lt_compat_r; [exact He |].
      change (powerRZ 10 28) with (10 ^ 28).
      replace (10 ^ 28) with (IZR (10 ^ 28)). 
      - apply IZR_lt. exact Hc.
      - rewrite (pow_IZR 10 28). reflexivity. }
    set (k := (e - (a - 27))%Z).
    assert (Hk : (0 <= k)%Z) by (unfold k; lia).
    assert (Hscaled : v / powerRZ 10 (a - 27) = IZR (c * 10 ^ k)).
    { unfold v. replace e with (k + (a - 27))%Z at 1 by (unfold k; lia).
      rewrite powerRZ_add by lra.
      pose proof (powerRZ_10_pos (a - 27)).
      rewrite mult_IZR.
      replace (IZR (10 ^ k)) with (powerRZ 10 k).
      - field. lra.
      - rewrite <- (Z2Nat.id k Hk) at 1 2.
        rewrite <- pow_powerRZ, <- pow_IZR. reflexivity. }
    rewrite Hscaled, round_half_even_IZR.
    rewrite <- Hscaled. field.
    pose proof (powerRZ_10_pos (a - 27)). lra.
Qed.

(** *** The loops *)

Lemma ys_loop_values (task : R -> R) (h_s ystep_s : R) :
  forall (fuel : nat) (ys : R) (tasks : list R),
    MainPy.ys_loop fuel task h_s ystep_s ys tasks =
    option_map (fun vs => tasks ++ map task vs)
      (counter_values fuel h_s ystep_s ys).
Proof.
  induction fuel as [| fuel IH]; intros ys tasks; simpl;
    destruct (Rlt_dec ys h_s); simpl; try rewrite app_nil_r; try reflexivity.
  rewrite IH. destruct (counter_values fuel h_s ystep_s _); simpl;
    [| reflexivity].
  rewrite <- app_assoc. reflexivity.
Qed.

Lemma xs_loop_values (task : R -> R -> R) (l_s h_s xstep_s ystep_s : R)
  (yfuel : nat) (y_s : list R) :
  counter_values yfuel h_s ystep_s 0 = Some y_s ->
  forall (fuel : nat) (xs : R) (tasks : list R),
    MainPy.xs_loop fuel yfuel task l_s h_s xstep_s ystep_s xs tasks =
    option_map (fun x_s => tasks ++ flat_map (fun u => map (task u) y_s) x_s)
      (counter_values fuel l_s xstep_s xs).
Proof.
  intros Hy. induction fuel as [| fuel IH]; intros xs tasks; simpl;
    destruct (Rlt_dec xs l_s); simpl; try rewrite app_nil_r; try reflexivity.
  rewrite ys_loop_values, Hy. simpl. rewrite IH.
  destruct (counter_values fuel l_s xstep_s _); simpl; [| reflexivity].
  rewrite <- app_assoc. reflexivity.
Qed.

Lemma counter_values_nonempty (fuel : nat) (l step : R) (vs : list R) :
  0 < l -> counter_values fuel l step 0 = Some vs -> vs <> [].
Proof.
  intros Hl. destruct fuel; simpl; destruct (Rlt_dec 0 l); try lra;
    try discriminate.
  destruct (counter_values fuel l step _); simpl; intros H; inversion H.
  discriminate.
Qed.

Lemma counter_values_empty (fuel : nat) (l step : R) :
  l <= 0 -> counter_values fuel l step 0 = Some [].
Proof.
  intros Hl. destruct fuel; simpl; destruct (Rlt_dec 0 l); try lra;
    reflexivity.
Qed.

(** When the step [l / N] is a decimal [c * 10^e] and [N * c] has at most
    28 digits, no operation rounds: the quotient is the step and the
    counter takes the [N] values [i * l / N]. *)
Lemma counter_values_exact (c e : Z) (N fuel : nat) (l : R) :
  (0 < c)%Z -> (Z.of_nat N * c < 10 ^ 28)%Z -> (1 <= N)%nat ->
  l / INR N = IZR c * powerRZ 10 e -> (N <= fuel)%nat ->
  Decimal.div l (INR N) = l / INR N /\
  counter_values fuel l (l / INR N) 0 = Some (stepped_source l N).
Proof.
  intros Hc HNc HN Hstep Hfuel.
  assert (HNpos : 0 < INR N) by (apply lt_0_INR; lia).
  pose proof (powerRZ_10_pos e) as He.
  assert (Hcpos : 0 < IZR c) by (apply IZR_lt; exact Hc).
  assert (Hq : 0 < l / INR N)
    by (rewrite Hstep; apply Rmult_lt_0_compat; assumption).
  assert (Hl : l = INR N * (l / INR N)) by (field; lra).
  split.
  - unfold Decimal.div. rewrite Hstep. apply round_representable. nia.
  - unfold stepped_source.
    assert (Hgen : forall (k j fuel : nat),
               (j + k = N)%nat -> (k <= fuel)%nat ->
               counter_values fuel l (l / INR N) (INR j * (l / INR N)) =
               Some (map (fun i => INR i * (l / INR N)) (seq j k))).
    { induction k as [| k IH]; intros j fuel' Hjk Hf.
      - assert (j = N) by lia. subst j. rewrite <- Hl.
        destruct fuel'; simpl; destruct (Rlt_dec l l); try lra; reflexivity.
      - destruct fuel' as [| fuel']; [lia |]. simpl.
        destruct (Rlt_dec (INR j * (l / INR N)) l) as [_ | Hge].
        + assert (Hadd : Decimal.add (INR j * (l / INR N)) (l / INR N) =
                         INR (S j) * (l / INR N)).
          { unfold Decimal.add.
            replace (INR j * (l / INR N) + l / INR N)
              with (IZR (Z.of_nat (S j) * c) * powerRZ 10 e).
            - rewrite round_representable by nia.
              rewrite mult_IZR, <- INR_IZR_INZ, Hstep. ring.
            - rewrite mult_IZR, <- INR_IZR_INZ, S_INR, Hstep. ring. }
          rewrite Hadd, IH by lia. reflexivity.
        + exfalso. apply Hge. rewrite Hl at 2.
          apply Rmult_lt_compat_r; [exact Hq | apply lt_INR; lia]. }
    replace 0 with (INR 0 * (l / INR N)) at 1 by (simpl; ring).
    apply Hgen; lia.
Qed.

(** A step that is rounded down leaves the far end out of reach in
    [match] steps: a third of 1 is [0.3333333333333333333333333333], three
    steps end below 1, and the loop makes a fourth pass. *)
Lemma powerRZ_10_m28 : powerRZ 10 (-28) = / 10000000000000000000000000000.
Proof.
  change (powerRZ 10 (-28)) with (/ 10 ^ 28).
  f_equal. rewrite (pow_IZR 10 28). reflexivity.
Qed.

Lemma powerRZ_10_m27 : powerRZ 10 (-27) = / 1000000000000000000000000000.
Proof.
  change (powerRZ 10 (-27)) with (/ 10 ^ 27).
  f_equal. rewrite (pow_IZR 10 27). reflexivity.
Qed.

Lemma div_one_three : Decimal.div 1 (INR 3) = third.
Proof.
  unfold Decimal.div, third.
  replace (INR 3) with 3 by (simpl; lra).
  apply (round_near (1 / 3) (-1) 3333333333333333333333333333).
  - rewrite Rabs_pos_eq by lra.
    change (powerRZ 10 (-1 + 1)) with 1.
    change (powerRZ 10 (-1)) with (/ (10 * 1)). lra.
  - change (-1 - 27)%Z with (-28)%Z. rewrite powerRZ_10_m28. lra.
Qed.

Lemma counter_values_third :
  counter_values 4 1 (Decimal.div 1 (INR 3)) 0 =
  Some [0; third; 2 * third; 3 * third].
Proof.
  rewrite div_one_three.
  assert (H1 : Decimal.add 0 third = third).
  { unfold Decimal.add, third. rewrite Rplus_0_l.
    apply round_representable. vm_compute. reflexivity. }
  assert (H2 : Decimal.add third third = 2 * third).
  { unfold Decimal.add, third.
    replace (IZR 3333333333333333333333333333 * powerRZ 10 (-28) +
             IZR 3333333333333333333333333333 * powerRZ 10 (-28))
      with (IZR 6666666666666666666666666666 * powerRZ 10 (-28)) by lra.
    rewrite round_representable by (vm_compute; reflexivity). lra. }
  assert (H3 : Decimal.add (2 * third) third = 3 * third).
  { unfold Decimal.add, third.
    replace (2 * (IZR 3333333333333333333333333333 * powerRZ 10 (-28)) +
             IZR 3333333333333333333333333333 * powerRZ 10 (-28))
      with (IZR 9999999999999999999999999999 * powerRZ 10 (-28)) by lra.
    rewrite round_representable by (vm_compute; reflexivity). lra. }
  assert (H4 : Decimal.add (3 * third) third =
               IZR 1333333333333333333333333333 * powerRZ 10 (-27)).
  { unfold Decimal.add, third.
    apply (round_near _ 0 1333333333333333333333333333).
    - rewrite powerRZ_10_m28.
      change (powerRZ 10 (0 + 1)) with (10 * 1). change (powerRZ 10 0) with 1.
      rewrite Rabs_pos_eq; lra.
    - change (0 - 27)%Z with (-27)%Z.
      rewrite powerRZ_10_m28, powerRZ_10_m27. lra. }
  assert (Ht : 0 < third < 1 / 3).
  { unfold third. rewrite powerRZ_10_m28. lra. }
  assert (Ht' : 1 / 3 - / 10 ^ 20 < third).
  { unfold third. rewrite powerRZ_10_m28. lra. }
  cbn [counter_values].
  destruct (Rlt_dec 0 1); [| lra]. rewrite H1.
  destruct (Rlt_dec third 1); [| lra]. rewrite H2.
  destruct (Rlt_dec (2 * third) 1); [| lra]. rewrite H3.
  destruct (Rlt_dec (3 * third) 1); [| lra]. rewrite H4.
  destruct (Rlt_dec _ 1) as [Hlt | _]; [| reflexivity].
  exfalso. rewrite powerRZ_10_m27 in Hlt. lra.
Qed.

(** Halves of 1 are exact. *)
Lemma counter_values_half :
  Decimal.div 1 (INR 2) = 1 / INR 2 /\
  counter_values 2 1 (1 / INR 2) 0 = Some (stepped_source 1 2).
Proof.
  apply (counter_values_exact 5 (-1)); try lia. simpl. lra.
Qed.

(** [ps_for_target] returns the sum of the contributions of the source
    points its two counters visit. *)
Lemma ps_for_target_values (fuel : nat)
  (x y l_s h_s xstep_s ystep_s x_pos y_pos L_sr I_i : R) (x_s y_s : list R) :
  counter_values fuel l_s xstep_s 0 = Some x_s ->
  counter_values fuel h_s ystep_s 0 = Some y_s ->
  MainPy.ps_for_target fuel x y l_s h_s xstep_s ystep_s x_pos y_pos L_sr I_i =
  Some (py_sum
          (flat_map (fun xs =>
             map (fun ys =>
                    MainPy.ps_from_point x y xs ys x_pos y_pos L_sr I_i) y_s)
             x_s)).
Proof.
  intros Hx Hy. unfold MainPy.ps_for_target.
  rewrite (xs_loop_values _ l_s h_s xstep_s ystep_s fuel y_s Hy), Hx.
  reflexivity.
Qed.

(** [ps_for_all] returns an array as soon as the source loops end. *)
Lemma ps_for_all_total (N fuel : nat)
  (l_r h_r l_s h_s x_pos y_pos L_sr I_i : R) (x_s y_s : list R) :
  counter_values fuel l_s (Decimal.div l_s (INR N)) 0 = Some x_s ->
  counter_values fuel h_s (Decimal.div h_s (INR N)) 0 = Some y_s ->
  exists result,
    MainPy.ps_for_all fuel N l_r h_r l_s h_s x_pos y_pos L_sr I_i = Some result.
Proof.
  intros Hx Hy. unfold MainPy.ps_for_all.
  generalize (MainPy.ps_for_all_tasks N l_r h_r).
  generalize (repeat (repeat 0 N) N).
  intros A tasks. revert A.
  induction tasks as [| t tasks IH]; intros A; simpl.
  - exists A. reflexivity.
  - rewrite (ps_for_target_values _ _ _ _ _ _ _ _ _ _ _ x_s y_s Hx Hy).
    apply IH.
Qed.

(** ** The receiver grid (C5) *)

Lemma receiver_grid_in_solvers (p l_r h_r x y R_ l_s h_s : R) (N : nat) :
  Main2.calculate_irradiance_vectorized p l_r h_r x y R_ l_s h_s N =
    mmap (fun v => v / 0.005)
      (Main2.accumulate (p / (PI * INR N ^ 2)) R_
         (fst (receiver_grid l_r h_r N)) (snd (receiver_grid l_r h_r N))
         (map (fun v => v + x) (linspace 0 l_s N))
         (map (fun v => v + y) (linspace 0 h_s N)) N (zeros N N)) /\
  InteractiveApp.calculate_irradiance_vectorized p l_r h_r x y R_ l_s h_s N =
    mmap (fun v => v / 0.005)
      (InteractiveApp.accumulate (p / (PI * INR N ^ 2)) R_
         (fst (receiver_grid l_r h_r N)) (snd (receiver_grid l_r h_r N))
         (map (fun v => v + x) (linspace 0 l_s N))
         (map (fun v => v + y) (linspace 0 h_s N)) N (zeros N N)) /\
  Incupsulation.accumulated_field p l_r h_r x y R_ l_s h_s N =
    Incupsulation.calculate_irradiance_optimized
      (fst (receiver_grid l_r h_r N)) (snd (receiver_grid l_r h_r N))
      (Incupsulation.x_s_points l_s x N) (Incupsulation.y_s_points h_s y N)
      R_ (Incupsulation.I_i p l_s h_s x y N).
Proof. repeat split. Qed.

Lemma receiver_grid_cells (l_r h_r : R) (N i j : nat) :
  (2 <= N)%nat -> (i < N)%nat -> (j < N)%nat ->
  cell (fst (receiver_grid l_r h_r N)) j i = INR i * (l_r / INR (N - 1)) /\
  cell (snd (receiver_grid l_r h_r N)) j i = INR j * (h_r / INR (N - 1)).
Proof.
  intros HN Hi Hj. unfold receiver_grid. simpl fst. simpl snd.
  rewrite cell_meshgrid_X by (rewrite linspace_length; exact Hj).
  rewrite cell_meshgrid_Y by (rewrite linspace_length; exact Hi).
  rewrite !linspace_nth by assumption.
  split; unfold Rdiv; ring.
Qed.

(** The inner receiver loop of [main.py], entered at [y = yi * step] with
    [k] passes left before [yi] reaches [match]. *)
Lemma y_loop_spec (N : nat) (h_r x : R) (xi : nat) :
  0 < h_r -> (1 <= N)%nat ->
  forall (k yi : nat) (tasks : list MainPy.target_task),
    (yi + k = N)%nat ->
    MainPy.y_loop k N h_r (h_r / INR N) x xi (INR yi * (h_r / INR N)) yi tasks =
    tasks ++ map (fun yi => MainPy.mk_task x (INR yi * (h_r / INR N)) xi yi)
               (seq yi k).
Proof.
  intros Hh HN.
  assert (HNpos : 0 < INR N) by (apply lt_0_INR; lia).
  induction k as [| k IH]; intros yi tasks Hk; simpl.
  - rewrite app_nil_r. reflexivity.
  - destruct (Rlt_dec (INR yi * (h_r / INR N)) h_r) as [Hlt | Hge].
    + assert (Hb : (yi <? N)%nat = true) by (apply Nat.ltb_lt; lia).
      rewrite Hb.
      replace (INR yi * (h_r / INR N) + h_r / INR N)
        with (INR (yi + 1) * (h_r / INR N)) by (rewrite plus_INR; simpl; ring).
      rewrite IH by lia.
      rewrite <- app_assoc. simpl.
      replace (yi + 1)%nat with (S yi) by lia. reflexivity.
    + exfalso. apply Hge.
      assert (Hyi : INR yi < INR N) by (apply lt_INR; lia).
      apply (Rmult_lt_reg_r (INR N)); [exact HNpos |].
      replace (INR yi * (h_r / INR N) * INR N) with (INR yi * h_r)
        by (field; lra).
      rewrite (Rmult_comm h_r). apply Rmult_lt_compat_r; assumption.
Qed.

Lemma x_loop_spec (N : nat) (l_r h_r : R) :
  0 < l_r -> 0 < h_r -> (1 <= N)%nat ->
  forall (k xi : nat) (tasks : list MainPy.target_task),
    (xi + k = N)%nat ->
    MainPy.x_loop k N l_r h_r (l_r / INR N) (h_r / INR N)
      (INR xi * (l_r / INR N)) xi tasks =
    tasks ++
    flat_map (fun xi =>
      map (fun yi =>
             MainPy.mk_task (INR xi * (l_r / INR N))
               (INR yi * (h_r / INR N)) xi yi)
        (seq 0 N))
      (seq xi k).
Proof.
  intros Hl Hh HN.
  assert (HNpos : 0 < INR N) by (apply lt_0_INR; lia).
  induction k as [| k IH]; intros xi tasks Hk; simpl.
  - rewrite app_nil_r. reflexivity.
  - destruct (Rlt_dec (INR xi * (l_r / INR N)) l_r) as [Hlt | Hge].
    + assert (Hb : (xi <? N)%nat = true) by (apply Nat.ltb_lt; lia).
      rewrite Hb.
      replace (INR xi * (l_r / INR N) + l_r / INR N)
        with (INR (xi + 1) * (l_r / INR N)) by (rewrite plus_INR; simpl; ring).
      replace 0 with (INR 0 * (h_r / INR N)) at 1 by (simpl; ring).
      rewrite (y_loop_spec N h_r _ xi Hh HN N 0 tasks) by lia.
      rewrite IH by lia.
      rewrite <- app_assoc.
      replace (xi + 1)%nat with (S xi) by lia. reflexivity.
    + exfalso. apply Hge.
      assert (Hxi : INR xi < INR N) by (apply lt_INR; lia).
      apply (Rmult_lt_reg_r (INR N)); [exact HNpos |].
      replace (INR xi * (l_r / INR N) * INR N) with (INR xi * l_r)
        by (field; lra).
      rewrite (Rmult_comm l_r). apply Rmult_lt_compat_r; assumption.
Qed.

(** The task list of [ps_for_all] is the stepped grid. *)
Lemma ps_for_all_tasks_spec (N : nat) (l_r h_r : R) :
  0 < l_r -> 0 < h_r -> (1 <= N)%nat ->
  MainPy.ps_for_all_tasks N l_r h_r = stepped_grid l_r h_r N.
Proof.
  intros Hl Hh HN. unfold MainPy.ps_for_all_tasks, stepped_grid.
  replace 0 with (INR 0 * (l_r / INR N)) at 1 by (simpl; ring).
  rewrite (x_loop_spec N l_r h_r Hl Hh HN N 0 []) by lia.
  reflexivity.
Qed.

(** C5, as the code has it.  For [N >= 2] and positive receiver
    dimensions the three NumPy variants evaluate the field at
    [x_r[i] = i * l_r/(N-1)], [y_r[j] = j * h_r/(N-1)], both endpoints
    included; [main.py] visits the [N] by [N] points
    [x = i * l_r/N], [y = j * h_r/N] instead, the far edges left out. *)
Theorem C5_receiver_grids (l_r h_r : R) (N i j : nat) :
  (2 <= N)%nat -> 0 < l_r -> 0 < h_r -> (i < N)%nat -> (j < N)%nat ->
  (cell (fst (receiver_grid l_r h_r N)) j i = INR i * (l_r / INR (N - 1)) /\
   cell (snd (receiver_grid l_r h_r N)) j i = INR j * (h_r / INR (N - 1))) /\
  (nth 0 (linspace 0 l_r N) 0 = 0 /\ nth (N - 1) (linspace 0 l_r N) 0 = l_r /\
   nth 0 (linspace 0 h_r N) 0 = 0 /\ nth (N - 1) (linspace 0 h_r N) 0 = h_r) /\
  shape N N (fst (receiver_grid l_r h_r N)) /\
  shape N N (snd (receiver_grid l_r h_r N)) /\
  MainPy.ps_for_all_tasks N l_r h_r = stepped_grid l_r h_r N /\
  nth (i * N + j) (MainPy.ps_for_all_tasks N l_r h_r) (MainPy.mk_task 0 0 0 0) =
    MainPy.mk_task (INR i * (l_r / INR N)) (INR j * (h_r / INR N)) i j.
Proof.
  intros HN Hl Hh Hi Hj.
  split; [apply receiver_grid_cells; assumption |].
  split.
  { repeat split; try (apply linspace_first; lia); apply linspace_last; lia. }
  split; [apply receiver_grid_shape |].
  split; [apply receiver_grid_shape |].
  split; [apply ps_for_all_tasks_spec; assumption || lia |].
  rewrite ps_for_all_tasks_spec by (assumption || lia).
  unfold stepped_grid.
  assert (Hgen : forall (f : nat -> nat -> MainPy.target_task) (n a : nat),
            (i < n)%nat ->
            nth (i * N + j)
              (flat_map (fun xi => map (f xi) (seq 0 N)) (seq a n))
              (MainPy.mk_task 0 0 0 0) = f (a + i)%nat j).
  { intros f n. revert i Hi. induction n as [| n IH]; intros i Hi a Hin; [lia |].
    simpl. destruct i as [| i'].
    - rewrite app_nth1 by (rewrite length_map, length_seq; lia).
      simpl. rewrite (nth_indep _ _ (f a 0%nat))
        by (rewrite length_map, length_seq; lia).
      rewrite map_nth, seq_nth by lia. rewrite Nat.add_0_r. reflexivity.
    - rewrite app_nth2 by (rewrite length_map, length_seq; simpl; lia).
      rewrite length_map, length_seq.
      replace (S i' * N + j - N)%nat with (i' * N + j)%nat by (simpl; lia).
      rewrite IH by lia. f_equal. lia. }
  rewrite (Hgen (fun xi yi =>
             MainPy.mk_task (INR xi * (l_r / INR N))
               (INR yi * (h_r / INR N)) xi yi) N 0%nat Hi).
  reflexivity.
Qed.

Lemma C5_receiver_grids_witness :
  cell (fst (receiver_grid 1 1 2)) 0 1 = INR 1 * (1 / INR (2 - 1)) /\
  nth (1 * 2 + 0) (MainPy.ps_for_all_tasks 2 1 1) (MainPy.mk_task 0 0 0 0) =
    MainPy.mk_task (INR 1 * (1 / INR 2)) (INR 0 * (1 / INR 2)) 1 0.
Proof.
  assert (H2 : (2 <= 2)%nat) by lia.
  assert (H1 : (1 < 2)%nat) by lia.
  assert (H0 : (0 < 2)%nat) by lia.
  pose proof (C5_receiver_grids 1 1 2 1 0 H2 Rlt_0_1 Rlt_0_1 H1 H0) as H.
  split; [apply H | apply H].
Defined.

(** C5 as stated fails for [main.py]: on a unit receiver with [N = 2] its
    second column of receiver points lies at [x = 1/2], where the claimed
    grid has [1 * l_r / (N - 1) = 1]. *)
Lemma C5_counterexample :
  exists t, In t (MainPy.ps_for_all_tasks 2 1 1) /\
            MainPy.t_xi t = 1%nat /\
            MainPy.t_x t = 1 / 2 /\
            MainPy.t_x t <> INR (MainPy.t_xi t) * (1 / INR (2 - 1)).
Proof.
  exists (MainPy.mk_task (INR 1 * (1 / INR 2)) (INR 0 * (1 / INR 2)) 1 0).
  split.
  - rewrite ps_for_all_tasks_spec by (lra || lia).
    unfold stepped_grid. simpl. auto.
  - simpl. repeat split; lra.
Qed.

(** ** Adaptive source sampling (C7) *)

Lemma source_points_factor_bounds (z : Z) :
  (2 <= Incupsulation.source_points_factor z <= 10)%Z.
Proof.
  unfold Incupsulation.source_points_factor. lia.
Qed.

Lemma x_s_points_length (l_s x : R) (N : nat) :
  length (Incupsulation.x_s_points l_s x N) =
  Z.to_nat (Incupsulation.source_points_factor (Z.of_nat N)).
Proof.
  unfold Incupsulation.x_s_points. rewrite length_map. apply linspace_length.
Qed.

Lemma y_s_points_length (h_s y : R) (N : nat) :
  length (Incupsulation.y_s_points h_s y N) =
  Z.to_nat (Incupsulation.source_points_factor (Z.of_nat N)).
Proof.
  unfold Incupsulation.y_s_points. rewrite length_map. apply linspace_length.
Qed.

Lemma source_points_nonempty (l_s h_s x y : R) (N : nat) :
  Incupsulation.x_s_points l_s x N <> [] /\
  Incupsulation.y_s_points h_s y N <> [].
Proof.
  pose proof (source_points_factor_bounds (Z.of_nat N)) as Hb.
  split; intros H; apply (f_equal (@length R)) in H;
    rewrite ?x_s_points_length, ?y_s_points_length in H; simpl in H; lia.
Qed.

(** C7.  In the adaptive-sampling variant the source is sampled at
    [max(2, min(10, N // 10))] points per axis, a count between 2 and 10;
    the power is split evenly over the [M] = (that count) squared source
    points, [power_per_point = P / M], and the intensity handed to the
    kernel is [power_per_point / pi]. *)
Theorem C7_adaptive_sampling (p l_r h_r x y R_ l_s h_s : R) (N : nat) :
  let per_axis := Z.max 2 (Z.min 10 (Z.of_nat N / 10)) in
  let M := (Z.to_nat per_axis * Z.to_nat per_axis)%nat in
  Incupsulation.source_points_factor (Z.of_nat N) = per_axis /\
  (2 <= per_axis <= 10)%Z /\
  length (Incupsulation.x_s_points l_s x N) = Z.to_nat per_axis /\
  length (Incupsulation.y_s_points h_s y N) = Z.to_nat per_axis /\
  Incupsulation.num_source_points l_s h_s x y N = M /\
  Incupsulation.power_per_point p l_s h_s x y N = p / INR M /\
  Incupsulation.I_i p l_s h_s x y N =
    Incupsulation.power_per_point p l_s h_s x y N / PI /\
  Incupsulation.accumulated_field p l_r h_r x y R_ l_s h_s N =
    Incupsulation.calculate_irradiance_optimized
      (fst (receiver_grid l_r h_r N)) (snd (receiver_grid l_r h_r N))
      (Incupsulation.x_s_points l_s x N) (Incupsulation.y_s_points h_s y N)
      R_ (p / INR M / PI).
Proof.
  intros per_axis M.
  assert (HM : Incupsulation.num_source_points l_s h_s x y N = M).
  { unfold Incupsulation.num_source_points.
    rewrite x_s_points_length, y_s_points_length. reflexivity. }
  assert (HP : Incupsulation.power_per_point p l_s h_s x y N = p / INR M).
  { unfold Incupsulation.power_per_point. rewrite HM. reflexivity. }
  split; [reflexivity |].
  split; [apply source_points_factor_bounds |].
  split; [apply x_s_points_length |].
  split; [apply y_s_points_length |].
  split; [exact HM |].
  split; [exact HP |].
  split; [reflexivity |].
  rewrite <- HP. reflexivity.
Qed.

(** ** Small-distance correction (C6) *)

Lemma py_max_Rmax (a b : R) : py_max a b = Rmax a b.
Proof.
  unfold py_max, Rmax.
  destruct (Rlt_dec a b), (Rle_dec a b); lra.
Qed.

(** C6.  The field accumulated by the kernel is multiplied, cell by cell,
    by [1 + 0.1 * max(l_s, h_s) / L] exactly when
    [L < 10 * max(l_s, h_s)]; otherwise it is returned as accumulated.
    Every cell of the result is the sum of the kernel over the source
    samples, times that factor in the first case and as it is in the
    second. *)
Theorem C6_small_distance_correction (p l_r h_r x y R_ l_s h_s : R) (N : nat) :
  let accumulated := Incupsulation.accumulated_field p l_r h_r x y R_ l_s h_s N in
  let result :=
    Incupsulation.calculate_irradiance_extended_model p l_r h_r x y R_ l_s h_s N in
  let factor := 1 + 0.1 * (Rmax l_s h_s / R_) in
  (R_ < 10 * Rmax l_s h_s -> result = mmap (fun v => v * factor) accumulated) /\
  (10 * Rmax l_s h_s <= R_ -> result = accumulated) /\
  shape N N result /\
  forall r c : nat, (r < N)%nat -> (c < N)%nat ->
    let summed :=
      sum2 (fun u v =>
              Incupsulation.irradiance (Incupsulation.I_i p l_s h_s x y N) R_
                (nth c (linspace 0 l_r N) 0) (nth r (linspace 0 h_r N) 0) u v)
        (Incupsulation.x_s_points l_s x N) (Incupsulation.y_s_points h_s y N) in
    cell accumulated r c = summed /\
    (R_ < 10 * Rmax l_s h_s -> cell result r c = summed * factor) /\
    (10 * Rmax l_s h_s <= R_ -> cell result r c = summed).
Proof.
  intros accumulated result factor. subst accumulated result factor.
  split; [| split; [| split]].
  - intros H.
    unfold Incupsulation.calculate_irradiance_extended_model,
      Incupsulation.size_correction.
    rewrite py_max_Rmax.
    destruct (Rlt_dec R_ (Rmax l_s h_s * 10)) as [Hlt | Hge]; [| lra].
    replace 1.0 with 1 by lra. reflexivity.
  - intros H.
    unfold Incupsulation.calculate_irradiance_extended_model.
    rewrite py_max_Rmax.
    destruct (Rlt_dec R_ (Rmax l_s h_s * 10)) as [Hlt | Hge]; [lra |].
    reflexivity.
  - apply extended_shape.
  - intros r c Hr Hc summed. subst summed.
    rewrite extended_cell by assumption.
    rewrite accumulated_cell by assumption.
    unfold Incupsulation.size_correction. rewrite py_max_Rmax.
    split; [reflexivity |].
    destruct (Rlt_dec R_ (Rmax l_s h_s * 10)) as [Hlt | Hge]; split; intros H;
      try lra; reflexivity.
Qed.

Lemma C6_small_distance_correction_witness :
  (1 < 10 * Rmax 1 1 /\
   Incupsulation.calculate_irradiance_extended_model 1 1 1 0 0 1 1 1 2 =
   mmap (fun v => v * (1 + 0.1 * (Rmax 1 1 / 1)))
     (Incupsulation.accumulated_field 1 1 1 0 0 1 1 1 2) /\
   cell (Incupsulation.calculate_irradiance_extended_model 1 1 1 0 0 1 1 1 2)
     0 1 =
   sum2 (fun u v =>
           Incupsulation.irradiance (Incupsulation.I_i 1 1 1 0 0 2) 1
             (nth 1 (linspace 0 1 2) 0) (nth 0 (linspace 0 1 2) 0) u v)
     (Incupsulation.x_s_points 1 0 2) (Incupsulation.y_s_points 1 0 2)
   * (1 + 0.1 * (Rmax 1 1 / 1))) /\
  (10 * Rmax 1 1 <= 20 /\
   Incupsulation.calculate_irradiance_extended_model 1 1 1 0 0 20 1 1 2 =
   Incupsulation.accumulated_field 1 1 1 0 0 20 1 1 2 /\
   cell (Incupsulation.calculate_irradiance_extended_model 1 1 1 0 0 20 1 1 2)
     0 1 =
   sum2 (fun u v =>
           Incupsulation.irradiance (Incupsulation.I_i 1 1 1 0 0 2) 20
             (nth 1 (linspace 0 1 2) 0) (nth 0 (linspace 0 1 2) 0) u v)
     (Incupsulation.x_s_points 1 0 2) (Incupsulation.y_s_points 1 0 2)).
Proof.
  assert (H1 : 1 < 10 * Rmax 1 1)
    by (unfold Rmax; destruct (Rle_dec 1 1); lra).
  assert (H2 : 10 * Rmax 1 1 <= 20)
    by (unfold Rmax; destruct (Rle_dec 1 1); lra).
  assert (Hr : (0 < 2)%nat) by lia.
  assert (Hc : (1 < 2)%nat) by lia.
  pose proof (C6_small_distance_correction 1 1 1 0 0 1 1 1 2) as Ha.
  pose proof (C6_small_distance_correction 1 1 1 0 0 20 1 1 2) as Hb.
  cbv zeta in Ha, Hb.
  destruct Ha as (Ha1 & _ & _ & Hacell).
  destruct Hb as (_ & Hb2 & _ & Hbcell).
  split; (split; [assumption |]); split.
  - apply Ha1. exact H1.
  - apply (proj1 (proj2 (Hacell 0%nat 1%nat Hr Hc))). exact H1.
  - apply Hb2. exact H2.
  - apply (proj2 (proj2 (Hbcell 0%nat 1%nat Hr Hc))). exact H2.
Defined.

(** ** Linearity in the power (C8) *)

Lemma Main2_linear (k p l_r h_r x y R_ l_s h_s : R) (N : nat) :
  Main2.calculate_irradiance_vectorized (k * p) l_r h_r x y R_ l_s h_s N =
  mmap (fun v => k * v)
    (Main2.calculate_irradiance_vectorized p l_r h_r x y R_ l_s h_s N).
Proof.
  apply (matrix_ext N N).
  - apply Main2_shape.
  - apply shape_mmap, Main2_shape.
  - intros r c Hr Hc.
    rewrite (cell_mmap _ N N) by (try assumption; apply Main2_shape).
    rewrite !Main2_cell by assumption.
    replace (k * p / (PI * INR N ^ 2)) with (k * (p / (PI * INR N ^ 2)))
      by (unfold Rdiv; ring).
    rewrite (sum2_ext _
               (fun xs ys => k *
                  Main2.contribution (p / (PI * INR N ^ 2)) R_
                    (nth c (linspace 0 l_r N) 0) (nth r (linspace 0 h_r N) 0)
                    xs ys))
      by (intros; apply contribution_scal).
    rewrite sum2_scal. unfold Rdiv. apply Rmult_assoc.
Qed.

Lemma Interactive_linear (k p l_r h_r x y R_ l_s h_s : R) (N : nat) :
  InteractiveApp.calculate_irradiance_vectorized (k * p) l_r h_r x y R_ l_s h_s N =
  mmap (fun v => k * v)
    (InteractiveApp.calculate_irradiance_vectorized p l_r h_r x y R_ l_s h_s N).
Proof.
  apply (matrix_ext N N).
  - apply Interactive_shape.
  - apply shape_mmap, Interactive_shape.
  - intros r c Hr Hc.
    rewrite (cell_mmap _ N N) by (try assumption; apply Interactive_shape).
    rewrite !Interactive_cell by assumption.
    replace (k * p / (PI * INR N ^ 2)) with (k * (p / (PI * INR N ^ 2)))
      by (unfold Rdiv; ring).
    rewrite (sum2_ext _
               (fun ys xs => k *
                  InteractiveApp.contribution (p / (PI * INR N ^ 2)) R_
                    (nth c (linspace 0 l_r N) 0) (nth r (linspace 0 h_r N) 0)
                    xs ys))
      by (intros; apply contribution_scal).
    rewrite sum2_scal. unfold Rdiv. apply Rmult_assoc.
Qed.

Lemma I_i_scal (k p l_s h_s x y : R) (N : nat) :
  Incupsulation.I_i (k * p) l_s h_s x y N =
  k * Incupsulation.I_i p l_s h_s x y N.
Proof.
  unfold Incupsulation.I_i, Incupsulation.power_per_point, Rdiv. ring.
Qed.

Lemma accumulated_linear (k p l_r h_r x y R_ l_s h_s : R) (N : nat) :
  Incupsulation.accumulated_field (k * p) l_r h_r x y R_ l_s h_s N =
  mmap (fun v => k * v)
    (Incupsulation.accumulated_field p l_r h_r x y R_ l_s h_s N).
Proof.
  apply (matrix_ext N N).
  - apply accumulated_shape.
  - apply shape_mmap, accumulated_shape.
  - intros r c Hr Hc.
    rewrite (cell_mmap _ N N) by (try assumption; apply accumulated_shape).
    rewrite !accumulated_cell by assumption.
    rewrite I_i_scal.
    rewrite (sum2_ext _
               (fun u v => k *
                  Incupsulation.irradiance (Incupsulation.I_i p l_s h_s x y N)
                    R_ (nth c (linspace 0 l_r N) 0)
                    (nth r (linspace 0 h_r N) 0) u v))
      by (intros; apply irradiance_scal).
    apply sum2_scal.
Qed.

Lemma mmap_mmap (f g : R -> R) (A : matrix) :
  mmap f (mmap g A) = mmap (fun v => f (g v)) A.
Proof.
  unfold mmap. rewrite map_map. apply map_ext. intros row. apply map_map.
Qed.

Lemma mmap_ext (f g : R -> R) (A : matrix) :
  (forall v, f v = g v) -> mmap f A = mmap g A.
Proof.
  intros H. unfold mmap. apply map_ext. intros row. apply map_ext. exact H.
Qed.

Lemma extended_linear (k p l_r h_r x y R_ l_s h_s : R) (N : nat) :
  Incupsulation.calculate_irradiance_extended_model
    (k * p) l_r h_r x y R_ l_s h_s N =
  mmap (fun v => k * v)
    (Incupsulation.calculate_irradiance_extended_model
       p l_r h_r x y R_ l_s h_s N).
Proof.
  unfold Incupsulation.calculate_irradiance_extended_model.
  rewrite accumulated_linear.
  destruct (Rlt_dec R_ (py_max l_s h_s * 10)); [| reflexivity].
  rewrite !mmap_mmap. apply mmap_ext. intros v. ring.
Qed.

(** C8.  Doubling the power, everything else fixed, doubles every cell of
    the field returned by each NumPy variant. *)
Theorem C8_doubling_power (p l_r h_r x y R_ l_s h_s : R) (N : nat) :
  Main2.calculate_irradiance_vectorized (2 * p) l_r h_r x y R_ l_s h_s N =
    mmap (fun v => 2 * v)
      (Main2.calculate_irradiance_vectorized p l_r h_r x y R_ l_s h_s N) /\
  InteractiveApp.calculate_irradiance_vectorized (2 * p) l_r h_r x y R_ l_s h_s N =
    mmap (fun v => 2 * v)
      (InteractiveApp.calculate_irradiance_vectorized p l_r h_r x y R_ l_s h_s N) /\
  Incupsulation.calculate_irradiance_extended_model
      (2 * p) l_r h_r x y R_ l_s h_s N =
    mmap (fun v => 2 * v)
      (Incupsulation.calculate_irradiance_extended_model
         p l_r h_r x y R_ l_s h_s N) /\
  forall r c : nat, (r < N)%nat -> (c < N)%nat ->
    cell (Main2.calculate_irradiance_vectorized (2 * p) l_r h_r x y R_ l_s h_s N)
      r c =
    2 * cell (Main2.calculate_irradiance_vectorized p l_r h_r x y R_ l_s h_s N)
          r c /\
    cell (Incupsulation.calculate_irradiance_extended_model
            (2 * p) l_r h_r x y R_ l_s h_s N) r c =
    2 * cell (Incupsulation.calculate_irradiance_extended_model
                p l_r h_r x y R_ l_s h_s N) r c.
Proof.
  split; [apply Main2_linear |].
  split; [apply Interactive_linear |].
  split; [apply extended_linear |].
  intros r c Hr Hc. rewrite Main2_linear, extended_linear.
  rewrite !(cell_mmap _ N N) by
    (try assumption; apply Main2_shape || apply extended_shape).
  split; reflexivity.
Qed.

Lemma C8_doubling_power_witness :
  cell (Main2.calculate_irradiance_vectorized (2 * 50) 1 1 0 0 1 1 1 2) 0 1 =
  2 * cell (Main2.calculate_irradiance_vectorized 50 1 1 0 0 1 1 1 2) 0 1 /\
  cell (Incupsulation.calculate_irradiance_extended_model
          (2 * 50) 1 1 0 0 1 1 1 2) 0 1 =
  2 * cell (Incupsulation.calculate_irradiance_extended_model
              50 1 1 0 0 1 1 1 2) 0 1.
Proof.
  assert (H0 : (0 < 2)%nat) by lia.
  assert (H1 : (1 < 2)%nat) by lia.
  exact (proj2 (proj2 (proj2 (C8_doubling_power 50 1 1 0 0 1 1 1 2)))
           0%nat 1%nat H0 H1).
Defined.

(** ** Well-definedness, sign and shape of the field (C4) *)

Lemma linspace_nonempty (start stop : R) (N : nat) :
  (1 <= N)%nat -> forall (f : R -> R), map f (linspace start stop N) <> [].
Proof.
  intros HN f H. apply (f_equal (@length R)) in H.
  rewrite length_map, linspace_length in H. simpl in H. lia.
Qed.

Lemma Main2_cell_pos (p l_r h_r x y R_ l_s h_s : R) (N r c : nat) :
  0 < p -> 0 < R_ -> (r < N)%nat -> (c < N)%nat ->
  0 < cell (Main2.calculate_irradiance_vectorized p l_r h_r x y R_ l_s h_s N) r c.
Proof.
  intros Hp HL Hr Hc. rewrite Main2_cell by assumption.
  assert (HN : 0 < INR N) by (apply lt_0_INR; lia).
  assert (HI : 0 < p / (PI * INR N ^ 2)).
  { apply Rdiv_lt_0_compat; [exact Hp |].
    apply Rmult_lt_0_compat; [apply PI_RGT_0 | apply pow_lt; exact HN]. }
  apply Rdiv_lt_0_compat; [| lra].
  apply sum2_pos; try (apply linspace_nonempty; lia).
  intros u v. apply contribution_pos; assumption.
Qed.

Lemma I_i_pos (p l_s h_s x y : R) (N : nat) :
  0 < p -> 0 < Incupsulation.I_i p l_s h_s x y N.
Proof.
  intros Hp. unfold Incupsulation.I_i, Incupsulation.power_per_point,
               Incupsulation.num_source_points.
  rewrite x_s_points_length, y_s_points_length.
  pose proof (source_points_factor_bounds (Z.of_nat N)) as Hb.
  apply Rdiv_lt_0_compat; [| apply PI_RGT_0].
  apply Rdiv_lt_0_compat; [exact Hp |].
  apply lt_0_INR. nia.
Qed.

Lemma size_correction_pos (R_ l_s h_s : R) :
  0 < R_ -> R_ < py_max l_s h_s * 10 ->
  1 < Incupsulation.size_correction R_ l_s h_s.
Proof.
  intros HL Hlt. unfold Incupsulation.size_correction.
  assert (Hm : 0 < py_max l_s h_s) by lra.
  assert (0 < py_max l_s h_s / R_) by (apply Rdiv_lt_0_compat; assumption).
  lra.
Qed.

Lemma accumulated_cell_pos (p l_r h_r x y R_ l_s h_s : R) (N r c : nat) :
  0 < p -> 0 < R_ -> (r < N)%nat -> (c < N)%nat ->
  0 < cell (Incupsulation.accumulated_field p l_r h_r x y R_ l_s h_s N) r c.
Proof.
  intros Hp HL Hr Hc. rewrite accumulated_cell by assumption.
  destruct (source_points_nonempty l_s h_s x y N) as [Hx Hy].
  apply sum2_pos; try assumption.
  intros u v. apply irradiance_pos; [apply I_i_pos; exact Hp | exact HL].
Qed.

Lemma extended_cell_pos (p l_r h_r x y R_ l_s h_s : R) (N r c : nat) :
  0 < p -> 0 < R_ -> (r < N)%nat -> (c < N)%nat ->
  0 < cell (Incupsulation.calculate_irradiance_extended_model
              p l_r h_r x y R_ l_s h_s N) r c.
Proof.
  intros Hp HL Hr Hc. rewrite extended_cell by assumption.
  pose proof (accumulated_cell_pos p l_r h_r x y R_ l_s h_s N r c Hp HL Hr Hc).
  destruct (Rlt_dec R_ (py_max l_s h_s * 10)) as [Hlt | _]; [| assumption].
  pose proof (size_correction_pos R_ l_s h_s HL Hlt).
  apply Rmult_lt_0_compat; lra.
Qed.

Lemma Main2_cell_zero_power (l_r h_r x y R_ l_s h_s : R) (N r c : nat) :
  (r < N)%nat -> (c < N)%nat ->
  cell (Main2.calculate_irradiance_vectorized 0 l_r h_r x y R_ l_s h_s N) r c = 0.
Proof.
  intros Hr Hc. replace 0 with (0 * 0) at 1 by ring.
  rewrite Main2_linear.
  rewrite (cell_mmap _ N N) by (try assumption; apply Main2_shape). ring.
Qed.

Lemma extended_cell_zero_power (l_r h_r x y R_ l_s h_s : R) (N r c : nat) :
  (r < N)%nat -> (c < N)%nat ->
  cell (Incupsulation.calculate_irradiance_extended_model
          0 l_r h_r x y R_ l_s h_s N) r c = 0.
Proof.
  intros Hr Hc. replace 0 with (0 * 0) at 1 by ring.
  rewrite extended_linear.
  rewrite (cell_mmap _ N N) by (try assumption; apply extended_shape). ring.
Qed.

(** C4, in exact arithmetic.  For a positive standoff and a non-negative
    power the solver returns an [N] by [N] array; every divisor of the
    computation is non-zero, the squared separation being at least [L²]
    and so positive; every cell is a non-negative real, and positive as
    soon as [P > 0], so that an all-zero field only comes from [P = 0].
    The cells being real numbers, this is the field the floats of the
    solver approximate while no intermediate leaves their range. *)
Theorem C4_field_well_defined (p l_r h_r x y R_ l_s h_s : R) (N : nat) :
  0 <= p -> 0 < R_ -> (1 <= N)%nat ->
  let vectorized :=
    Main2.calculate_irradiance_vectorized p l_r h_r x y R_ l_s h_s N in
  let extended :=
    Incupsulation.calculate_irradiance_extended_model p l_r h_r x y R_ l_s h_s N in
  (shape N N vectorized /\ shape N N extended) /\
  (forall x_r y_r x_s y_s : R,
     R_ ^ 2 <= Incupsulation.distance_sq R_ x_r y_r x_s y_s /\
     0 < R_ ^ 2 /\
     0 < Incupsulation.distance_sq R_ x_r y_r x_s y_s /\
     0 < sqrt (Incupsulation.distance_sq R_ x_r y_r x_s y_s)) /\
  (PI * INR N ^ 2 <> 0 /\
   INR (Incupsulation.num_source_points l_s h_s x y N) <> 0 /\ PI <> 0) /\
  (forall r c : nat, (r < N)%nat -> (c < N)%nat ->
     0 <= cell vectorized r c /\ 0 <= cell extended r c) /\
  (0 < p -> forall r c : nat, (r < N)%nat -> (c < N)%nat ->
     0 < cell vectorized r c /\ 0 < cell extended r c) /\
  ((forall r c : nat, (r < N)%nat -> (c < N)%nat -> cell vectorized r c = 0) ->
   p = 0) /\
  ((forall r c : nat, (r < N)%nat -> (c < N)%nat -> cell extended r c = 0) ->
   p = 0).
Proof.
  intros Hp HL HN vectorized extended. subst vectorized extended.
  split; [split; [apply Main2_shape | apply extended_shape] |].
  split.
  { intros x_r y_r x_s y_s. unfold Incupsulation.distance_sq.
    pose proof (sq_sum_pos (x_r - x_s) (y_r - y_s) R_ HL).
    repeat split.
    - apply sq_sum_ge.
    - apply pow_lt; exact HL.
    - assumption.
    - apply sqrt_lt_R0; assumption. }
  split.
  { pose proof PI_RGT_0.
    assert (0 < INR N) by (apply lt_0_INR; lia).
    assert (0 < INR N ^ 2) by (apply pow_lt; assumption).
    repeat split.
    - apply Rgt_not_eq, Rmult_lt_0_compat; assumption.
    - apply not_0_INR. unfold Incupsulation.num_source_points.
      rewrite x_s_points_length, y_s_points_length.
      pose proof (source_points_factor_bounds (Z.of_nat N)). nia.
    - lra. }
  assert (Hpos : 0 < p -> forall r c : nat, (r < N)%nat -> (c < N)%nat ->
            0 < cell (Main2.calculate_irradiance_vectorized
                        p l_r h_r x y R_ l_s h_s N) r c /\
            0 < cell (Incupsulation.calculate_irradiance_extended_model
                        p l_r h_r x y R_ l_s h_s N) r c).
  { intros Hp' r c Hr Hc. split.
    - apply Main2_cell_pos; assumption.
    - apply extended_cell_pos; assumption. }
  split.
  { intros r c Hr Hc. destruct Hp as [Hp | <-].
    - destruct (Hpos Hp r c Hr Hc). split; lra.
    - rewrite Main2_cell_zero_power, extended_cell_zero_power by assumption.
      split; lra. }
  split; [exact Hpos |].
  split; intros Hzero; destruct Hp as [Hp | Hp]; try (symmetry; exact Hp);
    exfalso; destruct (Hpos Hp 0%nat 0%nat) as [H1 H2]; try lia;
    rewrite Hzero in * by lia; lra.
Qed.

Lemma C4_field_well_defined_witness :
  shape 2 2 (Main2.calculate_irradiance_vectorized 50 1 1 0 0 1 1 1 2) /\
  0 < cell (Main2.calculate_irradiance_vectorized 50 1 1 0 0 1 1 1 2) 0 0 /\
  0 < cell (Incupsulation.calculate_irradiance_extended_model
              50 1 1 0 0 1 1 1 2) 0 0.
Proof.
  assert (Hp : 0 <= 50) by lra.
  assert (Hp' : 0 < 50) by lra.
  assert (HN : (1 <= 2)%nat) by lia.
  assert (H0 : (0 < 2)%nat) by lia.
  pose proof (C4_field_well_defined 50 1 1 0 0 1 1 1 2 Hp Rlt_0_1 HN) as H.
  cbv zeta in H.
  destruct H as [[Hs _] [_ [_ [_ [Hpos _]]]]].
  split; [exact Hs |]. exact (Hpos Hp' 0%nat 0%nat H0 H0).
Defined.

(** C4 as stated fails in the binary64 arithmetic the solver runs in.
    With the positive standoff [1e-200] (unit power, unit squares, two
    samples per axis) [L_sr**2] underflows to the float zero, so that the
    divisor of line 36 is zero, the squared separation of a receiver point
    from the source point above it is zero as well, and the cell returned
    is [nan]: neither finite nor non-negative.  With the power [1e308] and
    the standoff [1e-3] no divisor is zero and the cell overflows to
    [inf]. *)
Lemma C4_counterexample :
  let L := Main2Float.tiny_standoff in
  let field :=
    Main2Float.calculate_irradiance_vectorized 1 1 1 0 0 L 1 1 2 in
  let field' :=
    Main2Float.calculate_irradiance_vectorized
      Main2Float.huge_power 1 1 0 0 Main2Float.millimetre 1 1 2 in
  (PrimFloat.ltb 0 L = true /\
   PrimFloat.eqb (Main2Float.sq L) 0 = true /\
   PrimFloat.eqb (Main2Float.sq 0 + Main2Float.sq 0 + Main2Float.sq L) 0
     = true /\
   Main2Float.is_finite (Main2Float.fcell field 0 0) = false /\
   PrimFloat.leb 0 (Main2Float.fcell field 0 0) = false) /\
  (PrimFloat.ltb 0 Main2Float.millimetre = true /\
   PrimFloat.ltb 0 (Main2Float.sq Main2Float.millimetre) = true /\
   Main2Float.is_finite (Main2Float.fcell field' 0 0) = false).
Proof.
  vm_compute. repeat split.
Qed.

(** ** Agreement of the variants (C2) *)

(** C2, as far as it holds.  On every common input the loop of [main2.py]
    and the loop of [interactive_app.py] build the same field, cell for
    cell: they add the same contributions with the two source axes
    traversed in the other order. *)
Theorem C2_vectorized_variants_agree (p l_r h_r x y R_ l_s h_s : R) (N : nat) :
  Main2.calculate_irradiance_vectorized p l_r h_r x y R_ l_s h_s N =
  InteractiveApp.calculate_irradiance_vectorized p l_r h_r x y R_ l_s h_s N.
Proof.
  apply (matrix_ext N N).
  - apply Main2_shape.
  - apply Interactive_shape.
  - intros r c Hr Hc.
    rewrite Main2_cell, Interactive_cell by assumption.
    f_equal.
    apply (sum2_swap
             (fun xs ys =>
                Main2.contribution (p / (PI * INR N ^ 2)) R_
                  (nth c (linspace 0 l_r N) 0) (nth r (linspace 0 h_r N) 0)
                  xs ys)).
Qed.

Lemma C2_main2_cell_value :
  cell (Main2.calculate_irradiance_vectorized 1 1 1 0 0 1 1 1 2) 0 0 =
  350 / (3 * PI).
Proof.
  rewrite Main2_cell by lia.
  unfold sum2. simpl.
  rewrite !contribution_inverse_square by lra.
  replace 0.005 with (1 / 200) by lra.
  pose proof PI_RGT_0. field. lra.
Qed.

Lemma C2_extended_cell_value :
  cell (Incupsulation.calculate_irradiance_extended_model 1 1 1 0 0 1 1 1 2) 0 0 =
  22 / (45 * PI).
Proof.
  rewrite extended_cell, accumulated_cell by lia.
  assert (HI : Incupsulation.I_i 1 1 1 0 0 2 = 1 / 4 / PI).
  { unfold Incupsulation.I_i, Incupsulation.power_per_point,
      Incupsulation.num_source_points.
    rewrite x_s_points_length, y_s_points_length. simpl. f_equal. lra. }
  rewrite HI.
  unfold Incupsulation.x_s_points, Incupsulation.y_s_points, sum2,
    Incupsulation.size_correction, py_max.
  simpl.
  rewrite !irradiance_closed_form by lra.
  pose proof PI_RGT_0.
  destruct (Rlt_dec 1 1); [lra |].
  destruct (Rlt_dec 1 (1 * 10)); [| lra].
  replace 1.0 with 1 by lra. replace 0.1 with (1 / 10) by lra.
  field. lra.
Qed.

(** On the same input the first cell of the array of [main.py] is
    [490 / (3 pi)]: its source and receiver grids are stepped by [l / N]. *)
Lemma main_py_cell_value :
  exists result_array,
    MainPy.main 2 1 1 1 0 0 1 1 1 2 = Some result_array /\
    cell result_array 0 0 = 490 / (3 * PI).
Proof.
  destruct counter_values_half as [Hstep Hvalues].
  unfold MainPy.main, MainPy.ps_for_all.
  rewrite ps_for_all_tasks_spec by (lra || lia).
  unfold stepped_grid. cbn [seq flat_map map app fold_left
                              MainPy.t_x MainPy.t_y MainPy.t_xi MainPy.t_yi].
  rewrite Hstep.
  rewrite !(ps_for_target_values 2 _ _ 1 1 _ _ _ _ _ _
              (stepped_source 1 2) (stepped_source 1 2) Hvalues Hvalues).
  eexists. split; [reflexivity |].
  unfold cell, py_sum, stepped_source. simpl.
  rewrite !ps_from_point_inverse_square by lra.
  replace 0.005 with (1 / 200) by lra.
  pose proof PI_RGT_0. field. lra.
Qed.

(** C2 as stated fails: with unit power, standoff and dimensions, the
    source placed at the origin and [N = 2], the first cell of the field
    of [main2.py] is [350 / (3 pi)] and that of [incupsulation.py] is
    [22 / (45 pi)]. *)
Lemma C2_counterexample :
  Main2.calculate_irradiance_vectorized 1 1 1 0 0 1 1 1 2 <>
  Incupsulation.calculate_irradiance_extended_model 1 1 1 0 0 1 1 1 2.
Proof.
  intros Heq. apply (f_equal (fun A => cell A 0 0)) in Heq.
  rewrite C2_main2_cell_value, C2_extended_cell_value in Heq.
  pose proof PI_RGT_0 as Hpi.
  assert (H : 350 / (3 * PI) * (45 * PI) = 22 / (45 * PI) * (45 * PI))
    by (rewrite Heq; reflexivity).
  field_simplify in H; lra.
Qed.

(** ** Rotation symmetry (C9) *)

(** The source samples of the centred variant are mirrored in the centre. *)
Lemma source_points_mirror (s c : R) (k : nat) :
  (2 <= k)%nat ->
  rev (map (fun v => v + c) (linspace (- s / 2) (s / 2) k)) =
  map (fun u => 2 * c - u) (map (fun v => v + c) (linspace (- s / 2) (s / 2) k)).
Proof.
  intros Hk. rewrite <- map_rev, linspace_rev by exact Hk.
  rewrite !map_map. apply map_ext. intros v. field.
Qed.

Lemma linspace_mirror_nth (l : R) (N i : nat) :
  (2 <= N)%nat -> (i < N)%nat ->
  nth (N - 1 - i) (linspace 0 l N) 0 = l - nth i (linspace 0 l N) 0.
Proof.
  intros HN Hi. rewrite !linspace_nth by lia.
  rewrite minus_INR by lia.
  assert (INR (N - 1) <> 0) by (apply not_0_INR; lia).
  field. assumption.
Qed.

Lemma accumulated_rotation (p l s R_ : R) (N i j : nat) :
  (i < N)%nat -> (j < N)%nat ->
  cell (Incupsulation.accumulated_field p l l (l / 2) (l / 2) R_ s s N) i j =
  cell (Incupsulation.accumulated_field p l l (l / 2) (l / 2) R_ s s N)
    j (N - 1 - i).
Proof.
  intros Hi Hj.
  destruct (Nat.eq_dec N 1) as [-> | HN1].
  { replace i with 0%nat by lia. replace j with 0%nat by lia. reflexivity. }
  assert (HN : (2 <= N)%nat) by lia.
  rewrite !accumulated_cell by lia.
  rewrite linspace_mirror_nth by assumption.
  unfold Incupsulation.x_s_points, Incupsulation.y_s_points.
  set (I := Incupsulation.I_i p s s (l / 2) (l / 2) N).
  set (g := linspace 0 l N).
  set (k := Z.to_nat (Incupsulation.source_points_factor (Z.of_nat N))).
  set (SP := map (fun v => v + l / 2) (linspace (- s / 2) (s / 2) k)).
  assert (Hk : (2 <= k)%nat).
  { pose proof (source_points_factor_bounds (Z.of_nat N)). unfold k. lia. }
  symmetry.
  rewrite <- (sum2_rev_l _ SP SP).
  unfold SP at 1. rewrite source_points_mirror by exact Hk. fold SP.
  rewrite sum2_map_l.
  rewrite (sum2_ext _
             (fun u v => Incupsulation.irradiance I R_ (nth j g 0) (nth i g 0) v u)).
  - apply (sum2_swap
             (fun u v =>
                Incupsulation.irradiance I R_ (nth j g 0) (nth i g 0) v u)).
  - intros u v _ _.
    replace (2 * (l / 2) - u) with (l - u) by field.
    rewrite irradiance_mirror_x. apply irradiance_transpose.
Qed.

(** C9.  With a square receiver of side [l], a square source of side [s]
    centred at the receiver's centre [(l/2, l/2)], the field of the
    centre-anchored variant is unchanged by a quarter turn about the grid
    centre: [result[i][j] = result[j][N-1-i]]. *)
Theorem C9_rotation_symmetry (p l s R_ : R) (N i j : nat) :
  (i < N)%nat -> (j < N)%nat ->
  let result :=
    Incupsulation.calculate_irradiance_extended_model
      p l l (l / 2) (l / 2) R_ s s N in
  cell result i j = cell result j (N - 1 - i).
Proof.
  intros Hi Hj result. subst result.
  rewrite !extended_cell by lia.
  rewrite <- (accumulated_rotation p l s R_ N i j Hi Hj).
  reflexivity.
Qed.

Lemma C9_rotation_symmetry_witness :
  cell (Incupsulation.calculate_irradiance_extended_model
          500 100 100 (100 / 2) (100 / 2) 500 1 1 30) 3 7 =
  cell (Incupsulation.calculate_irradiance_extended_model
          500 100 100 (100 / 2) (100 / 2) 500 1 1 30) 7 (30 - 1 - 3).
Proof.
  apply (C9_rotation_symmetry 500 100 1 500 30 3 7); lia.
Defined.

(** ** Precondition violations (C3) *)

Lemma float_overflow_gt_1 : 1 < float_overflow.
Proof.
  unfold float_overflow. apply IZR_lt. vm_compute. reflexivity.
Qed.

Lemma map2_map_map (f : R -> R -> R) (g h : R -> R) (u v : list R) :
  map2 f (map g u) (map h v) = map2 (fun a b => f (g a) (h b)) u v.
Proof.
  unfold map2. revert v. induction u as [| a u IH]; intros [| b v]; simpl;
    try reflexivity.
  f_equal. apply IH.
Qed.

Lemma map_map2 (f : R -> R) (g : R -> R -> R) (u v : list R) :
  map f (map2 g u v) = map2 (fun a b => f (g a b)) u v.
Proof.
  unfold map2. rewrite map_map. reflexivity.
Qed.

Lemma mmap2_mmap_mmap (f : R -> R -> R) (g h : R -> R) (A B : matrix) :
  mmap2 f (mmap g A) (mmap h B) = mmap2 (fun a b => f (g a) (h b)) A B.
Proof.
  unfold mmap2, mmap. revert B.
  induction A as [| u A IH]; intros [| v B]; simpl; try reflexivity.
  rewrite map2_map_map. f_equal. apply IH.
Qed.

Lemma mmap_mmap2 (f : R -> R) (g : R -> R -> R) (A B : matrix) :
  mmap f (mmap2 g A B) = mmap2 (fun a b => f (g a b)) A B.
Proof.
  unfold mmap2, mmap. rewrite map_map. apply map_ext. intros [u v]. simpl.
  apply map_map2.
Qed.

(** While [L_sr**2] is a float, one pass of the loops adds to every
    receiver cell the contribution of the source point. *)
Lemma loop_body_returned (I_i L_sr : R) (X_r Y_r : matrix) (x_s y_s : list R)
  (i j : nat) (result : matrix) :
  L_sr ^ 2 < float_overflow ->
  Main2.loop_body I_i L_sr X_r Y_r x_s y_s i j result =
  Returned
    (madd result
       (mmap2 (fun xr yr =>
                 Main2.contribution I_i L_sr xr yr (nth i x_s 0) (nth j y_s 0))
          X_r Y_r)).
Proof.
  intros Hrange. unfold Main2.loop_body, py_float_sq.
  destruct (Rle_dec float_overflow (L_sr ^ 2)) as [Hov | _]; [lra |].
  cbn [bind]. rewrite mmap2_mmap_mmap, !mmap_mmap2. reflexivity.
Qed.

Lemma loop_body_raised (I_i L_sr : R) (X_r Y_r : matrix) (x_s y_s : list R)
  (i j : nat) (result : matrix) :
  float_overflow <= L_sr ^ 2 ->
  Main2.loop_body I_i L_sr X_r Y_r x_s y_s i j result = Raised OverflowError.
Proof.
  intros Hov. unfold Main2.loop_body, py_float_sq.
  destruct (Rle_dec float_overflow (L_sr ^ 2)) as [_ | Hn]; [| lra].
  reflexivity.
Qed.

Lemma fold_left_bind_raised {S : Type} (f : S -> matrix -> outcome matrix)
  (l : list S) (e : exn) :
  fold_left (fun acc a => result <- acc ;; f a result) l (Raised e) = Raised e.
Proof.
  induction l as [| a l IH]; simpl; [reflexivity | exact IH].
Qed.

Lemma fold_left_bind_returned {S : Type} (f : S -> matrix -> outcome matrix)
  (g : matrix -> S -> matrix) (l : list S) (A : matrix) :
  (forall a B, f a B = Returned (g B a)) ->
  fold_left (fun acc a => result <- acc ;; f a result) l (Returned A) =
  Returned (fold_left g l A).
Proof.
  intros Hf. revert A. induction l as [| a l IH]; intros A; simpl.
  - reflexivity.
  - rewrite Hf. apply IH.
Qed.

Lemma run_loops_returned (I_i L_sr : R) (X_r Y_r : matrix) (x_s y_s : list R)
  (n : nat) (result : matrix) :
  L_sr ^ 2 < float_overflow ->
  Main2.run_loops I_i L_sr X_r Y_r x_s y_s n result =
  Returned (Main2.accumulate I_i L_sr X_r Y_r x_s y_s n result).
Proof.
  intros Hrange. unfold Main2.run_loops, Main2.accumulate.
  assert (Hgen : forall (m l : list nat) (A : matrix),
             fold_left (fun acc i =>
               fold_left (fun acc j =>
                 result <- acc ;;
                 Main2.loop_body I_i L_sr X_r Y_r x_s y_s i j result) m acc)
               l (Returned A) =
             Returned
               (fold_left (fun result i =>
                  fold_left (fun result j =>
                    madd result
                      (mmap2 (fun xr yr =>
                                Main2.contribution I_i L_sr xr yr
                                  (nth i x_s 0) (nth j y_s 0)) X_r Y_r))
                    m result) l A));
    [| apply Hgen].
  intros m l. induction l as [| i l IH]; intros A; simpl; [reflexivity |].
  rewrite (fold_left_bind_returned
             (fun j B => Main2.loop_body I_i L_sr X_r Y_r x_s y_s i j B)
             (fun B j =>
                madd B
                  (mmap2 (fun xr yr =>
                            Main2.contribution I_i L_sr xr yr
                              (nth i x_s 0) (nth j y_s 0)) X_r Y_r)))
    by (intros; apply loop_body_returned; exact Hrange).
  apply IH.
Qed.

Lemma run_loops_raised (I_i L_sr : R) (X_r Y_r : matrix) (x_s y_s : list R)
  (n : nat) (result : matrix) :
  (1 <= n)%nat -> float_overflow <= L_sr ^ 2 ->
  Main2.run_loops I_i L_sr X_r Y_r x_s y_s n result = Raised OverflowError.
Proof.
  intros Hn Hov. unfold Main2.run_loops.
  destruct n as [| n]; [lia |].
  assert (Hinner : forall (i : nat) (acc : outcome matrix),
             fold_left (fun acc j =>
               result <- acc ;;
               Main2.loop_body I_i L_sr X_r Y_r x_s y_s i j result)
               (seq 0 (S n)) acc = Raised OverflowError \/
             exists e,
               fold_left (fun acc j =>
                 result <- acc ;;
                 Main2.loop_body I_i L_sr X_r Y_r x_s y_s i j result)
                 (seq 0 (S n)) acc = Raised e /\ acc = Raised e).
  { intros i [A | e].
    - left. cbn [seq fold_left bind].
      rewrite loop_body_raised by exact Hov.
      apply (fold_left_bind_raised
               (fun j B => Main2.loop_body I_i L_sr X_r Y_r x_s y_s i j B)).
    - right. exists e. split; [| reflexivity].
      apply (fold_left_bind_raised
               (fun j B => Main2.loop_body I_i L_sr X_r Y_r x_s y_s i j B)). }
  assert (Hraised : forall (l : list nat),
             fold_left (fun acc i =>
               fold_left (fun acc j =>
                 result <- acc ;;
                 Main2.loop_body I_i L_sr X_r Y_r x_s y_s i j result)
                 (seq 0 (S n)) acc) l (Raised OverflowError) =
             Raised OverflowError).
  { induction l as [| i l IH]; [reflexivity |]. cbn [fold_left].
    destruct (Hinner i (Raised OverflowError)) as [H | (e & H & _)];
      rewrite H; [exact IH |].
    destruct (Hinner i (Raised OverflowError)) as [H' | (e' & H' & He')].
    - rewrite H' in H. rewrite <- H. exact IH.
    - inversion He'. subst e'. rewrite H' in H. rewrite <- H. exact IH. }
  change (seq 0 (S n)) with (0%nat :: seq 1 n) at 2.
  cbn [fold_left].
  destruct (Hinner 0%nat (Returned result)) as [H | (e & _ & He)];
    [| discriminate He].
  rewrite H. apply Hraised.
Qed.

Lemma IZR_to_nat (z : Z) : (0 <= z)%Z -> IZR z = INR (Z.to_nat z).
Proof.
  intros Hz. rewrite INR_IZR_INZ, Z2Nat.id by exact Hz. reflexivity.
Qed.

(** The call returns the field computed by the loops as soon as there is
    a sample and [L_sr**2] is a float. *)
Lemma run_returned (p l_r h_r x y R_ l_s h_s : R) (accuracy : Z) :
  (1 <= accuracy)%Z -> R_ ^ 2 < float_overflow ->
  Main2.run p l_r h_r x y R_ l_s h_s accuracy =
  Returned (Main2.calculate_irradiance_vectorized
              p l_r h_r x y R_ l_s h_s (Z.to_nat accuracy)).
Proof.
  intros Hacc Hrange.
  unfold Main2.run, Main2.calculate_irradiance_vectorized, np_linspace.
  destruct (Z.ltb_spec accuracy 0) as [Hneg | _]; [lia |].
  cbn [bind]. unfold py_truediv.
  assert (Hpos : 0 < IZR accuracy) by (apply IZR_lt; lia).
  destruct (Req_dec_T (PI * IZR accuracy ^ 2) 0) as [Hz | _].
  - exfalso. pose proof PI_RGT_0 as Hpi.
    assert (0 < PI * IZR accuracy ^ 2)
      by (apply Rmult_lt_0_compat; [lra | apply pow_lt; exact Hpos]).
    lra.
  - cbn [bind]. rewrite run_loops_returned by exact Hrange.
    cbn [bind]. rewrite (IZR_to_nat accuracy) by lia. reflexivity.
Qed.

Lemma run_zero_samples (p l_r h_r x y R_ l_s h_s : R) :
  Main2.run p l_r h_r x y R_ l_s h_s 0 = Raised ZeroDivisionError.
Proof.
  unfold Main2.run, np_linspace. cbn [Z.ltb Z.compare bind]. unfold py_truediv.
  destruct (Req_dec_T (PI * 0 ^ 2) 0) as [_ | Hn]; [reflexivity |].
  exfalso. apply Hn. ring.
Qed.

Lemma run_negative_samples (p l_r h_r x y R_ l_s h_s : R) (accuracy : Z) :
  (accuracy < 0)%Z ->
  Main2.run p l_r h_r x y R_ l_s h_s accuracy = Raised ValueError.
Proof.
  intros Hneg. unfold Main2.run, np_linspace.
  destruct (Z.ltb_spec accuracy 0) as [_ | H]; [reflexivity | lia].
Qed.

Lemma run_overflow (p l_r h_r x y R_ l_s h_s : R) (accuracy : Z) :
  (1 <= accuracy)%Z -> float_overflow <= R_ ^ 2 ->
  Main2.run p l_r h_r x y R_ l_s h_s accuracy = Raised OverflowError.
Proof.
  intros Hacc Hov. unfold Main2.run, np_linspace.
  destruct (Z.ltb_spec accuracy 0) as [Hneg | _]; [lia |].
  cbn [bind]. unfold py_truediv.
  assert (Hpos : 0 < IZR accuracy) by (apply IZR_lt; lia).
  destruct (Req_dec_T (PI * IZR accuracy ^ 2) 0) as [Hz | _].
  - exfalso. pose proof PI_RGT_0 as Hpi.
    assert (0 < PI * IZR accuracy ^ 2)
      by (apply Rmult_lt_0_compat; [lra | apply pow_lt; exact Hpos]).
    lra.
  - cbn [bind]. rewrite run_loops_raised by (lia || exact Hov). reflexivity.
Qed.




(** * Further properties of the sources *)

(** ** [main.py]: the array built by [ps_for_all] *)

Lemma fold_left_Rplus (l : list R) (a : R) :
  fold_left Rplus l a = a + Rsum l.
Proof.
  revert a. induction l as [| b l IH]; intros a; simpl.
  - lra.
  - rewrite IH. lra.
Qed.

Lemma py_sum_Rsum (l : list R) : py_sum l = Rsum l.
Proof.
  unfold py_sum. rewrite fold_left_Rplus. lra.
Qed.

Lemma Rsum_flat_map {S : Type} (f : S -> list R) (l : list S) :
  Rsum (flat_map f l) = Rsum (map (fun a => Rsum (f a)) l).
Proof.
  induction l as [| a l IH]; simpl.
  - reflexivity.
  - rewrite Rsum_app, IH. reflexivity.
Qed.

Lemma set_nth_length (l : list R) (i : nat) (v : R) :
  length (MainPy.set_nth l i v) = length l.
Proof.
  revert i. induction l as [| a l IH]; intros [| i]; simpl; auto.
Qed.

Lemma set_nth_same (l : list R) (i : nat) (v : R) :
  (i < length l)%nat -> nth i (MainPy.set_nth l i v) 0 = v.
Proof.
  revert i. induction l as [| a l IH]; intros [| i] Hi; simpl in *;
    try lia; auto. apply IH. lia.
Qed.

Lemma set_nth_other (l : list R) (i j : nat) (v : R) :
  i <> j -> nth j (MainPy.set_nth l i v) 0 = nth j l 0.
Proof.
  revert i j. induction l as [| a l IH]; intros [| i] [| j] Hij; simpl;
    try reflexivity; try lia. apply IH. lia.
Qed.

Lemma mset_shape (n m : nat) (A : matrix) (r c : nat) (v : R) :
  shape n m A -> shape n m (MainPy.mset A r c v).
Proof.
  revert n r. induction A as [| row A IH]; intros n r [Hn Hrows].
  - destruct r; split; simpl; auto.
  - inversion Hrows as [| ? ? Hrow Hrest]; subst.
    destruct r as [| r]; simpl.
    + split; [reflexivity |]. constructor; [| exact Hrest].
      rewrite set_nth_length. reflexivity.
    + destruct (IH (length A) r (conj eq_refl Hrest)) as [Hlen HF].
      split; [simpl; rewrite Hlen; reflexivity |].
      constructor; [reflexivity | exact HF].
Qed.

Lemma mset_same (n m : nat) (A : matrix) (r c : nat) (v : R) :
  shape n m A -> (r < n)%nat -> (c < m)%nat ->
  cell (MainPy.mset A r c v) r c = v.
Proof.
  unfold cell. revert n r. induction A as [| row A IH]; intros n r [Hn Hrows] Hr Hc.
  - simpl in Hn. lia.
  - inversion Hrows as [| ? ? Hrow Hrest]; subst.
    destruct r as [| r]; simpl.
    + apply set_nth_same. lia.
    + apply (IH (length A)); [split; auto | simpl in Hr; lia | exact Hc].
Qed.

Lemma mset_other (A : matrix) (r c r' c' : nat) (v : R) :
  (r, c) <> (r', c') ->
  cell (MainPy.mset A r c v) r' c' = cell A r' c'.
Proof.
  unfold cell. revert r r'. induction A as [| row A IH]; intros r r' Hne.
  - destruct r; reflexivity.
  - destruct r as [| r], r' as [| r']; simpl; try reflexivity.
    + apply set_nth_other. intros ->. apply Hne. reflexivity.
    + apply IH. intros Heq. apply Hne. inversion Heq. reflexivity.
Qed.

(** Storing the values of a task list whose index pairs are pairwise
    distinct: every task's cell holds that task's value at the end. *)
Lemma fold_mset_untouched (val : MainPy.target_task -> R)
  (tasks : list MainPy.target_task) (A : matrix) (r c : nat) :
  (forall t, In t tasks -> (MainPy.t_xi t, MainPy.t_yi t) <> (r, c)) ->
  cell (fold_left (fun A t =>
          MainPy.mset A (MainPy.t_xi t) (MainPy.t_yi t) (val t)) tasks A) r c =
  cell A r c.
Proof.
  revert A. induction tasks as [| t tasks IH]; intros A H; simpl.
  - reflexivity.
  - rewrite IH by (intros; apply H; simpl; auto).
    apply mset_other, H. simpl; auto.
Qed.

Lemma fold_mset_shape (val : MainPy.target_task -> R)
  (tasks : list MainPy.target_task) (n m : nat) (A : matrix) :
  shape n m A ->
  shape n m (fold_left (fun A t =>
               MainPy.mset A (MainPy.t_xi t) (MainPy.t_yi t) (val t)) tasks A).
Proof.
  revert A. induction tasks as [| t tasks IH]; intros A HA; simpl.
  - exact HA.
  - apply IH, mset_shape, HA.
Qed.

Lemma fold_mset_cell (val : MainPy.target_task -> R)
  (tasks : list MainPy.target_task) (n m : nat) (A : matrix)
  (t : MainPy.target_task) :
  shape n m A ->
  NoDup (map (fun t => (MainPy.t_xi t, MainPy.t_yi t)) tasks) ->
  In t tasks -> (MainPy.t_xi t < n)%nat -> (MainPy.t_yi t < m)%nat ->
  cell (fold_left (fun A t =>
          MainPy.mset A (MainPy.t_xi t) (MainPy.t_yi t) (val t)) tasks A)
    (MainPy.t_xi t) (MainPy.t_yi t) = val t.
Proof.
  revert A. induction tasks as [| t0 tasks IH]; intros A HA Hnd Hin Hr Hc;
    simpl in *; [contradiction |].
  inversion Hnd as [| ? ? Hnotin Hnd']; subst.
  destruct Hin as [-> | Hin].
  - rewrite fold_mset_untouched.
    + apply (mset_same n m); assumption.
    + intros t' Ht' Heq. apply Hnotin. rewrite <- Heq.
      apply (in_map (fun t => (MainPy.t_xi t, MainPy.t_yi t))). exact Ht'.
  - apply IH; auto. apply mset_shape, HA.
Qed.

Lemma stepped_grid_keys (l_r h_r : R) (N : nat) :
  map (fun t => (MainPy.t_xi t, MainPy.t_yi t)) (stepped_grid l_r h_r N) =
  list_prod (seq 0 N) (seq 0 N).
Proof.
  unfold stepped_grid. rewrite list_prod_as_flat_map.
  assert (H : forall (u v : list nat) (fx fy : nat -> R),
            map (fun t => (MainPy.t_xi t, MainPy.t_yi t))
              (flat_map (fun xi =>
                 map (fun yi => MainPy.mk_task (fx xi) (fy yi) xi yi) v) u) =
            flat_map (fun a => map (pair a) v) u).
  { intros u v fx fy. induction u as [| a u IH]; simpl; [reflexivity |].
    rewrite map_app, IH, map_map. reflexivity. }
  apply (H (seq 0 N) (seq 0 N)
           (fun xi => INR xi * (l_r / INR N))
           (fun yi => INR yi * (h_r / INR N))).
Qed.

Lemma NoDup_list_prod {S T : Type} (u : list S) (v : list T) :
  NoDup u -> NoDup v -> NoDup (list_prod u v).
Proof.
  intros Hu Hv. induction Hu as [| a u Hnotin Hu IH]; simpl.
  - constructor.
  - apply NoDup_app.
    + apply NoDup_map_NoDup_ForallPairs; [| exact Hv].
      intros x y _ _ Heq. inversion Heq. reflexivity.
    + exact IH.
    + intros [a' b] Hin1 Hin2. apply in_map_iff in Hin1.
      destruct Hin1 as (y & Heq & _). inversion Heq; subst.
      apply in_prod_iff in Hin2. destruct Hin2 as [Hin2 _]. contradiction.
Qed.

Lemma ps_for_all_fold (val : MainPy.target_task -> R) (f : MainPy.target_task -> option R)
  (tasks : list MainPy.target_task) (A : matrix) :
  (forall t, f t = Some (val t)) ->
  fold_left (fun acc t =>
    match acc with
    | None => None
    | Some result =>
        match f t with
        | None => None
        | Some v => Some (MainPy.mset result (MainPy.t_xi t) (MainPy.t_yi t) v)
        end
    end) tasks (Some A) =
  Some (fold_left (fun A t =>
          MainPy.mset A (MainPy.t_xi t) (MainPy.t_yi t) (val t)) tasks A).
Proof.
  intros Hf. revert A. induction tasks as [| t tasks IH]; intros A; simpl.
  - reflexivity.
  - rewrite Hf. apply IH.
Qed.

Lemma stepped_grid_in (l_r h_r : R) (N xi yi : nat) :
  (xi < N)%nat -> (yi < N)%nat ->
  In (MainPy.mk_task (INR xi * (l_r / INR N)) (INR yi * (h_r / INR N)) xi yi)
    (stepped_grid l_r h_r N).
Proof.
  intros Hx Hy. unfold stepped_grid. apply in_flat_map.
  exists xi. split; [apply in_seq; lia |].
  apply in_map_iff. exists yi. split; [reflexivity | apply in_seq; lia].
Qed.

(** The array of [ps_for_all], for the source coordinates [x_s] and [y_s]
    that the two counters of [ps_for_target] visit. *)
Lemma ps_for_all_sums (N fuel : nat)
  (l_r h_r l_s h_s x_pos y_pos L_sr I_i : R) (x_s y_s : list R) :
  0 < l_r -> 0 < h_r -> (1 <= N)%nat ->
  counter_values fuel l_s (Decimal.div l_s (INR N)) 0 = Some x_s ->
  counter_values fuel h_s (Decimal.div h_s (INR N)) 0 = Some y_s ->
  exists result,
    MainPy.ps_for_all fuel N l_r h_r l_s h_s x_pos y_pos L_sr I_i = Some result /\
    shape N N result /\
    forall xi yi : nat, (xi < N)%nat -> (yi < N)%nat ->
      cell result xi yi =
      sum2 (fun xs ys =>
              MainPy.ps_from_point (INR xi * (l_r / INR N))
                (INR yi * (h_r / INR N)) xs ys x_pos y_pos L_sr I_i)
        x_s y_s.
Proof.
  intros Hlr Hhr HN Hx Hy.
  set (val := fun t : MainPy.target_task =>
         py_sum
           (flat_map (fun xs =>
              map (fun ys =>
                     MainPy.ps_from_point (MainPy.t_x t) (MainPy.t_y t)
                       xs ys x_pos y_pos L_sr I_i) y_s) x_s)).
  unfold MainPy.ps_for_all.
  rewrite ps_for_all_tasks_spec by assumption.
  rewrite (ps_for_all_fold val)
    by (intros t; apply ps_for_target_values; assumption).
  eexists. split; [reflexivity |].
  split; [apply fold_mset_shape, (shape_zeros N N) |].
  intros xi yi Hxi Hyi.
  pose proof (fold_mset_cell val (stepped_grid l_r h_r N) N N
                (repeat (repeat 0 N) N)
                (MainPy.mk_task (INR xi * (l_r / INR N))
                   (INR yi * (h_r / INR N)) xi yi)
                (shape_zeros N N)) as Hcell.
  simpl in Hcell. rewrite Hcell; try assumption.
  - unfold val. simpl. rewrite py_sum_Rsum, Rsum_flat_map.
    unfold sum2. reflexivity.
  - rewrite stepped_grid_keys. apply NoDup_list_prod; apply seq_NoDup.
  - apply stepped_grid_in; assumption.
Qed.



(** ** [main.py]: degenerate rectangles *)

Lemma y_loop_empty (k N : nat) (h_r step x : R) (xi : nat)
  (tasks : list MainPy.target_task) :
  h_r <= 0 -> MainPy.y_loop k N h_r step x xi 0 0 tasks = tasks.
Proof.
  intros Hh. destruct k; simpl; [reflexivity |].
  destruct (Rlt_dec 0 h_r); [lra | reflexivity].
Qed.

Lemma x_loop_empty (N : nat) (l_r h_r sx sy : R) :
  h_r <= 0 ->
  forall (k : nat) (x : R) (xi : nat) (tasks : list MainPy.target_task),
    MainPy.x_loop k N l_r h_r sx sy x xi tasks = tasks.
Proof.
  intros Hh. induction k as [| k IH]; intros x xi tasks; simpl; [reflexivity |].
  destruct (Rlt_dec x l_r); [| reflexivity].
  destruct (xi <? N)%nat; [| reflexivity].
  rewrite y_loop_empty by exact Hh. apply IH.
Qed.

Lemma ps_for_all_tasks_empty (N : nat) (l_r h_r : R) :
  l_r <= 0 \/ h_r <= 0 -> MainPy.ps_for_all_tasks N l_r h_r = [].
Proof.
  intros H. unfold MainPy.ps_for_all_tasks.
  destruct H as [Hl | Hh].
  - destruct N; simpl; [reflexivity |].
    destruct (Rlt_dec 0 l_r); [lra | reflexivity].
  - apply x_loop_empty. exact Hh.
Qed.

Lemma xs_loop_empty (fuel yfuel : nat) (task : R -> R -> R)
  (l_s h_s xstep ystep : R) (tasks : list R) :
  l_s <= 0 ->
  MainPy.xs_loop fuel yfuel task l_s h_s xstep ystep 0 tasks = Some tasks.
Proof.
  intros Hl. destruct fuel; simpl; destruct (Rlt_dec 0 l_s); try lra; reflexivity.
Qed.

Lemma set_nth_repeat (m i : nat) (v : R) :
  MainPy.set_nth (repeat v m) i v = repeat v m.
Proof.
  revert i. induction m as [| m IH]; intros [| i]; simpl; try reflexivity.
  rewrite IH. reflexivity.
Qed.

Lemma mset_zeros (n m r c : nat) :
  MainPy.mset (repeat (repeat 0 m) n) r c 0 = repeat (repeat 0 m) n.
Proof.
  revert r. induction n as [| n IH]; intros [| r]; simpl; try reflexivity.
  - rewrite set_nth_repeat. reflexivity.
  - rewrite IH. reflexivity.
Qed.

(** X2.  [ps_for_all] raises nothing on a degenerate rectangle
    ([match >= 1], so that the steps can be computed).  With a
    receiver dimension [<= 0] no receiver point is visited, and with a
    source length [<= 0] every visited point sums over no source point:
    in both cases the array returned is the initial all-zero array. *)
Theorem ps_for_all_degenerate (N fuel : nat)
  (l_r h_r l_s h_s x_pos y_pos L_sr I_i : R) :
  (1 <= N)%nat -> l_r <= 0 \/ h_r <= 0 \/ l_s <= 0 ->
  MainPy.ps_for_all fuel N l_r h_r l_s h_s x_pos y_pos L_sr I_i =
  Some (zeros N N).
Proof.
  intros _ H. unfold MainPy.ps_for_all.
  destruct H as [H | [H | H]].
  - rewrite ps_for_all_tasks_empty by auto. reflexivity.
  - rewrite ps_for_all_tasks_empty by auto. reflexivity.
  - rewrite (ps_for_all_fold (fun _ => 0)).
    + f_equal. unfold zeros.
      induction (MainPy.ps_for_all_tasks N l_r h_r) as [| t tasks IH]; simpl.
      * reflexivity.
      * rewrite mset_zeros. exact IH.
    + intros t. unfold MainPy.ps_for_target.
      rewrite xs_loop_empty by exact H. reflexivity.
Qed.

Lemma ps_for_all_degenerate_witness :
  MainPy.ps_for_all 3 3 0 1 1 1 0 0 1 1 = Some (zeros 3 3) /\
  MainPy.ps_for_all 0 3 1 1 (-1) 1 0 0 1 1 = Some (zeros 3 3).
Proof.
  split; apply ps_for_all_degenerate; try lia.
  - left. apply Rle_refl.
  - right. right. lra.
Defined.

(** ** An upper bound on the field *)

Lemma Rsum_map_le_const {S : Type} (f : S -> R) (M : R) (l : list S) :
  (forall s, f s <= M) -> Rsum (map f l) <= INR (length l) * M.
Proof.
  intros H. induction l as [| a l IH].
  - simpl. lra.
  - cbn [map Rsum fold_right length]. rewrite S_INR.
    pose proof (H a). unfold Rsum in IH. lra.
Qed.

Lemma sum2_le_const (f : R -> R -> R) (M : R) (us vs : list R) :
  (forall u v, f u v <= M) ->
  sum2 f us vs <= INR (length us) * (INR (length vs) * M).
Proof.
  intros H. unfold sum2.
  apply (Rsum_map_le_const
           (fun u => Rsum (map (fun v => f u v) vs)) (INR (length vs) * M)).
  intros u. apply (Rsum_map_le_const (fun v => f u v)). apply H.
Qed.

Lemma contribution_le (I_i L_sr x_r y_r x_s y_s : R) :
  0 <= I_i -> 0 < L_sr ->
  Main2.contribution I_i L_sr x_r y_r x_s y_s <= I_i / L_sr ^ 2.
Proof.
  intros HI HL. rewrite contribution_inverse_square by exact HL.
  pose proof (sq_sum_ge (x_r - x_s) (y_r - y_s) L_sr) as Hge.
  assert (HL2 : 0 < L_sr ^ 2) by (apply pow_lt; exact HL).
  unfold Rdiv. apply Rmult_le_compat_l; [exact HI |].
  apply Rinv_le_contravar; assumption.
Qed.

Lemma irradiance_le (I_i L_sr x_r y_r x_s y_s : R) :
  0 <= I_i -> 0 < L_sr ->
  Incupsulation.irradiance I_i L_sr x_r y_r x_s y_s <= I_i / L_sr ^ 2.
Proof.
  intros HI HL. rewrite irradiance_closed_form by exact HL.
  pose proof (sq_sum_ge (x_r - x_s) (y_r - y_s) L_sr) as Hge.
  set (d := (x_r - x_s) ^ 2 + (y_r - y_s) ^ 2 + L_sr ^ 2) in *.
  assert (HL2 : 0 < L_sr ^ 2) by (apply pow_lt; exact HL).
  assert (Hd : 0 < d) by lra.
  apply (Rmult_le_reg_r (d ^ 2 * L_sr ^ 2)).
  - apply Rmult_lt_0_compat; [apply pow_lt; exact Hd | exact HL2].
  - replace (I_i * L_sr ^ 2 / d ^ 2 * (d ^ 2 * L_sr ^ 2))
      with (I_i * (L_sr ^ 2 * L_sr ^ 2)) by (field; lra).
    replace (I_i / L_sr ^ 2 * (d ^ 2 * L_sr ^ 2)) with (I_i * (d * d))
      by (field; lra).
    apply Rmult_le_compat_l; [exact HI |].
    apply Rmult_le_compat; lra.
Qed.

(** X3.  No cell exceeds the irradiance of the whole power concentrated in
    one source point straight above the cell: with [P >= 0] and [L > 0]
    every cell of the field of [main2.py] is at most [P / (pi L²) / 0.005],
    and every cell accumulated by the kernel of [incupsulation.py] is at
    most [P / (pi L²)], whatever the geometry and the number of samples. *)
Theorem field_upper_bound (p l_r h_r x y R_ l_s h_s : R) (N r c : nat) :
  0 <= p -> 0 < R_ -> (r < N)%nat -> (c < N)%nat ->
  cell (Main2.calculate_irradiance_vectorized p l_r h_r x y R_ l_s h_s N) r c
    <= p / (PI * R_ ^ 2) / 0.005 /\
  cell (Incupsulation.accumulated_field p l_r h_r x y R_ l_s h_s N) r c
    <= p / (PI * R_ ^ 2).
Proof.
  intros Hp HL Hr Hc.
  pose proof PI_RGT_0 as Hpi.
  assert (HL2 : 0 < R_ ^ 2) by (apply pow_lt; exact HL).
  assert (HN : 0 < INR N) by (apply lt_0_INR; lia).
  split.
  - rewrite Main2_cell by assumption.
    assert (HI : 0 <= p / (PI * INR N ^ 2)).
    { apply Rmult_le_pos; [exact Hp |]. apply Rlt_le, Rinv_0_lt_compat.
      apply Rmult_lt_0_compat; [exact Hpi | apply pow_lt; exact HN]. }
    apply Rmult_le_compat_r; [lra |].
    eapply Rle_trans.
    + apply (sum2_le_const _ (p / (PI * INR N ^ 2) / R_ ^ 2)).
      intros u v. apply contribution_le; assumption.
    + rewrite !length_map, !linspace_length.
      apply Req_le. field. repeat split; lra.
  - rewrite accumulated_cell by assumption.
    pose proof (source_points_factor_bounds (Z.of_nat N)) as Hb.
    set (k := Z.to_nat (Incupsulation.source_points_factor (Z.of_nat N))) in *.
    assert (Hk : 0 < INR k) by (apply lt_0_INR; unfold k; lia).
    assert (HIeq : Incupsulation.I_i p l_s h_s x y N = p / INR (k * k) / PI).
    { unfold Incupsulation.I_i, Incupsulation.power_per_point,
        Incupsulation.num_source_points.
      rewrite x_s_points_length, y_s_points_length. reflexivity. }
    assert (HI : 0 <= Incupsulation.I_i p l_s h_s x y N).
    { rewrite HIeq, mult_INR. apply Rmult_le_pos.
      - apply Rmult_le_pos; [exact Hp |].
        apply Rlt_le, Rinv_0_lt_compat, Rmult_lt_0_compat; exact Hk.
      - apply Rlt_le, Rinv_0_lt_compat, Hpi. }
    eapply Rle_trans.
    + apply (sum2_le_const _ (Incupsulation.I_i p l_s h_s x y N / R_ ^ 2)).
      intros u v. apply irradiance_le; assumption.
    + rewrite x_s_points_length, y_s_points_length. fold k.
      rewrite HIeq, mult_INR. apply Req_le. field. repeat split; lra.
Qed.

Lemma field_upper_bound_witness :
  cell (Main2.calculate_irradiance_vectorized 50 100 100 0 0 30 1 10 20) 3 4
    <= 50 / (PI * 30 ^ 2) / 0.005 /\
  cell (Incupsulation.accumulated_field 50 100 100 0 0 30 1 10 20) 3 4
    <= 50 / (PI * 30 ^ 2).
Proof.
  apply (field_upper_bound 50 100 100 0 0 30 1 10 20 3 4); lra || lia.
Defined.

(** ** Change of the unit of length *)

Lemma linspace_scal (k a b : R) (n : nat) :
  linspace (k * a) (k * b) n = map (Rmult k) (linspace a b n).
Proof.
  destruct n as [| [| m]]; simpl; try reflexivity.
  f_equal.
  - unfold Rdiv. ring.
  - rewrite map_app, !map_map. simpl. f_equal.
    apply map_ext. intros i. unfold Rdiv. ring.
Qed.

Lemma linspace_scal0 (k b : R) (n : nat) :
  linspace 0 (k * b) n = map (Rmult k) (linspace 0 b n).
Proof.
  rewrite <- linspace_scal. f_equal. ring.
Qed.

Lemma nth_map_scal (k : R) (l : list R) (c : nat) :
  nth c (map (Rmult k) l) 0 = k * nth c l 0.
Proof.
  rewrite <- (map_nth (Rmult k)). f_equal. ring.
Qed.

Lemma sum2_map_r (f : R -> R -> R) (g : R -> R) (us vs : list R) :
  sum2 f us (map g vs) = sum2 (fun u v => f u (g v)) us vs.
Proof.
  unfold sum2. apply Rsum_map_ext. intros u _. rewrite map_map. reflexivity.
Qed.

Lemma shift_scal (k x : R) (l : list R) :
  map (fun v => v + k * x) (map (Rmult k) l) =
  map (Rmult k) (map (fun v => v + x) l).
Proof.
  rewrite !map_map. apply map_ext. intros v. ring.
Qed.

Lemma contribution_rescaled (k I_i L_sr x_r y_r x_s y_s : R) :
  0 < k -> 0 < L_sr ->
  Main2.contribution I_i (k * L_sr) (k * x_r) (k * y_r) (k * x_s) (k * y_s) =
  / k ^ 2 * Main2.contribution I_i L_sr x_r y_r x_s y_s.
Proof.
  intros Hk HL.
  assert (HkL : 0 < k * L_sr) by (apply Rmult_lt_0_compat; assumption).
  rewrite !contribution_inverse_square by assumption.
  pose proof (sq_sum_pos (x_r - x_s) (y_r - y_s) L_sr HL).
  pose proof (sq_sum_pos (k * x_r - k * x_s) (k * y_r - k * y_s) (k * L_sr) HkL).
  field. repeat split; lra.
Qed.

Lemma irradiance_rescaled (k I_i L_sr x_r y_r x_s y_s : R) :
  0 < k -> 0 < L_sr ->
  Incupsulation.irradiance I_i (k * L_sr) (k * x_r) (k * y_r)
    (k * x_s) (k * y_s) =
  / k ^ 2 * Incupsulation.irradiance I_i L_sr x_r y_r x_s y_s.
Proof.
  intros Hk HL.
  assert (HkL : 0 < k * L_sr) by (apply Rmult_lt_0_compat; assumption).
  rewrite !irradiance_closed_form by assumption.
  pose proof (sq_sum_pos (x_r - x_s) (y_r - y_s) L_sr HL).
  pose proof (sq_sum_pos (k * x_r - k * x_s) (k * y_r - k * y_s) (k * L_sr) HkL).
  field. repeat split; lra.
Qed.

Lemma Main2_rescaled (k p l_r h_r x y R_ l_s h_s : R) (N : nat) :
  0 < k -> 0 < R_ ->
  Main2.calculate_irradiance_vectorized p (k * l_r) (k * h_r) (k * x) (k * y)
    (k * R_) (k * l_s) (k * h_s) N =
  mmap (fun v => / k ^ 2 * v)
    (Main2.calculate_irradiance_vectorized p l_r h_r x y R_ l_s h_s N).
Proof.
  intros Hk HL. apply (matrix_ext N N).
  - apply Main2_shape.
  - apply shape_mmap, Main2_shape.
  - intros r c Hr Hc.
    rewrite (cell_mmap _ N N) by (try assumption; apply Main2_shape).
    rewrite !Main2_cell by assumption.
    rewrite !linspace_scal0, !nth_map_scal, !shift_scal.
    rewrite sum2_map_l, sum2_map_r.
    rewrite (sum2_ext _
               (fun xs ys => / k ^ 2 *
                  Main2.contribution (p / (PI * INR N ^ 2)) R_
                    (nth c (linspace 0 l_r N) 0) (nth r (linspace 0 h_r N) 0)
                    xs ys))
      by (intros; apply contribution_rescaled; assumption).
    rewrite sum2_scal. unfold Rdiv. apply Rmult_assoc.
Qed.

Lemma py_max_scal (k a b : R) :
  0 < k -> py_max (k * a) (k * b) = k * py_max a b.
Proof.
  intros Hk. unfold py_max.
  destruct (Rlt_dec (k * a) (k * b)) as [H1 | H1], (Rlt_dec a b) as [H2 | H2];
    try reflexivity; exfalso.
  - apply H2. apply (Rmult_lt_reg_l k); assumption.
  - apply H1. apply Rmult_lt_compat_l; assumption.
Qed.

Lemma x_s_points_scal (k l_s x : R) (N : nat) :
  Incupsulation.x_s_points (k * l_s) (k * x) N =
  map (Rmult k) (Incupsulation.x_s_points l_s x N).
Proof.
  unfold Incupsulation.x_s_points.
  replace (- (k * l_s) / 2) with (k * (- l_s / 2)) by field.
  replace (k * l_s / 2) with (k * (l_s / 2)) by field.
  rewrite linspace_scal. apply shift_scal.
Qed.

Lemma y_s_points_scal (k h_s y : R) (N : nat) :
  Incupsulation.y_s_points (k * h_s) (k * y) N =
  map (Rmult k) (Incupsulation.y_s_points h_s y N).
Proof.
  unfold Incupsulation.y_s_points.
  replace (- (k * h_s) / 2) with (k * (- h_s / 2)) by field.
  replace (k * h_s / 2) with (k * (h_s / 2)) by field.
  rewrite linspace_scal. apply shift_scal.
Qed.

Lemma I_i_geometry (p l_s h_s x y l_s' h_s' x' y' : R) (N : nat) :
  Incupsulation.I_i p l_s h_s x y N = Incupsulation.I_i p l_s' h_s' x' y' N.
Proof.
  unfold Incupsulation.I_i, Incupsulation.power_per_point,
    Incupsulation.num_source_points.
  rewrite ?x_s_points_length, ?y_s_points_length. reflexivity.
Qed.

Lemma accumulated_rescaled (k p l_r h_r x y R_ l_s h_s : R) (N : nat) :
  0 < k -> 0 < R_ ->
  Incupsulation.accumulated_field p (k * l_r) (k * h_r) (k * x) (k * y)
    (k * R_) (k * l_s) (k * h_s) N =
  mmap (fun v => / k ^ 2 * v)
    (Incupsulation.accumulated_field p l_r h_r x y R_ l_s h_s N).
Proof.
  intros Hk HL. apply (matrix_ext N N).
  - apply accumulated_shape.
  - apply shape_mmap, accumulated_shape.
  - intros r c Hr Hc.
    rewrite (cell_mmap _ N N) by (try assumption; apply accumulated_shape).
    rewrite !accumulated_cell by assumption.
    rewrite (I_i_geometry p (k * l_s) (k * h_s) (k * x) (k * y) l_s h_s x y).
    rewrite !linspace_scal0, !nth_map_scal, x_s_points_scal, y_s_points_scal.
    rewrite sum2_map_l, sum2_map_r.
    rewrite (sum2_ext _
               (fun u v => / k ^ 2 *
                  Incupsulation.irradiance (Incupsulation.I_i p l_s h_s x y N)
                    R_ (nth c (linspace 0 l_r N) 0)
                    (nth r (linspace 0 h_r N) 0) u v))
      by (intros; apply irradiance_rescaled; assumption).
    apply sum2_scal.
Qed.

(** X4.  Inverse-square scaling.  Multiplying every length of the input
    (receiver and source dimensions, placement and standoff) by [k > 0]
    divides every cell of the field by [k²], in [main2.py] and in the
    extended model of [incupsulation.py], whose small-distance correction
    depends on ratios of lengths only. *)
Theorem field_rescaled (k p l_r h_r x y R_ l_s h_s : R) (N : nat) :
  0 < k -> 0 < R_ ->
  Main2.calculate_irradiance_vectorized p (k * l_r) (k * h_r) (k * x) (k * y)
    (k * R_) (k * l_s) (k * h_s) N =
  mmap (fun v => / k ^ 2 * v)
    (Main2.calculate_irradiance_vectorized p l_r h_r x y R_ l_s h_s N) /\
  Incupsulation.calculate_irradiance_extended_model
    p (k * l_r) (k * h_r) (k * x) (k * y) (k * R_) (k * l_s) (k * h_s) N =
  mmap (fun v => / k ^ 2 * v)
    (Incupsulation.calculate_irradiance_extended_model
       p l_r h_r x y R_ l_s h_s N).
Proof.
  intros Hk HL. split; [apply Main2_rescaled; assumption |].
  unfold Incupsulation.calculate_irradiance_extended_model.
  rewrite accumulated_rescaled by assumption.
  assert (Hcorr : Incupsulation.size_correction (k * R_) (k * l_s) (k * h_s) =
                  Incupsulation.size_correction R_ l_s h_s).
  { unfold Incupsulation.size_correction. rewrite py_max_scal by exact Hk.
    f_equal. f_equal. field. split; lra. }
  rewrite Hcorr, py_max_scal by exact Hk.
  destruct (Rlt_dec (k * R_) (k * py_max l_s h_s * 10)) as [H1 | H1],
           (Rlt_dec R_ (py_max l_s h_s * 10)) as [H2 | H2].
  - rewrite !mmap_mmap. apply mmap_ext. intros v. ring.
  - exfalso. apply H2. apply (Rmult_lt_reg_l k); [exact Hk | lra].
  - exfalso. apply H1.
    replace (k * py_max l_s h_s * 10) with (k * (py_max l_s h_s * 10)) by ring.
    apply Rmult_lt_compat_l; assumption.
  - reflexivity.
Qed.

Lemma field_rescaled_witness :
  Main2.calculate_irradiance_vectorized 50 (2 * 100) (2 * 100) (2 * 0) (2 * 0)
    (2 * 30) (2 * 1) (2 * 10) 20 =
  mmap (fun v => / 2 ^ 2 * v)
    (Main2.calculate_irradiance_vectorized 50 100 100 0 0 30 1 10 20).
Proof.
  apply (field_rescaled 2 50 100 100 0 0 30 1 10 20); lra.
Defined.

(** ** Symmetries of the field *)

Lemma contribution_mirror_x (I_i L_sr x_r y_r x_s y_s c : R) :
  Main2.contribution I_i L_sr (c - x_r) y_r (c - x_s) y_s =
  Main2.contribution I_i L_sr x_r y_r x_s y_s.
Proof.
  unfold Main2.contribution.
  replace ((c - x_r - (c - x_s)) ^ 2) with ((x_r - x_s) ^ 2) by ring.
  reflexivity.
Qed.

Lemma contribution_transpose (I_i L_sr x_r y_r x_s y_s : R) :
  Main2.contribution I_i L_sr x_r y_r x_s y_s =
  Main2.contribution I_i L_sr y_r x_r y_s x_s.
Proof.
  unfold Main2.contribution.
  replace ((y_r - y_s) ^ 2 + (x_r - x_s) ^ 2)
    with ((x_r - x_s) ^ 2 + (y_r - y_s) ^ 2) by ring.
  reflexivity.
Qed.

Lemma corner_points_mirror (l_r l_s : R) (N : nat) :
  (2 <= N)%nat ->
  rev (map (fun v => v + (l_r - l_s) / 2) (linspace 0 l_s N)) =
  map (fun u => l_r - u)
    (map (fun v => v + (l_r - l_s) / 2) (linspace 0 l_s N)).
Proof.
  intros HN. rewrite <- map_rev, linspace_rev by exact HN.
  rewrite !map_map. apply map_ext. intros v. field.
Qed.

Lemma Main2_mirror (p l_r h_r y R_ l_s h_s : R) (N r c : nat) :
  (r < N)%nat -> (c < N)%nat ->
  cell (Main2.calculate_irradiance_vectorized
          p l_r h_r ((l_r - l_s) / 2) y R_ l_s h_s N) r c =
  cell (Main2.calculate_irradiance_vectorized
          p l_r h_r ((l_r - l_s) / 2) y R_ l_s h_s N) r (N - 1 - c).
Proof.
  intros Hr Hc.
  destruct (Nat.eq_dec N 1) as [-> | HN1].
  { replace c with 0%nat by lia. reflexivity. }
  assert (HN : (2 <= N)%nat) by lia.
  rewrite !Main2_cell by lia. f_equal.
  rewrite linspace_mirror_nth by assumption.
  set (XS := map (fun v => v + (l_r - l_s) / 2) (linspace 0 l_s N)).
  set (YS := map (fun v => v + y) (linspace 0 h_s N)).
  symmetry. rewrite <- (sum2_rev_l _ XS YS).
  unfold XS at 1. rewrite corner_points_mirror by exact HN. fold XS.
  rewrite sum2_map_l. apply sum2_ext. intros u v _ _.
  apply contribution_mirror_x.
Qed.

Lemma accumulated_mirror (p l_r h_r y R_ l_s h_s : R) (N r c : nat) :
  (r < N)%nat -> (c < N)%nat ->
  cell (Incupsulation.accumulated_field p l_r h_r (l_r / 2) y R_ l_s h_s N) r c =
  cell (Incupsulation.accumulated_field p l_r h_r (l_r / 2) y R_ l_s h_s N)
    r (N - 1 - c).
Proof.
  intros Hr Hc.
  destruct (Nat.eq_dec N 1) as [-> | HN1].
  { replace c with 0%nat by lia. reflexivity. }
  assert (HN : (2 <= N)%nat) by lia.
  rewrite !accumulated_cell by lia.
  rewrite linspace_mirror_nth by assumption.
  unfold Incupsulation.x_s_points.
  set (k := Z.to_nat (Incupsulation.source_points_factor (Z.of_nat N))).
  set (XS := map (fun v => v + l_r / 2) (linspace (- l_s / 2) (l_s / 2) k)).
  assert (Hk : (2 <= k)%nat).
  { pose proof (source_points_factor_bounds (Z.of_nat N)). unfold k. lia. }
  symmetry. rewrite <- (sum2_rev_l _ XS).
  unfold XS at 1. rewrite source_points_mirror by exact Hk. fold XS.
  rewrite sum2_map_l. apply sum2_ext. intros u v _ _.
  replace (2 * (l_r / 2) - u) with (l_r - u) by field.
  apply irradiance_mirror_x.
Qed.

(** X5.  Left-right symmetry.  When the source is centred along x on the
    receiver, the field is symmetric under the reflection of the columns,
    [result[r][c] = result[r][N-1-c]], for any receiver and source sizes
    and any y placement.  In [incupsulation.py], where [(x, y)] is the
    source centre, this is the placement [x = l_r / 2]; in [main2.py],
    where [(x, y)] is the source corner, it is [x = (l_r - l_s) / 2]. *)
Theorem mirror_symmetry (p l_r h_r y R_ l_s h_s : R) (N r c : nat) :
  (r < N)%nat -> (c < N)%nat ->
  cell (Incupsulation.calculate_irradiance_extended_model
          p l_r h_r (l_r / 2) y R_ l_s h_s N) r c =
  cell (Incupsulation.calculate_irradiance_extended_model
          p l_r h_r (l_r / 2) y R_ l_s h_s N) r (N - 1 - c) /\
  cell (Main2.calculate_irradiance_vectorized
          p l_r h_r ((l_r - l_s) / 2) y R_ l_s h_s N) r c =
  cell (Main2.calculate_irradiance_vectorized
          p l_r h_r ((l_r - l_s) / 2) y R_ l_s h_s N) r (N - 1 - c).
Proof.
  intros Hr Hc. split; [| apply Main2_mirror; assumption].
  rewrite !extended_cell by lia.
  rewrite <- (accumulated_mirror p l_r h_r y R_ l_s h_s N r c Hr Hc).
  reflexivity.
Qed.

Lemma mirror_symmetry_witness :
  cell (Incupsulation.calculate_irradiance_extended_model
          500 100 60 (100 / 2) 7 500 1 3 30) 4 9 =
  cell (Incupsulation.calculate_irradiance_extended_model
          500 100 60 (100 / 2) 7 500 1 3 30) 4 (30 - 1 - 9).
Proof.
  apply (mirror_symmetry 500 100 60 7 500 1 3 30 4 9); lia.
Defined.

Lemma py_max_comm (a b : R) : py_max a b = py_max b a.
Proof.
  unfold py_max. destruct (Rlt_dec a b), (Rlt_dec b a); lra.
Qed.

(** X6.  Exchanging the roles of the two axes (receiver length with
    height, source length with height, x with y placement) transposes the
    field, in [main2.py] and in the extended model of
    [incupsulation.py]. *)
Theorem transpose_symmetry (p l_r h_r x y R_ l_s h_s : R) (N r c : nat) :
  (r < N)%nat -> (c < N)%nat ->
  cell (Main2.calculate_irradiance_vectorized p l_r h_r x y R_ l_s h_s N) r c =
  cell (Main2.calculate_irradiance_vectorized p h_r l_r y x R_ h_s l_s N) c r /\
  cell (Incupsulation.calculate_irradiance_extended_model
          p l_r h_r x y R_ l_s h_s N) r c =
  cell (Incupsulation.calculate_irradiance_extended_model
          p h_r l_r y x R_ h_s l_s N) c r.
Proof.
  intros Hr Hc. split.
  - rewrite !Main2_cell by assumption. f_equal.
    rewrite sum2_swap. apply sum2_ext. intros u v _ _.
    apply contribution_transpose.
  - rewrite !extended_cell by assumption.
    rewrite !accumulated_cell by assumption.
    unfold Incupsulation.size_correction.
    rewrite (py_max_comm h_s l_s).
    rewrite (I_i_geometry p h_s l_s y x l_s h_s x y).
    assert (Hsum :
      sum2 (fun u v =>
              Incupsulation.irradiance (Incupsulation.I_i p l_s h_s x y N) R_
                (nth c (linspace 0 l_r N) 0) (nth r (linspace 0 h_r N) 0) u v)
        (Incupsulation.x_s_points l_s x N) (Incupsulation.y_s_points h_s y N) =
      sum2 (fun u v =>
              Incupsulation.irradiance (Incupsulation.I_i p l_s h_s x y N) R_
                (nth r (linspace 0 h_r N) 0) (nth c (linspace 0 l_r N) 0) u v)
        (Incupsulation.x_s_points h_s y N) (Incupsulation.y_s_points l_s x N)).
    { rewrite sum2_swap. apply sum2_ext. intros u v _ _.
      apply irradiance_transpose. }
    rewrite Hsum. reflexivity.
Qed.

Lemma transpose_symmetry_witness :
  cell (Main2.calculate_irradiance_vectorized 50 100 60 3 7 30 1 10 20) 4 9 =
  cell (Main2.calculate_irradiance_vectorized 50 60 100 7 3 30 10 1 20) 9 4.
Proof.
  apply (transpose_symmetry 50 100 60 3 7 30 1 10 20 4 9); lia.
Defined.

Lemma contribution_even (I_i L_sr x_r y_r x_s y_s : R) :
  Main2.contribution I_i (- L_sr) x_r y_r x_s y_s =
  Main2.contribution I_i L_sr x_r y_r x_s y_s.
Proof.
  unfold Main2.contribution.
  replace ((- L_sr) ^ 2) with (L_sr ^ 2) by ring.
  unfold Rdiv. ring.
Qed.

(** X7.  [main2.py] and [interactive_app.py] do not look at the sign of the
    standoff: the field computed for [-R] is the field computed for
    [R]. *)
Theorem standoff_sign_ignored (p l_r h_r x y R_ l_s h_s : R) (N : nat) :
  Main2.calculate_irradiance_vectorized p l_r h_r x y (- R_) l_s h_s N =
  Main2.calculate_irradiance_vectorized p l_r h_r x y R_ l_s h_s N /\
  InteractiveApp.calculate_irradiance_vectorized p l_r h_r x y (- R_) l_s h_s N =
  InteractiveApp.calculate_irradiance_vectorized p l_r h_r x y R_ l_s h_s N.
Proof.
  assert (H : Main2.calculate_irradiance_vectorized
                p l_r h_r x y (- R_) l_s h_s N =
              Main2.calculate_irradiance_vectorized p l_r h_r x y R_ l_s h_s N).
  { apply (matrix_ext N N); try apply Main2_shape.
    intros r c Hr Hc. rewrite !Main2_cell by assumption. f_equal.
    apply sum2_ext. intros u v _ _. apply contribution_even. }
  split; [exact H |].
  apply (matrix_ext N N); try apply Interactive_shape.
  intros r c Hr Hc. rewrite !Interactive_cell by assumption. f_equal.
  apply sum2_ext. intros u v _ _. apply contribution_even.
Qed.

(** ** Where the source is sampled *)

Lemma linspace_shift (a b d : R) (n : nat) :
  linspace (a + d) (b + d) n = map (fun v => v + d) (linspace a b n).
Proof.
  destruct n as [| [| m]]; simpl; try reflexivity.
  f_equal.
  - unfold Rdiv. ring.
  - rewrite map_app, !map_map. simpl. f_equal.
    apply map_ext. intros i. unfold Rdiv. ring.
Qed.

Lemma linspace_in_range (a b : R) (n : nat) (v : R) :
  a <= b -> In v (linspace a b n) -> a <= v <= b.
Proof.
  intros Hab Hin. destruct n as [| [| m]].
  - contradiction.
  - simpl in Hin. destruct Hin as [<- | []]. lra.
  - apply (In_nth _ _ 0) in Hin. destruct Hin as (i & Hi & <-).
    rewrite linspace_length in Hi.
    rewrite linspace_nth by lia.
    replace (S (S m) - 1)%nat with (S m) by lia.
    assert (Hd : 0 < INR (S m)) by (apply lt_0_INR; lia).
    assert (Hi0 : 0 <= INR i) by apply pos_INR.
    assert (Hi1 : INR i <= INR (S m)) by (apply le_INR; lia).
    assert (Hq : 0 <= (b - a) / INR (S m)).
    { apply Rmult_le_pos; [lra | apply Rlt_le, Rinv_0_lt_compat, Hd]. }
    split.
    + pose proof (Rmult_le_pos _ _ Hi0 Hq). lra.
    + assert (INR i * ((b - a) / INR (S m)) <= INR (S m) * ((b - a) / INR (S m)))
        by (apply Rmult_le_compat_r; assumption).
      replace (INR (S m) * ((b - a) / INR (S m))) with (b - a) in H
        by (field; lra).
      lra.
Qed.

Lemma centred_points_as_corner (l_s x : R) (k : nat) :
  map (fun v => v + x) (linspace (- l_s / 2) (l_s / 2) k) =
  map (fun v => v + (x - l_s / 2)) (linspace 0 l_s k).
Proof.
  replace (- l_s / 2) with (0 + - (l_s / 2)) by field.
  replace (l_s / 2) with (l_s + - (l_s / 2)) at 2 by field.
  rewrite linspace_shift, map_map. apply map_ext. intros v. ring.
Qed.

(** X8.  The two conventions for the placement [(x, y)].  In
    [incupsulation.py] the source samples along x lie in
    [[x - l_s/2, x + l_s/2]] with both ends sampled: they are the samples
    [linspace(0, l_s, k) + x] that [main2.py] would take for the same
    count, moved by [- l_s/2].  In [main2.py] (and [interactive_app.py])
    they lie in [[x, x + l_s]] with both ends sampled. *)
Theorem source_sample_positions (l_s x : R) (N : nat) :
  0 <= l_s ->
  let k := Z.to_nat (Incupsulation.source_points_factor (Z.of_nat N)) in
  Incupsulation.x_s_points l_s x N =
    map (fun v => v + (x - l_s / 2)) (linspace 0 l_s k) /\
  (forall v, In v (Incupsulation.x_s_points l_s x N) ->
     x - l_s / 2 <= v <= x + l_s / 2) /\
  nth 0 (Incupsulation.x_s_points l_s x N) 0 = x - l_s / 2 /\
  nth (k - 1) (Incupsulation.x_s_points l_s x N) 0 = x + l_s / 2 /\
  (forall v, In v (map (fun v => v + x) (linspace 0 l_s N)) ->
     x <= v <= x + l_s) /\
  ((2 <= N)%nat ->
     nth 0 (map (fun v => v + x) (linspace 0 l_s N)) 0 = x /\
     nth (N - 1) (map (fun v => v + x) (linspace 0 l_s N)) 0 = x + l_s).
Proof.
  intros Hl k.
  pose proof (source_points_factor_bounds (Z.of_nat N)) as Hb.
  assert (Hk : (2 <= k)%nat) by (unfold k; lia).
  assert (Hshift : forall (d : R) (l : list R) (i : nat),
            (i < length l)%nat ->
            nth i (map (fun v => v + d) l) 0 = nth i l 0 + d).
  { intros d l i Hi.
    rewrite (nth_indep _ 0 ((fun v => v + d) 0)) by (rewrite length_map; exact Hi).
    apply (map_nth (fun v => v + d)). }
  split; [apply centred_points_as_corner |].
  split.
  { intros v Hin. unfold Incupsulation.x_s_points in Hin. fold k in Hin.
    apply in_map_iff in Hin. destruct Hin as (w & <- & Hw).
    apply linspace_in_range in Hw; lra. }
  split.
  { unfold Incupsulation.x_s_points. fold k.
    rewrite Hshift by (rewrite linspace_length; lia).
    rewrite linspace_first by lia. field. }
  split.
  { unfold Incupsulation.x_s_points. fold k.
    rewrite Hshift by (rewrite linspace_length; lia).
    rewrite linspace_last by lia. field. }
  split.
  { intros v Hin. apply in_map_iff in Hin. destruct Hin as (w & <- & Hw).
    apply linspace_in_range in Hw; lra. }
  intros HN. split.
  - rewrite Hshift by (rewrite linspace_length; lia).
    rewrite linspace_first by lia. ring.
  - rewrite Hshift by (rewrite linspace_length; lia).
    rewrite linspace_last by lia. ring.
Qed.

Lemma source_sample_positions_witness :
  Incupsulation.x_s_points 1 50 30 =
  map (fun v => v + (50 - 1 / 2))
    (linspace 0 1 (Z.to_nat (Incupsulation.source_points_factor (Z.of_nat 30)))).
Proof.
  apply (source_sample_positions 1 50 30). lra.
Defined.

(** ** The range handed to the colour normalisation *)

Ltac case_Rcmp :=
  unfold Rleb, Rltb;
  repeat match goal with
         | |- context [Rle_dec ?a ?b] => destruct (Rle_dec a b)
         | |- context [Rlt_dec ?a ?b] => destruct (Rlt_dec a b)
         end.

(** X9.  The range given to [TwoSlopeNorm] for a field with minimum
    [vmin <= vmax]: its centre is 1; it contains the data range and the
    value 1; when the data lie on one side of 1 it is widened to be
    symmetric about 1; and it is strictly increasing, as [TwoSlopeNorm]
    requires, exactly when neither the minimum nor the maximum of the data
    equals 1. *)
Theorem two_slope_bounds_range (vmin vmax : R) :
  vmin <= vmax ->
  let lo := fst (fst (two_slope_bounds vmin vmax)) in
  let vcenter := snd (fst (two_slope_bounds vmin vmax)) in
  let hi := snd (two_slope_bounds vmin vmax) in
  vcenter = 1 /\
  lo <= vmin /\ vmax <= hi /\ lo <= 1 <= hi /\
  (vmax < 1 \/ 1 < vmin -> 1 - lo = hi - 1) /\
  (vmin <= 1 <= vmax -> lo = vmin /\ hi = vmax) /\
  (lo < 1 < hi <-> vmin <> 1 /\ vmax <> 1).
Proof.
  intros Hle. unfold two_slope_bounds. case_Rcmp; simpl;
    repeat split; intros; try lra;
    try (match goal with H : _ /\ _ |- _ => destruct H end; lra);
    try (match goal with H : _ \/ _ |- _ => destruct H end; lra).
Qed.

Lemma two_slope_bounds_range_witness :
  fst (fst (two_slope_bounds 0.2 0.7)) <= 0.2 /\
  0.7 <= snd (two_slope_bounds 0.2 0.7) /\
  1 - fst (fst (two_slope_bounds 0.2 0.7)) = snd (two_slope_bounds 0.2 0.7) - 1.
Proof.
  assert (H : 0.2 <= 0.7) by lra.
  pose proof (two_slope_bounds_range 0.2 0.7 H) as (_ & H1 & H2 & _ & H4 & _).
  split; [exact H1 |]. split; [exact H2 |].
  apply H4. left. lra.
Defined.

(** ** Minimum, maximum and position of the maximum *)

Lemma nth_concat (n m : nat) (A : matrix) (idx : nat) :
  shape n m A -> (idx < n * m)%nat ->
  nth idx (concat A) 0 = cell A (idx / m) (idx mod m).
Proof.
  revert n idx. induction A as [| row A IH]; intros n idx [Hn Hrows] Hidx.
  - simpl in Hn. subst n. simpl in Hidx. lia.
  - inversion Hrows as [| ? ? Hrow Hrest]; subst.
    assert (Hm : (0 < length row)%nat) by (simpl in Hidx; lia).
    simpl concat.
    destruct (Nat.lt_ge_cases idx (length row)) as [Hlt | Hge].
    + rewrite app_nth1 by exact Hlt.
      rewrite Nat.div_small, Nat.mod_small by exact Hlt. reflexivity.
    + rewrite app_nth2 by exact Hge.
      rewrite (IH (length A) (idx - length row)%nat (conj eq_refl Hrest))
        by (simpl in Hidx; lia).
      replace idx with ((idx - length row) + 1 * length row)%nat at 3 4 by lia.
      rewrite Nat.div_add, Nat.Div0.mod_add by lia.
      unfold cell. rewrite Nat.add_1_r. reflexivity.
Qed.

Lemma concat_length_shape (n m : nat) (A : matrix) :
  shape n m A -> length (concat A) = (n * m)%nat.
Proof.
  revert n. induction A as [| row A IH]; intros n [Hn Hrows].
  - simpl in *. subst n. reflexivity.
  - inversion Hrows as [| ? ? Hrow Hrest]; subst. simpl.
    rewrite length_app, (IH (length A) (conj eq_refl Hrest)). reflexivity.
Qed.

Lemma cell_in_concat (n m : nat) (A : matrix) (r c : nat) :
  shape n m A -> (r < n)%nat -> (c < m)%nat ->
  exists idx, (idx < n * m)%nat /\ cell A r c = nth idx (concat A) 0.
Proof.
  intros HA Hr Hc. exists (r * m + c)%nat.
  assert (Hidx : (r * m + c < n * m)%nat) by nia.
  split; [exact Hidx |].
  rewrite (nth_concat n m) by assumption.
  assert (Hd : ((r * m + c) / m = r)%nat).
  { rewrite Nat.div_add_l by lia. rewrite Nat.div_small by lia. lia. }
  assert (Hmo : ((r * m + c) mod m = c)%nat).
  { rewrite (Nat.add_comm (r * m) c), Nat.Div0.mod_add.
    apply Nat.mod_small. lia. }
  rewrite Hd, Hmo. reflexivity.
Qed.

Lemma fold_Rmin_spec (t : list R) (a : R) :
  (forall j, (j < length (a :: t))%nat ->
     fold_left Rmin t a <= nth j (a :: t) 0) /\
  In (fold_left Rmin t a) (a :: t).
Proof.
  revert a. induction t as [| b t IH]; intros a.
  - split; [| left; reflexivity].
    intros [| j] Hj; simpl in *; [lra | lia].
  - simpl fold_left. destruct (IH (Rmin a b)) as [Hle Hin]. split.
    + intros [| [| j]] Hj.
      * pose proof (Hle 0%nat). simpl in H.
        pose proof (Rmin_l a b). simpl. specialize (H ltac:(lia)). lra.
      * pose proof (Hle 0%nat). simpl in H.
        pose proof (Rmin_r a b). simpl. specialize (H ltac:(lia)). lra.
      * apply (Hle (S j)). simpl in *. lia.
    + destruct Hin as [Heq | Hin].
      * rewrite <- Heq. unfold Rmin. destruct (Rle_dec a b); simpl; auto.
      * simpl. auto.
Qed.

Lemma fold_Rmax_spec (t : list R) (a : R) :
  (forall j, (j < length (a :: t))%nat ->
     nth j (a :: t) 0 <= fold_left Rmax t a) /\
  In (fold_left Rmax t a) (a :: t).
Proof.
  revert a. induction t as [| b t IH]; intros a.
  - split; [| left; reflexivity].
    intros [| j] Hj; simpl in *; [lra | lia].
  - simpl fold_left. destruct (IH (Rmax a b)) as [Hle Hin]. split.
    + intros [| [| j]] Hj.
      * pose proof (Hle 0%nat). simpl in H.
        pose proof (Rmax_l a b). simpl. specialize (H ltac:(lia)). lra.
      * pose proof (Hle 0%nat). simpl in H.
        pose proof (Rmax_r a b). simpl. specialize (H ltac:(lia)). lra.
      * apply (Hle (S j)). simpl in *. lia.
    + destruct Hin as [Heq | Hin].
      * rewrite <- Heq. unfold Rmax. destruct (Rle_dec a b); simpl; auto.
      * simpl. auto.
Qed.

(** On an array with at least one entry, [np.min] and [np.max] return an
    entry of the array that bounds every cell. *)
Lemma np_min_max_spec (n m : nat) (A : matrix) :
  shape n m A -> (1 <= n)%nat -> (1 <= m)%nat ->
  exists mn mx r1 c1 r2 c2,
    np_min A = Some mn /\ np_max A = Some mx /\
    (r1 < n)%nat /\ (c1 < m)%nat /\ mn = cell A r1 c1 /\
    (r2 < n)%nat /\ (c2 < m)%nat /\ mx = cell A r2 c2 /\
    forall r c, (r < n)%nat -> (c < m)%nat -> mn <= cell A r c <= mx.
Proof.
  intros HA Hn Hm.
  pose proof (concat_length_shape n m A HA) as Hlen.
  unfold np_min, np_max.
  destruct (concat A) as [| a t] eqn:Hc; [simpl in Hlen; nia |].
  destruct (fold_Rmin_spec t a) as [Hmin_le Hmin_in].
  destruct (fold_Rmax_spec t a) as [Hmax_le Hmax_in].
  apply (In_nth _ _ 0) in Hmin_in. destruct Hmin_in as (i1 & Hi1 & Hv1).
  apply (In_nth _ _ 0) in Hmax_in. destruct Hmax_in as (i2 & Hi2 & Hv2).
  rewrite Hlen in Hi1, Hi2.
  assert (Hdiv : forall i, (i < n * m)%nat -> (i / m < n)%nat /\ (i mod m < m)%nat).
  { intros i Hi. split.
    - apply Nat.Div0.div_lt_upper_bound. lia.
    - apply Nat.mod_upper_bound. lia. }
  exists (fold_left Rmin t a), (fold_left Rmax t a),
    (i1 / m)%nat, (i1 mod m)%nat, (i2 / m)%nat, (i2 mod m)%nat.
  split; [reflexivity |]. split; [reflexivity |].
  split; [apply Hdiv, Hi1 |]. split; [apply Hdiv, Hi1 |].
  split; [rewrite <- Hv1, <- Hc; apply (nth_concat n m); assumption |].
  split; [apply Hdiv, Hi2 |]. split; [apply Hdiv, Hi2 |].
  split; [rewrite <- Hv2, <- Hc; apply (nth_concat n m); assumption |].
  intros r c Hr Hcc.
  destruct (cell_in_concat n m A r c HA Hr Hcc) as (idx & Hidx & Hcell).
  rewrite Hcell, Hc. split.
  - apply Hmin_le. rewrite Hlen. exact Hidx.
  - apply Hmax_le. rewrite Hlen. exact Hidx.
Qed.

(** X10.  The statistics shown for the field of [incupsulation.py].  With
    [P > 0], [L > 0] and at least one grid point the minimum is positive,
    so the guard [min_irradiance > 0] holds and the ratio of maximum to
    minimum is shown; it is at least 1, and minimum and maximum are cells
    of the field that bound every cell.  With [accuracy = 0] the field has
    no entry and [np.min] raises. *)
Theorem field_statistics (p l_r h_r x y R_ l_s h_s : R) (N : nat) :
  let result_array :=
    Incupsulation.calculate_irradiance_extended_model p l_r h_r x y R_ l_s h_s N in
  (N = 0%nat -> np_min result_array = None /\ np_max result_array = None) /\
  ((1 <= N)%nat -> 0 < p -> 0 < R_ ->
   exists min_irradiance max_irradiance,
     np_min result_array = Some min_irradiance /\
     np_max result_array = Some max_irradiance /\
     0 < min_irradiance <= max_irradiance /\
     (forall r c, (r < N)%nat -> (c < N)%nat ->
        min_irradiance <= cell result_array r c <= max_irradiance) /\
     irradiance_ratio result_array = Some (max_irradiance / min_irradiance) /\
     1 <= max_irradiance / min_irradiance).
Proof.
  intros result_array. split.
  - intros ->. subst result_array.
    pose proof (extended_shape p l_r h_r x y R_ l_s h_s 0) as [Hlen _].
    apply length_zero_iff_nil in Hlen. rewrite Hlen. split; reflexivity.
  - intros HN Hp HL.
    pose proof (extended_shape p l_r h_r x y R_ l_s h_s N) as Hsh.
    fold result_array in Hsh.
    destruct (np_min_max_spec N N result_array Hsh HN HN)
      as (mn & mx & r1 & c1 & r2 & c2 & Hmin & Hmax & Hr1 & Hc1 & Hmn
          & Hr2 & Hc2 & Hmx & Hbounds).
    assert (Hpos : 0 < mn).
    { rewrite Hmn. apply extended_cell_pos; assumption. }
    assert (Hle : mn <= mx).
    { destruct (Hbounds r1 c1 Hr1 Hc1) as [_ H]. rewrite <- Hmn in H. exact H. }
    exists mn, mx.
    split; [exact Hmin |]. split; [exact Hmax |].
    split; [split; assumption |]. split; [exact Hbounds |].
    split.
    + unfold irradiance_ratio. rewrite Hmin, Hmax. unfold Rltb.
      destruct (Rlt_dec 0 mn); [reflexivity | contradiction].
    + apply (Rmult_le_reg_r mn); [exact Hpos |].
      replace (mx / mn * mn) with mx by (field; lra). lra.
Qed.

Lemma field_statistics_witness :
  np_min (Incupsulation.calculate_irradiance_extended_model
            500 100 100 50 50 500 1 1 0) = None /\
  exists min_irradiance max_irradiance,
    np_min (Incupsulation.calculate_irradiance_extended_model
              500 100 100 50 50 500 1 1 30) = Some min_irradiance /\
    np_max (Incupsulation.calculate_irradiance_extended_model
              500 100 100 50 50 500 1 1 30) = Some max_irradiance /\
    0 < min_irradiance <= max_irradiance.
Proof.
  split.
  - apply (proj1 (field_statistics 500 100 100 50 50 500 1 1 0) eq_refl).
  - assert (HN : (1 <= 30)%nat) by lia.
    assert (Hp : 0 < 500) by lra.
    destruct (proj2 (field_statistics 500 100 100 50 50 500 1 1 30) HN Hp Hp)
      as (mn & mx & H1 & H2 & H3 & _).
    exists mn, mx. split; [exact H1 |]. split; [exact H2 | exact H3].
Defined.

Lemma argmax_from_spec (t pre : list R) (best_i : nat) (best : R) :
  (best_i < length pre)%nat -> nth best_i pre 0 = best ->
  (forall j, (j < length pre)%nat -> nth j pre 0 <= best) ->
  (forall j, (j < best_i)%nat -> nth j pre 0 < best) ->
  let k := argmax_from t (length pre) best_i best in
  (k < length (pre ++ t))%nat /\
  (forall j, (j < length (pre ++ t))%nat ->
     nth j (pre ++ t) 0 <= nth k (pre ++ t) 0) /\
  (forall j, (j < k)%nat -> nth j (pre ++ t) 0 < nth k (pre ++ t) 0).
Proof.
  revert pre best_i best.
  induction t as [| a t IH]; intros pre best_i best Hbi Hnth Hle Hlt; simpl.
  - rewrite app_nil_r. rewrite Hnth. repeat split; assumption.
  - assert (Hlen : length (pre ++ [a]) = S (length pre))
      by (rewrite length_app; simpl; lia).
    replace (pre ++ a :: t) with ((pre ++ [a]) ++ t)
      by (rewrite <- app_assoc; reflexivity).
    destruct (Rlt_dec best a) as [Hba | Hba].
    + rewrite <- Hlen. apply IH.
      * rewrite Hlen. lia.
      * rewrite app_nth2 by lia. rewrite Nat.sub_diag. reflexivity.
      * intros j Hj. rewrite Hlen in Hj.
        destruct (Nat.eq_dec j (length pre)) as [-> | Hne].
        -- rewrite app_nth2 by lia. rewrite Nat.sub_diag. simpl. lra.
        -- rewrite app_nth1 by lia. specialize (Hle j ltac:(lia)). lra.
      * intros j Hj. rewrite app_nth1 by lia.
        specialize (Hle j Hj). lra.
    + rewrite <- Hlen. apply IH.
      * rewrite Hlen. lia.
      * rewrite app_nth1 by lia. exact Hnth.
      * intros j Hj. rewrite Hlen in Hj.
        destruct (Nat.eq_dec j (length pre)) as [-> | Hne].
        -- rewrite app_nth2 by lia. rewrite Nat.sub_diag. simpl. lra.
        -- rewrite app_nth1 by lia. apply Hle. lia.
      * intros j Hj. rewrite app_nth1 by lia. apply Hlt. exact Hj.
Qed.

Lemma array_shape_spec (n m : nat) (A : matrix) :
  shape n m A -> (1 <= n)%nat -> array_shape A = (n, m).
Proof.
  intros [Hn Hrows] H1. unfold array_shape.
  destruct A as [| row A]; [simpl in Hn; lia |].
  inversion Hrows; subst. reflexivity.
Qed.

(** X11.  The position reported for the maximum.  For a field on an [N]
    by [N] grid with [N >= 2], [np.argmax] with [np.unravel_index] yields a
    row and a column inside the grid whose cell no cell exceeds, the first
    such cell in row-major order, and the reported coordinates are those
    of that receiver grid point: [max_x = x_r[column]], [max_y = y_r[row]]. *)
Theorem max_position_on_grid (result_array : matrix) (l_r h_r : R) (N : nat) :
  shape N N result_array -> (2 <= N)%nat ->
  exists row col : nat,
    (row < N)%nat /\ (col < N)%nat /\
    np_argmax result_array = Some (row * N + col)%nat /\
    np_max result_array = Some (cell result_array row col) /\
    (forall r c, (r < N)%nat -> (c < N)%nat ->
       cell result_array r c <= cell result_array row col) /\
    (forall r c, (r < N)%nat -> (c < N)%nat ->
       (r * N + c < row * N + col)%nat ->
       cell result_array r c < cell result_array row col) /\
    max_position result_array l_r h_r N =
      Some (nth col (linspace 0 l_r N) 0, nth row (linspace 0 h_r N) 0).
Proof.
  intros HA HN.
  pose proof (concat_length_shape N N result_array HA) as Hlen.
  destruct (np_min_max_spec N N result_array HA ltac:(lia) ltac:(lia))
    as (mn & mx & r1 & c1 & r2 & c2 & _ & Hmax & _ & _ & _
        & Hr2 & Hc2 & Hmx & Hbounds).
  unfold np_argmax, max_position, np_argmax.
  destruct (concat result_array) as [| a t] eqn:Hc; [simpl in Hlen; nia |].
  assert (Hspec :
    (argmax_from t 1 0 a < length (a :: t))%nat /\
    (forall j, (j < length (a :: t))%nat ->
       nth j (a :: t) 0 <= nth (argmax_from t 1 0 a) (a :: t) 0) /\
    (forall j, (j < argmax_from t 1 0 a)%nat ->
       nth j (a :: t) 0 < nth (argmax_from t 1 0 a) (a :: t) 0)).
  { apply (argmax_from_spec t [a] 0 a).
    - simpl. lia.
    - reflexivity.
    - intros [| j] Hj; simpl in *; [lra | lia].
    - intros j Hj. lia. }
  destruct Hspec as (Hk & Hkmax & Hkfirst).
  set (k := argmax_from t 1 0 a) in *.
  rewrite Hlen in Hk.
  assert (Hrow : (k / N < N)%nat) by (apply Nat.Div0.div_lt_upper_bound; lia).
  assert (Hcol : (k mod N < N)%nat) by (apply Nat.mod_upper_bound; lia).
  assert (Hkeq : (k / N * N + k mod N = k)%nat).
  { pose proof (Nat.div_mod_eq k N). lia. }
  assert (Hcellk : cell result_array (k / N) (k mod N) = nth k (a :: t) 0).
  { rewrite <- Hc. symmetry. apply (nth_concat N N); assumption. }
  assert (Hall : forall r c, (r < N)%nat -> (c < N)%nat ->
            cell result_array r c <= cell result_array (k / N) (k mod N)).
  { intros r c Hr Hcc.
    destruct (cell_in_concat N N result_array r c HA Hr Hcc)
      as (idx & Hidx & Hcell).
    rewrite Hcell, Hcellk, Hc. apply Hkmax. rewrite Hlen. exact Hidx. }
  exists (k / N)%nat, (k mod N)%nat.
  split; [exact Hrow |]. split; [exact Hcol |].
  split; [rewrite Hkeq; reflexivity |].
  split.
  { rewrite Hmax. f_equal. apply Rle_antisym.
    - rewrite Hmx. apply Hall; assumption.
    - apply Hbounds; assumption. }
  split; [exact Hall |].
  split.
  { intros r c Hr Hcc Hlt. rewrite Hkeq in Hlt.
    assert (Hidx : (r * N + c < N * N)%nat) by nia.
    pose proof (nth_concat N N result_array (r * N + c) HA Hidx) as Hn.
    assert (Hd : ((r * N + c) / N = r)%nat).
    { rewrite Nat.div_add_l by lia. rewrite Nat.div_small by lia. lia. }
    assert (Hmo : ((r * N + c) mod N = c)%nat).
    { rewrite (Nat.add_comm (r * N) c), Nat.Div0.mod_add.
      apply Nat.mod_small. lia. }
    rewrite Hd, Hmo in Hn. rewrite <- Hn, Hcellk, Hc.
    apply Hkfirst. exact Hlt. }
  rewrite (array_shape_spec N N) by (assumption || lia).
  unfold unravel_index. simpl fst. simpl snd.
  assert (Hb : (1 <? N)%nat = true) by (apply Nat.ltb_lt; lia).
  rewrite Hb. rewrite !linspace_nth by lia.
  replace (INR (k mod N) * ((l_r - 0) / INR (N - 1)) + 0)
    with (INR (k mod N) * (l_r / INR (N - 1))) by (unfold Rdiv; ring).
  replace (INR (k / N) * ((h_r - 0) / INR (N - 1)) + 0)
    with (INR (k / N) * (h_r / INR (N - 1))) by (unfold Rdiv; ring).
  reflexivity.
Qed.

Lemma max_position_on_grid_witness :
  exists row col : nat,
    (row < 2)%nat /\ (col < 2)%nat /\
    np_argmax [[1; 3]; [3; 2]] = Some (row * 2 + col)%nat /\
    max_position [[1; 3]; [3; 2]] 10 20 2 =
      Some (nth col (linspace 0 10 2) 0, nth row (linspace 0 20 2) 0).
Proof.
  assert (Hs : shape 2 2 [[1; 3]; [3; 2]]).
  { split; [reflexivity |]. repeat constructor. }
  assert (H2 : (2 <= 2)%nat) by lia.
  destruct (max_position_on_grid [[1; 3]; [3; 2]] 10 20 2 Hs H2)
    as (row & col & Hr & Hc & Ha & _ & _ & _ & Hp).
  exists row, col. repeat split; assumption.
Defined.

(** ** Contour levels and logarithmic range *)

(** X12.  Whenever [update_display] draws contours the data satisfy
    [0 < min < max], and the four levels [levels[1:-1]] it then passes to
    [contour] in the linear and power modes split the range in fifths:
    they are strictly increasing and strictly inside the range.  The lower
    bound given to [LogNorm] is then positive, and is the minimum itself
    as soon as that is at least [1e-10]. *)
Theorem contour_levels_increasing (accuracy : nat) (vmin vmax : R) :
  draws_contours accuracy vmin vmax = true ->
  (accuracy <= 50)%nat /\ 0 < vmin < vmax /\
  contour_levels vmin vmax =
    [vmin + (vmax - vmin) / 5; vmin + 2 * ((vmax - vmin) / 5);
     vmin + 3 * ((vmax - vmin) / 5); vmin + 4 * ((vmax - vmin) / 5)] /\
  (forall i j, (i < j < 4)%nat ->
     nth i (contour_levels vmin vmax) 0 < nth j (contour_levels vmin vmax) 0) /\
  (forall v, In v (contour_levels vmin vmax) -> vmin < v < vmax) /\
  0 < log_norm_vmin vmin /\ (1e-10 <= vmin -> log_norm_vmin vmin = vmin).
Proof.
  unfold draws_contours, Rltb. intros H.
  destruct (Nat.leb_spec accuracy 50) as [Hacc |]; [| discriminate].
  destruct (Rlt_dec vmin vmax) as [Hlt |]; [| discriminate].
  destruct (Rlt_dec 0 vmin) as [Hpos |]; [| discriminate].
  assert (Hlev : contour_levels vmin vmax =
    [vmin + (vmax - vmin) / 5; vmin + 2 * ((vmax - vmin) / 5);
     vmin + 3 * ((vmax - vmin) / 5); vmin + 4 * ((vmax - vmin) / 5)]).
  { unfold contour_levels. simpl.
    f_equal; [lra |]. f_equal; [lra |]. f_equal; [lra |]. f_equal. lra. }
  split; [exact Hacc |]. split; [lra |]. split; [exact Hlev |].
  rewrite Hlev. split; [| split; [| split]].
  - intros i j Hij.
    destruct i as [| [| [| [| i]]]], j as [| [| [| [| j]]]]; simpl; lra || lia.
  - intros v [<- | [<- | [<- | [<- | []]]]]; lra.
  - unfold log_norm_vmin, py_max. destruct (Rlt_dec 1e-10 vmin); lra.
  - intros Hbig. unfold log_norm_vmin, py_max.
    destruct (Rlt_dec 1e-10 vmin); lra.
Qed.

Lemma contour_levels_increasing_witness :
  nth 1 (contour_levels 1 6) 0 < nth 2 (contour_levels 1 6) 0 /\
  contour_levels 1 6 =
    [1 + (6 - 1) / 5; 1 + 2 * ((6 - 1) / 5);
     1 + 3 * ((6 - 1) / 5); 1 + 4 * ((6 - 1) / 5)].
Proof.
  assert (H : draws_contours 30 1 6 = true).
  { unfold draws_contours, Rltb.
    destruct (Rlt_dec 1 6); [| lra]. destruct (Rlt_dec 0 1); [| lra].
    reflexivity. }
  destruct (contour_levels_increasing 30 1 6 H) as (_ & _ & Hl & Hi & _).
  split; [apply Hi; lia | exact Hl].
Defined.

(** ** Falloff of the kernels and the point-source limit *)

(** X13.  Both kernels fall off with the planar distance between source
    sample and receiver point: for [I_i >= 0] and [L > 0], a pair whose
    offset [(dx', dy')] is at least as long as [(dx, dy)] contributes no
    more.  Straight above the receiver point ([dx = dy = 0]) both
    contribute exactly [I_i / L²], their largest value. *)
Theorem kernel_falloff (I_i L_sr x_r y_r x_s y_s x_r' y_r' x_s' y_s' : R) :
  0 <= I_i -> 0 < L_sr ->
  (x_r - x_s) ^ 2 + (y_r - y_s) ^ 2 <= (x_r' - x_s') ^ 2 + (y_r' - y_s') ^ 2 ->
  Main2.contribution I_i L_sr x_r' y_r' x_s' y_s' <=
    Main2.contribution I_i L_sr x_r y_r x_s y_s /\
  Incupsulation.irradiance I_i L_sr x_r' y_r' x_s' y_s' <=
    Incupsulation.irradiance I_i L_sr x_r y_r x_s y_s /\
  Main2.contribution I_i L_sr x_s y_s x_s y_s = I_i / L_sr ^ 2 /\
  Incupsulation.irradiance I_i L_sr x_s y_s x_s y_s = I_i / L_sr ^ 2 /\
  MainPy.ps_from_point x_s y_s x_s y_s 0 0 L_sr I_i = I_i / L_sr ^ 2.
Proof.
  intros HI HL Hd.
  pose proof (sq_sum_pos (x_r - x_s) (y_r - y_s) L_sr HL) as H1.
  pose proof (sq_sum_pos (x_r' - x_s') (y_r' - y_s') L_sr HL) as H2.
  assert (HL2 : 0 < L_sr ^ 2) by (apply pow_lt; exact HL).
  set (d := (x_r - x_s) ^ 2 + (y_r - y_s) ^ 2 + L_sr ^ 2) in *.
  set (d' := (x_r' - x_s') ^ 2 + (y_r' - y_s') ^ 2 + L_sr ^ 2) in *.
  assert (Hdd : d <= d') by (unfold d, d'; lra).
  assert (Hinv : / d' <= / d) by (apply Rinv_le_contravar; assumption).
  assert (Hinv0 : 0 < / d') by (apply Rinv_0_lt_compat; exact H2).
  split; [| split; [| split; [| split]]].
  - rewrite !contribution_inverse_square by exact HL. fold d d'.
    unfold Rdiv. apply Rmult_le_compat_l; assumption.
  - rewrite !irradiance_closed_form by exact HL. fold d d'.
    unfold Rdiv. apply Rmult_le_compat_l.
    + apply Rmult_le_pos; lra.
    + apply Rinv_le_contravar; [apply pow_lt; exact H1 |].
      apply pow_incr. lra.
  - rewrite contribution_inverse_square by exact HL. f_equal. ring.
  - rewrite irradiance_closed_form by exact HL. field. lra.
  - rewrite ps_from_point_inverse_square by exact HL. f_equal. ring.
Qed.

Lemma kernel_falloff_witness :
  Main2.contribution 1 30 5 0 0 0 <= Main2.contribution 1 30 3 0 0 0 /\
  Incupsulation.irradiance 1 30 5 0 0 0 <= Incupsulation.irradiance 1 30 3 0 0 0.
Proof.
  assert (H : (3 - 0) ^ 2 + (0 - 0) ^ 2 <= (5 - 0) ^ 2 + (0 - 0) ^ 2) by lra.
  assert (HI : 0 <= 1) by lra.
  assert (HL : 0 < 30) by lra.
  destruct (kernel_falloff 1 30 3 0 0 0 5 0 0 0 HI HL H) as (H1 & H2 & _).
  split; assumption.
Defined.

Lemma Rsum_map_const {S : Type} (f : S -> R) (v : R) (l : list S) :
  (forall s, In s l -> f s = v) -> Rsum (map f l) = INR (length l) * v.
Proof.
  intros H. induction l as [| a l IH].
  - simpl. ring.
  - cbn [map Rsum fold_right length]. rewrite S_INR.
    rewrite (H a) by (simpl; auto).
    unfold Rsum in IH. rewrite IH by (intros; apply H; simpl; auto). ring.
Qed.

Lemma sum2_const (f : R -> R -> R) (w : R) (us vs : list R) :
  (forall u v, In u us -> In v vs -> f u v = w) ->
  sum2 f us vs = INR (length us) * (INR (length vs) * w).
Proof.
  intros H. unfold sum2.
  apply (Rsum_map_const (fun u => Rsum (map (fun v => f u v) vs))).
  intros u Hu. apply (Rsum_map_const (fun v => f u v)).
  intros v Hv. apply H; assumption.
Qed.

Lemma linspace_degenerate (a : R) (n : nat) (v : R) :
  In v (linspace a a n) -> v = a.
Proof.
  intros H. apply linspace_in_range in H; lra.
Qed.

(** X14.  Point-source limit.  With a source of zero length and height all
    source samples coincide and, for [L > 0], the field is that of one
    point source of the whole power: the extended model of
    [incupsulation.py] gives [(P / pi) * L² / r⁴] at every receiver point,
    uncorrected, and [main2.py] gives [(P / pi) / r² / 0.005], where [r²]
    is the squared distance from the receiver point to the point at
    height [L] above [(x, y)]. *)
Theorem point_source_field (p l_r h_r x y R_ : R) (N r c : nat) :
  0 < R_ -> (r < N)%nat -> (c < N)%nat ->
  let x_r := nth c (linspace 0 l_r N) 0 in
  let y_r := nth r (linspace 0 h_r N) 0 in
  let r2 := (x_r - x) ^ 2 + (y_r - y) ^ 2 + R_ ^ 2 in
  cell (Incupsulation.calculate_irradiance_extended_model
          p l_r h_r x y R_ 0 0 N) r c = p / PI * R_ ^ 2 / r2 ^ 2 /\
  cell (Main2.calculate_irradiance_vectorized p l_r h_r x y R_ 0 0 N) r c =
    p / PI / r2 / 0.005.
Proof.
  intros HL Hr Hc x_r y_r r2.
  pose proof PI_RGT_0 as Hpi.
  pose proof (sq_sum_pos (x_r - x) (y_r - y) R_ HL) as Hr2. fold r2 in Hr2.
  assert (HN : 0 < INR N) by (apply lt_0_INR; lia).
  split.
  - rewrite extended_cell by assumption.
    unfold py_max. destruct (Rlt_dec 0 0) as [H00 | _]; [lra |].
    destruct (Rlt_dec R_ (0 * 10)) as [Hbad | _]; [lra |].
    rewrite accumulated_cell by assumption. fold x_r y_r.
    pose proof (source_points_factor_bounds (Z.of_nat N)) as Hb.
    set (k := Z.to_nat (Incupsulation.source_points_factor (Z.of_nat N))) in *.
    assert (Hk : 0 < INR k) by (apply lt_0_INR; unfold k; lia).
    rewrite (sum2_const _
               (Incupsulation.irradiance (Incupsulation.I_i p 0 0 x y N) R_
                  x_r y_r x y)).
    + rewrite x_s_points_length, y_s_points_length. fold k.
      rewrite irradiance_closed_form by exact HL. fold r2.
      unfold Incupsulation.I_i, Incupsulation.power_per_point,
        Incupsulation.num_source_points.
      rewrite x_s_points_length, y_s_points_length. fold k.
      rewrite mult_INR. field. repeat split; lra.
    + intros u v Hu Hv.
      unfold Incupsulation.x_s_points in Hu.
      unfold Incupsulation.y_s_points in Hv.
      apply in_map_iff in Hu. destruct Hu as (u0 & <- & Hu0).
      apply in_map_iff in Hv. destruct Hv as (v0 & <- & Hv0).
      replace (- 0 / 2) with (0 / 2) in Hu0, Hv0 by field.
      apply linspace_degenerate in Hu0. apply linspace_degenerate in Hv0.
      subst u0 v0. f_equal; field.
  - rewrite Main2_cell by assumption. fold x_r y_r. f_equal.
    rewrite (sum2_const _
               (Main2.contribution (p / (PI * INR N ^ 2)) R_ x_r y_r x y)).
    + rewrite !length_map, !linspace_length.
      rewrite contribution_inverse_square by exact HL. fold r2.
      field. repeat split; lra.
    + intros u v Hu Hv.
      apply in_map_iff in Hu. destruct Hu as (u0 & <- & Hu0).
      apply in_map_iff in Hv. destruct Hv as (v0 & <- & Hv0).
      apply linspace_degenerate in Hu0. apply linspace_degenerate in Hv0.
      subst u0 v0. f_equal; ring.
Qed.

Lemma point_source_field_witness :
  cell (Main2.calculate_irradiance_vectorized 50 100 100 50 50 30 0 0 20) 0 0 =
  50 / PI /
  ((nth 0 (linspace 0 100 20) 0 - 50) ^ 2 +
   (nth 0 (linspace 0 100 20) 0 - 50) ^ 2 + 30 ^ 2) / 0.005.
Proof.
  apply (point_source_field 50 100 100 50 50 30 20 0 0); lra || lia.
Defined.

(** ** [main.py]: the normalised array *)

Lemma stepped_source_length (l_s : R) (N : nat) :
  length (stepped_source l_s N) = N.
Proof.
  unfold stepped_source. rewrite length_map, length_seq. reflexivity.
Qed.



(** ** [incupsulation.py]: the sliders and the solver *)

Lemma py_int_range (v : R) (a b : Z) :
  0 <= IZR a -> IZR a <= v <= IZR b -> (a <= py_int v <= b)%Z.
Proof.
  intros Ha [Hav Hvb]. unfold py_int.
  destruct (Rle_dec 0 v) as [_ | Hneg]; [| lra].
  destruct (base_Int_part v) as [Hle Hgt]. split.
  - assert (H : (a - 1 < Int_part v)%Z)
      by (apply lt_IZR; rewrite minus_IZR; lra).
    lia.
  - apply le_IZR. lra.
Qed.

(** X16.  What moving the sliders computes.  Whatever values the nine
    sliders hold inside their ranges, [on_slider_change] finds every key it
    reads, copies the values into the object with [accuracy = int(value)]
    between 20 and 80 (its test [new_accuracy <= 50] changes nothing), and
    [update] stores the field of the extended model.  In these ranges the
    standoff is at least 200 and no source side exceeds 20, so the
    small-distance correction is never applied: the stored field is the
    accumulated one; its minimum is positive. *)
Theorem sliders_drive_uncorrected_field (s : App.state) (vals : list R) :
  length vals = 9%nat ->
  Forall (fun kv => in_range (snd kv)) (App.set_vals (App.create_sliders s) vals) ->
  exists s' : App.state,
    App.on_slider_change (App.set_vals (App.create_sliders s) vals) s = inr s' /\
    [App.p s'; App.x s'; App.y s'; App.R_ s'; App.l_s s'; App.h_s s';
     App.l_r s'; App.h_r s'] = firstn 8 vals /\
    App.accuracy s' = py_int (nth 8 vals 0) /\
    (20 <= App.accuracy s' <= 80)%Z /\
    App.result_array s' =
      Some (Incupsulation.accumulated_field
              (App.p s') (App.l_r s') (App.h_r s') (App.x s') (App.y s')
              (App.R_ s') (App.l_s s') (App.h_s s')
              (Z.to_nat (App.accuracy s'))) /\
    0 < App.min_irradiance s' <= App.max_irradiance s'.
Proof.
  intros Hlen Hrange.
  destruct vals as [| v_power [| v_x [| v_y [| v_z [| v_ls [| v_hs
    [| v_lr [| v_hr [| v_acc [| ? ?]]]]]]]]]]; try discriminate.
  unfold App.set_vals, App.create_sliders in Hrange. simpl in Hrange.
  repeat match goal with
         | H : Forall _ (_ :: _) |- _ =>
             let H1 := fresh "Hr" in
             let H2 := fresh "Hrest" in
             inversion H as [| ? ? H1 H2]; subst; clear H
         end.
  unfold in_range in *. simpl in *.
  assert (Hacc : (20 <= py_int v_acc <= 80)%Z)
    by (apply py_int_range; lra).
  set (N := Z.to_nat (py_int v_acc)).
  assert (HN : (1 <= N)%nat) by (unfold N; lia).
  assert (Hnocorr :
    Incupsulation.calculate_irradiance_extended_model
      v_power v_lr v_hr v_x v_y v_z v_ls v_hs N =
    Incupsulation.accumulated_field v_power v_lr v_hr v_x v_y v_z v_ls v_hs N).
  { unfold Incupsulation.calculate_irradiance_extended_model.
    destruct (Rlt_dec v_z (py_max v_ls v_hs * 10)) as [Hlt | _];
      [| reflexivity].
    exfalso. unfold py_max in Hlt.
    destruct (Rlt_dec v_ls v_hs); lra. }
  pose proof (extended_shape v_power v_lr v_hr v_x v_y v_z v_ls v_hs N) as Hsh.
  destruct (np_min_max_spec N N _ Hsh HN HN)
    as (mn & mx & r1 & c1 & r2 & c2 & Hmin & Hmax & Hrow1 & Hcol1 & Hmn
        & _ & _ & _ & Hbounds).
  assert (Hpos : 0 < mn).
  { rewrite Hmn. apply extended_cell_pos; try assumption; lra. }
  assert (Hle : mn <= mx).
  { destruct (Hbounds r1 c1 Hrow1 Hcol1) as [_ H]. rewrite <- Hmn in H.
    exact H. }
  assert (Hupd :
    App.update
      (App.mk_state v_power v_lr v_hr v_x v_y v_z v_ls v_hs (py_int v_acc)
         (App.min_irradiance s) (App.max_irradiance s) (App.result_array s)) =
    inr (App.mk_state v_power v_lr v_hr v_x v_y v_z v_ls v_hs (py_int v_acc)
           mn mx
           (Some (Incupsulation.accumulated_field
                    v_power v_lr v_hr v_x v_y v_z v_ls v_hs N)))).
  { unfold App.update. simpl.
    destruct (Z.ltb_spec (py_int v_acc) 0) as [Hneg | _]; [lia |].
    fold N. rewrite Hmin, Hmax, Hnocorr. reflexivity. }
  eexists. split.
  - unfold App.on_slider_change, App.set_vals, App.create_sliders. simpl.
    destruct (py_int v_acc <=? 50)%Z; exact Hupd.
  - simpl. repeat split; try reflexivity; try lia; assumption.
Qed.

Lemma sliders_drive_uncorrected_field_witness :
  exists s' : App.state,
    App.on_slider_change
      (App.set_vals (App.create_sliders App.init)
         [500; 50; 50; 500; 1; 1; 100; 100; 30]) App.init = inr s' /\
    (20 <= App.accuracy s' <= 80)%Z /\
    0 < App.min_irradiance s' <= App.max_irradiance s'.
Proof.
  assert (Hlen : length [500; 50; 50; 500; 1; 1; 100; 100; 30] = 9%nat)
    by reflexivity.
  assert (Hr : Forall (fun kv => in_range (snd kv))
                 (App.set_vals (App.create_sliders App.init)
                    [500; 50; 50; 500; 1; 1; 100; 100; 30])).
  { unfold App.set_vals, App.create_sliders, in_range. simpl.
    repeat constructor; simpl; lra. }
  destruct (sliders_drive_uncorrected_field App.init _ Hlen Hr)
    as (s' & H1 & _ & _ & H4 & _ & H6).
  exists s'. split; [exact H1 |]. split; [exact H4 | exact H6].
Defined.

(** X17.  The reset button.  [create_sliders] keeps the nine sliders in the
    dictionary [self.sliders] and binds none of them as an attribute, so
    the first statement of [on_reset], [self.slider_power.reset()], raises
    [AttributeError]: on the instance built by [__init__], and on any
    instance without that attribute, no widget is reset.  The dictionary
    does hold the key. *)
Theorem on_reset_raises (s : App.state) :
  App.on_reset App.instance_attributes =
    ([], Some (AttributeError "slider_power"%string)) /\
  (forall attributes,
     App.hasattr attributes "slider_power"%string = false ->
     App.on_reset attributes = ([], Some (AttributeError "slider_power"%string))) /\
  (forall name,
     In name (map fst (App.create_sliders s)) ->
     App.hasattr App.instance_attributes name = false) /\
  exists sl, App.getitem (App.create_sliders s) "slider_power"%string = inr sl.
Proof.
  split; [reflexivity |]. split.
  - intros attributes H. unfold App.on_reset. simpl. rewrite H. reflexivity.
  - split.
    + intros name Hin. simpl in Hin.
      repeat (destruct Hin as [<- | Hin]; [reflexivity |]). contradiction.
    + eexists. reflexivity.
Qed.

Lemma on_reset_raises_witness :
  App.on_reset ["p"; "sliders"; "slider_gamma"; "radio_norm"]%string =
  ([], Some (AttributeError "slider_power"%string)).
Proof.
  apply (proj1 (proj2 (on_reset_raises App.init))). reflexivity.
Defined.
